(** * SiteCloner: a shallow embedding of the acquisition pipeline

    The development follows the Python sources module by module:

    - [PyStr]        Python [str] values and the string methods the code uses;
    - [Urllib]       the part of [urllib.parse] the resolver calls;
    - [Pathlib]      pure paths ([pathlib.PurePosixPath]);
    - [URLResolver]  [url_resolver.py];
    - [Config], [DownloadManager]  [config.py], [download_manager.py];
    - [URLRewriter]  the stylesheet side of [url_rewriter.py];
    - [SiteCloner]   [sitecloner.py].

    Python strings are sequences of Unicode code points, so a string is a
    list of [N].  Everything the interpreter supplies from tables that are
    not part of the repository (case mapping, white space, NFKC, MD5,
    percent decoding) is gathered in the record [Runtime]; the theorems
    quantify over it, and [Ascii.rt] is one executable instance. *)

From Stdlib Require Import Strings.String Strings.Ascii.
From Stdlib Require Import DecimalString.
From Stdlib Require Import List NArith ZArith Bool Lia Arith.
Import ListNotations.

Set Implicit Arguments.

(* ------------------------------------------------------------------ *)
(** ** Outcomes of calls that may raise *)

Inductive py (A : Type) : Type :=
| Ret (a : A)
| Raises.
Arguments Ret {A} a.
Arguments Raises {A}.

Definition py_bind {A B} (m : py A) (k : A -> py B) : py B :=
  match m with
  | Ret a => k a
  | Raises => Raises
  end.

Notation "x <-! m ;; k" := (py_bind m (fun x => k))
  (at level 61, m at next level, right associativity).

(* ------------------------------------------------------------------ *)
(** ** Python strings *)

Module PyStr.

Definition char := N.
Definition str := list char.

Definition lit (s : string) : str := map N_of_ascii (list_ascii_of_string s).
Definition ch (a : ascii) : char := N_of_ascii a.

Fixpoint eqb (a b : str) : bool :=
  match a, b with
  | [], [] => true
  | x :: a', y :: b' => N.eqb x y && eqb a' b'
  | _, _ => false
  end.

Definition is_empty (s : str) : bool :=
  match s with [] => true | _ => false end.

(** [x in xs] for a list or set of strings. *)
Definition mem (x : str) (xs : list str) : bool := existsb (eqb x) xs.

Definition cmem (c : char) (cs : str) : bool := existsb (N.eqb c) cs.

(** [s.startswith(p)] *)
Fixpoint startswith (p s : str) : bool :=
  match p, s with
  | [], _ => true
  | x :: p', y :: s' => N.eqb x y && startswith p' s'
  | _ :: _, [] => false
  end.

(** [s.endswith(p)] *)
Definition endswith (p s : str) : bool := startswith (rev p) (rev s).

(** [p in s] *)
Fixpoint contains (p s : str) : bool :=
  startswith p s ||
  match s with
  | [] => false
  | _ :: s' => contains p s'
  end.

(** [s.split(c)] for a one-character separator. *)
Fixpoint split (c : char) (s : str) : list str :=
  match s with
  | [] => [[]]
  | x :: s' =>
      if N.eqb x c then [] :: split c s'
      else match split c s' with
           | h :: r => (x :: h) :: r
           | [] => [[x]]
           end
  end.

(** [sep.join(l)] *)
Fixpoint join (sep : str) (l : list str) : str :=
  match l with
  | [] => []
  | [x] => x
  | x :: l' => x ++ sep ++ join sep l'
  end.

(** [s.split(c, 1)]: the text before the first [c] and the text after it. *)
Fixpoint split1 (c : char) (s : str) : str * option str :=
  match s with
  | [] => ([], None)
  | x :: s' =>
      if N.eqb x c then ([], Some s')
      else let '(h, r) := split1 c s' in (x :: h, r)
  end.

(** [s.rsplit(c, 1)] when [c in s]: the text before the last [c] and the
    text after it. *)
Definition rsplit1 (c : char) (s : str) : option (str * str) :=
  match split1 c (rev s) with
  | (ext_rev, Some name_rev) => Some (rev name_rev, rev ext_rev)
  | (_, None) => None
  end.

(** [s.replace(old, new)] for a non-empty [old]: leftmost matches, never
    overlapping.  [skip] counts the characters of a match still to drop. *)
Fixpoint replace_from (old new : str) (skip : nat) (s : str) : str :=
  match s with
  | [] => []
  | x :: s' =>
      match skip with
      | S k => replace_from old new k s'
      | O =>
          if startswith old s
          then new ++ replace_from old new (length old - 1) s'
          else x :: replace_from old new 0 s'
      end
  end.

Definition replace (old new s : str) : str := replace_from old new 0 s.

Fixpoint lstrip (f : char -> bool) (s : str) : str :=
  match s with
  | [] => []
  | x :: s' => if f x then lstrip f s' else s
  end.

Definition rstrip (f : char -> bool) (s : str) : str := rev (lstrip f (rev s)).

(** [s.strip(chars)], the characters given by a predicate. *)
Definition strip (f : char -> bool) (s : str) : str := rstrip f (lstrip f s).

(** [s[:k]], [k] possibly negative. *)
Definition slice_to (k : Z) (s : str) : str :=
  if (0 <=? k)%Z then firstn (Z.to_nat k) s
  else firstn (Z.to_nat (Z.of_nat (length s) + k)) s.

Definition is_ascii (c : char) : bool := (c <? 128)%N.
Definition is_ascii_upper (c : char) : bool := (65 <=? c)%N && (c <=? 90)%N.
Definition is_ascii_lower (c : char) : bool := (97 <=? c)%N && (c <=? 122)%N.
Definition is_ascii_alpha (c : char) : bool := is_ascii_upper c || is_ascii_lower c.
Definition is_ascii_digit (c : char) : bool := (48 <=? c)%N && (c <=? 57)%N.
Definition is_ascii_alnum (c : char) : bool := is_ascii_alpha c || is_ascii_digit c.

Definition ascii_lower_char (c : char) : char :=
  if is_ascii_upper c then (c + 32)%N else c.
Definition ascii_lower (s : str) : str := map ascii_lower_char s.

(** Lexicographic order on code points: [a <= b] on Python strings. *)
Fixpoint leb (a b : str) : bool :=
  match a, b with
  | [], _ => true
  | _ :: _, [] => false
  | x :: a', y :: b' => (x <? y)%N || (N.eqb x y && leb a' b')
  end.

(** [str(n)] for an integer. *)
Definition of_Z (n : Z) : str := lit (NilEmpty.string_of_int (Z.to_int n)).

Lemma eqb_refl : forall s, eqb s s = true.
Proof.
  induction s as [|x s IH]; simpl; [reflexivity|].
  now rewrite N.eqb_refl, IH.
Qed.

Lemma eqb_eq : forall a b, eqb a b = true <-> a = b.
Proof.
  induction a as [|x a IH]; destruct b as [|y b]; simpl; split; intro H;
    try reflexivity; try discriminate.
  - apply andb_true_iff in H as [Hx Ha].
    apply N.eqb_eq in Hx. apply IH in Ha. now subst.
  - inversion H; subst. now rewrite N.eqb_refl, eqb_refl.
Qed.

Lemma eqb_neq : forall a b, eqb a b = false <-> a <> b.
Proof.
  intros a b. split; intro H.
  - intro E. apply eqb_eq in E. congruence.
  - destruct (eqb a b) eqn:E; [|reflexivity].
    apply eqb_eq in E. contradiction.
Qed.


Lemma cmem_In : forall c cs, cmem c cs = true <-> In c cs.
Proof.
  intros c cs. unfold cmem. rewrite existsb_exists. split.
  - intros [y [Hy E]]. apply N.eqb_eq in E. now subst.
  - intro H. exists c. split; [assumption|apply N.eqb_refl].
Qed.

End PyStr.
Import PyStr.

Arguments lit s%_string.
Arguments ch a%_char.

(* ------------------------------------------------------------------ *)
(** ** What the interpreter supplies

    Library behaviour that rests on Unicode tables or on algorithms outside
    the repository.  A field is the Python function named in its comment. *)

Record Runtime : Type := {
  lower : str -> str;                 (* str.lower *)
  upper : str -> str;                 (* str.upper *)
  isspace : char -> bool;             (* str.isspace, and \s of re *)
  isword : char -> bool;              (* \w of re on str patterns *)
  nfkc : str -> str;                  (* unicodedata.normalize('NFKC', _) *)
  md5 : str -> option (list N);       (* hashlib.md5(s.encode('utf-8')).digest();
                                         None: UnicodeEncodeError *)
  unquote : str -> str;               (* urllib.parse.unquote *)
  parse_qs : str -> list (str * list str);      (* urllib.parse.parse_qs *)
  urlencode : list (str * list str) -> py str;  (* urlencode(_, doseq=True);
                                                   Raises: UnicodeEncodeError *)
  ip_literal_ok : str -> bool         (* urllib.parse._check_bracketed_host
                                         returns without raising *)
}.

(** [bytes.hex()] *)
Definition hex_digit (n : N) : char :=
  if (n <? 10)%N then (48 + n)%N else (87 + n)%N.
Definition hex_byte (b : N) : str :=
  [hex_digit ((b mod 256) / 16); hex_digit (b mod 16)].
Definition hexdigest (d : list N) : str := flat_map hex_byte d.

(* ------------------------------------------------------------------ *)
(** ** urllib.parse (CPython 3.11), the functions the resolver calls *)

Module Urllib.

Record ParseResult : Type := {
  scheme : str;
  netloc : str;
  path : str;
  params : str;
  query : str;
  fragment : str
}.

Definition uses_relative : list str :=
  [ []; lit "ftp"; lit "http"; lit "gopher"; lit "nntp"; lit "imap";
    lit "wais"; lit "file"; lit "https"; lit "shttp"; lit "mms";
    lit "prospero"; lit "rtsp"; lit "rtspu"; lit "sftp";
    lit "svn"; lit "svn+ssh"; lit "ws"; lit "wss" ].

Definition uses_netloc : list str :=
  [ []; lit "ftp"; lit "http"; lit "gopher"; lit "nntp"; lit "telnet";
    lit "imap"; lit "wais"; lit "file"; lit "mms"; lit "https"; lit "shttp";
    lit "snews"; lit "prospero"; lit "rtsp"; lit "rtspu"; lit "rsync";
    lit "svn"; lit "svn+ssh"; lit "sftp"; lit "nfs"; lit "git"; lit "git+ssh";
    lit "ws"; lit "wss" ].

Definition uses_params : list str :=
  [ []; lit "ftp"; lit "hdl"; lit "prospero"; lit "http"; lit "imap";
    lit "https"; lit "shttp"; lit "rtsp"; lit "rtspu"; lit "sip"; lit "sips";
    lit "mms"; lit "sftp"; lit "tel" ].

Definition is_scheme_char (c : char) : bool :=
  is_ascii_alnum c || cmem c (lit "+-.").

(** [_WHATWG_C0_CONTROL_OR_SPACE] *)
Definition is_c0_or_space (c : char) : bool := (c <=? 32)%N.

(** [_UNSAFE_URL_BYTES_TO_REMOVE]: tab, carriage return, line feed. *)
Definition is_unsafe_byte (c : char) : bool :=
  N.eqb c 9 || N.eqb c 13 || N.eqb c 10.

Definition remove_unsafe (s : str) : str :=
  filter (fun c => negb (is_unsafe_byte c)) s.

(** The scheme test of [urlsplit]: [url[:i]] with [i = url.find(':')],
    accepted when [i > 0], the first character is an ASCII letter and every
    character is a scheme character. *)
Definition split_scheme (url : str) : option (str * str) :=
  match split1 (ch ":") url with
  | (c :: pre, Some rest) =>
      if is_ascii_alpha c && forallb is_scheme_char (c :: pre)
      then Some (ascii_lower (c :: pre), rest)
      else None
  | _ => None
  end.

(** [_splitnetloc(url, 2)]: up to the first of [/ ? #]. *)
Fixpoint splitnetloc (s : str) : str * str :=
  match s with
  | [] => ([], [])
  | x :: s' =>
      if cmem x (lit "/?#") then ([], s)
      else let '(n, r) := splitnetloc s' in (x :: n, r)
  end.

(** [s.partition(c)] and [s.rpartition(c)[2]]. *)
Definition partition (c : char) (s : str) : str * bool * str :=
  match split1 c s with
  | (a, Some b) => (a, true, b)
  | (a, None) => (a, false, [])
  end.

Definition rpartition_last (c : char) (s : str) : str :=
  match rsplit1 c s with
  | Some (_, b) => b
  | None => s
  end.

Section WithRuntime.
Variable rt : Runtime.

(** [_check_bracketed_netloc]: [true] when it returns, [false] when it
    raises [ValueError]. *)
Definition check_bracketed_netloc (nl : str) : bool :=
  let hostname_and_port := rpartition_last (ch "@") nl in
  let '(before_bracket, have_open_br, bracketed) :=
    partition (ch "[") hostname_and_port in
  if have_open_br then
    if negb (is_empty before_bracket) then false
    else
      let '(hostname, _, port) := partition (ch "]") bracketed in
      if negb (is_empty port) && negb (startswith (lit ":") port) then false
      else ip_literal_ok rt hostname
  else
    let '(hostname, _, _) := partition (ch ":") hostname_and_port in
    ip_literal_ok rt hostname.

(** [_checknetloc]: [true] when it returns, [false] when it raises. *)
Definition checknetloc (nl : str) : bool :=
  if is_empty nl || forallb is_ascii nl then true
  else
    let n := filter (fun c => negb (cmem c (lit "@:#?"))) nl in
    let netloc2 := nfkc rt n in
    if eqb n netloc2 then true
    else negb (existsb (fun c => cmem c netloc2) (lit "/?#@:")).

(** [urlsplit(url, scheme)], with the path still carrying its parameters. *)
Definition urlsplit (url default_scheme : str) : py ParseResult :=
  let url := lstrip is_c0_or_space url in
  let dscheme := strip is_c0_or_space default_scheme in
  let url := remove_unsafe url in
  let dscheme := remove_unsafe dscheme in
  let '(sch, url) :=
    match split_scheme url with
    | Some (s, rest) => (s, rest)
    | None => (dscheme, url)
    end in
  nl_rest <-!
    (if startswith (lit "//") url then
       let '(nl, rest) := splitnetloc (skipn 2 url) in
       let ob := cmem (ch "[") nl in
       let cb := cmem (ch "]") nl in
       if (ob && negb cb) || (cb && negb ob) then Raises
       else if ob && cb && negb (check_bracketed_netloc nl) then Raises
       else Ret (nl, rest)
     else Ret ([], url)) ;;
  let '(nl, url) := nl_rest in
  let '(url, frag) :=
    match split1 (ch "#") url with
    | (u, Some f) => (u, f)
    | (u, None) => (u, [])
    end in
  let '(url, q) :=
    match split1 (ch "?") url with
    | (u, Some q) => (u, q)
    | (u, None) => (u, [])
    end in
  if checknetloc nl
  then Ret {| scheme := sch; netloc := nl; path := url; params := [];
              query := q; fragment := frag |}
  else Raises.

(** [_splitparams] *)
Definition splitparams (url : str) : str * str :=
  if cmem (ch "/") url then
    match rsplit1 (ch "/") url with
    | Some (dir, last) =>
        match split1 (ch ";") last with
        | (l, Some p) => (dir ++ [ch "/"] ++ l, p)
        | (_, None) => (url, [])
        end
    | None => (url, [])
    end
  else
    match split1 (ch ";") url with
    | (u, Some p) => (u, p)
    | (u, None) => (firstn (List.length u - 1) u, u)
    end.

(** [urlparse(url, scheme)] *)
Definition urlparse_with (url default_scheme : str) : py ParseResult :=
  r <-! urlsplit url default_scheme ;;
  if mem (scheme r) uses_params && cmem (ch ";") (path r) then
    let '(u, p) := splitparams (path r) in
    Ret {| scheme := scheme r; netloc := netloc r; path := u; params := p;
           query := query r; fragment := fragment r |}
  else Ret r.

Definition urlparse (url : str) : py ParseResult := urlparse_with url [].

(** [urlunsplit] *)
Definition urlunsplit (sch nl url q frag : str) : str :=
  let url :=
    if negb (is_empty nl)
       || (negb (is_empty sch) && mem sch uses_netloc
           && negb (startswith (lit "//") url))
    then
      let url := if negb (is_empty url) && negb (startswith (lit "/") url)
                 then ch "/" :: url else url in
      lit "//" ++ nl ++ url
    else url in
  let url := if negb (is_empty sch) then sch ++ lit ":" ++ url else url in
  let url := if negb (is_empty q) then url ++ lit "?" ++ q else url in
  if negb (is_empty frag) then url ++ lit "#" ++ frag else url.

(** [urlunparse] *)
Definition urlunparse (r : ParseResult) : str :=
  let url := if negb (is_empty (params r))
             then path r ++ lit ";" ++ params r else path r in
  urlunsplit (scheme r) (netloc r) url (query r) (fragment r).

(** The loop of [urljoin] over the merged segments. *)
Fixpoint resolve_segments (segments resolved_path : list str) : list str :=
  match segments with
  | [] => resolved_path
  | seg :: rest =>
      if eqb seg (lit "..") then resolve_segments rest (removelast resolved_path)
      else if eqb seg (lit ".") then resolve_segments rest resolved_path
      else resolve_segments rest (resolved_path ++ [seg])
  end.

(** [segments[1:-1] = filter(None, segments[1:-1])] *)
Definition filter_inner (segments : list str) : list str :=
  match segments with
  | [] => []
  | [x] => [x]
  | x :: rest =>
      x :: filter (fun s => negb (is_empty s)) (removelast rest)
        ++ [last rest []]
  end.

(** [urljoin(base, url)] *)
Definition urljoin (base url : str) : py str :=
  if is_empty base then Ret url
  else if is_empty url then Ret base
  else
    b <-! urlparse_with base [] ;;
    u <-! urlparse_with url (scheme b) ;;
    if negb (eqb (scheme u) (scheme b)) || negb (mem (scheme u) uses_relative)
    then Ret url
    else if mem (scheme u) uses_netloc && negb (is_empty (netloc u))
    then Ret (urlunparse u)
    else
      let nl := if mem (scheme u) uses_netloc then netloc b else netloc u in
      if is_empty (path u) && is_empty (params u) then
        Ret (urlunparse
               {| scheme := scheme u; netloc := nl; path := path b;
                  params := params b;
                  query := if is_empty (query u) then query b else query u;
                  fragment := fragment u |})
      else
        let base_parts := split (ch "/") (path b) in
        let base_parts :=
          if negb (is_empty (last base_parts [])) then removelast base_parts
          else base_parts in
        let segments :=
          if startswith (lit "/") (path u) then split (ch "/") (path u)
          else filter_inner (base_parts ++ split (ch "/") (path u)) in
        let resolved := resolve_segments segments [] in
        let resolved :=
          if mem (last segments []) [lit "."; lit ".."]
          then resolved ++ [[]] else resolved in
        let joined := join (lit "/") resolved in
        Ret (urlunparse
               {| scheme := scheme u; netloc := nl;
                  path := if is_empty joined then lit "/" else joined;
                  params := params u; query := query u;
                  fragment := fragment u |}).

End WithRuntime.
End Urllib.

(* ------------------------------------------------------------------ *)
(** ** pathlib: pure POSIX paths

    A path is its root flag and its components.  [resolve] needs the file
    system (symbolic links, the working directory) and is a parameter of
    the code that calls it. *)

Module Pathlib.

Record Path : Type := { root : bool; parts : list str }.

Definition is_component (c : str) : bool :=
  negb (is_empty c) && negb (eqb c (lit ".")).

(** [Path(s)] *)
Definition of_str (s : str) : Path :=
  {| root := startswith (lit "/") s;
     parts := filter is_component (split (ch "/") s) |}.

(** [a / b] *)
Definition joinpath (a b : Path) : Path :=
  if root b then b else {| root := root a; parts := parts a ++ parts b |}.

(** [Path] applied to several arguments. *)
Definition of_parts (args : list str) : Path :=
  fold_left (fun acc s => joinpath acc (of_str s)) args
            {| root := false; parts := [] |}.

(** [a / name] for a string [name]. *)
Definition child (a : Path) (name : str) : Path := joinpath a (of_str name).

(** [p.name] *)
Definition name (p : Path) : str := last (parts p) [].

(** [p.suffix] *)
Definition suffix (p : Path) : str :=
  match rsplit1 (ch ".") (name p) with
  | Some (stem, ext) =>
      if negb (is_empty stem) && negb (is_empty ext)
      then ch "." :: ext else []
  | None => []
  end.

(** [p.parent] *)
Definition parent (p : Path) : Path :=
  {| root := root p; parts := removelast (parts p) |}.

Fixpoint strip_prefix (pre l : list str) : option (list str) :=
  match pre, l with
  | [], _ => Some l
  | x :: pre', y :: l' => if eqb x y then strip_prefix pre' l' else None
  | _ :: _, [] => None
  end.

(** [p.relative_to(q)]; [None] is [ValueError]. *)
Definition relative_to (p q : Path) : option Path :=
  if Bool.eqb (root p) (root q) then
    match strip_prefix (parts q) (parts p) with
    | Some r => Some {| root := false; parts := r |}
    | None => None
    end
  else None.

(** [str(p)] *)
Definition to_str (p : Path) : str :=
  match root p, parts p with
  | false, [] => lit "."
  | false, ps => join (lit "/") ps
  | true, ps => ch "/" :: join (lit "/") ps
  end.

Definition path_eqb (p q : Path) : bool :=
  Bool.eqb (root p) (root q)
  && (List.length (parts p) =? List.length (parts q))%nat
  && forallb (fun xy => eqb (fst xy) (snd xy)) (combine (parts p) (parts q)).

(** [p.resolve()] on a file system none of whose entries is a symbolic
    link: the path is made absolute from the working directory [cwd] and
    its [..] components are folded. *)
Fixpoint collapse (parts acc : list str) : list str :=
  match parts with
  | [] => acc
  | p :: rest =>
      if eqb p (lit "..") then collapse rest (removelast acc)
      else collapse rest (acc ++ [p])
  end.

Definition lexical (cwd : list str) (p : Path) : option Path :=
  Some {| root := true;
          parts := collapse (if root p then parts p else cwd ++ parts p) [] |}.

End Pathlib.
Import Pathlib.

(* ------------------------------------------------------------------ *)
(** ** url_resolver.py *)

Module URLResolver.
Import Urllib.

Section Resolver.
Variable rt : Runtime.
(** [self.base_url] *)
Variable base_url : str.
(** [Path.resolve], [None] when it raises [OSError]. *)
Variable resolve : Path -> option Path.

Definition suspicious_patterns : list str :=
  [ lit "../"; [46; 46; 92]%N; lit "%2e%2e"; lit "%2f%2e%2e";
    lit "file://"; lit "ftp://"; lit "ldap://"; lit "gopher://" ].

Definition _contains_suspicious_patterns (url : str) : bool :=
  let url_lower := lower rt url in
  existsb (fun pattern => contains pattern url_lower) suspicious_patterns.

Definition skip_schemes : list str :=
  [ lit "data:"; lit "javascript:"; lit "mailto:"; lit "tel:";
    lit "ftp:"; lit "file:"; lit "blob:" ].

Definition _should_skip_url (url : str) : bool :=
  let url_lower := lower rt url in
  if existsb (fun sch => startswith sch url_lower) skip_schemes then true
  else if startswith (lit "#") url then true
  else if is_empty (strip (isspace rt) url) then true
  else if _contains_suspicious_patterns url then true
  else false.

Definition _is_valid_url_format (url : str) : bool :=
  match urlparse rt url with
  | Ret parsed =>
      if is_empty (scheme parsed)
         || negb (mem (lower rt (scheme parsed)) [lit "http"; lit "https"])
      then false
      else if is_empty (netloc parsed) then false
      else if (2048 <? List.length url)%nat then false
      else true
  | Raises => false
  end.

Definition private_prefixes : list str :=
  [ lit "localhost"; lit "127."; lit "10."; lit "192.168."; lit "172." ].

Definition _is_safe_resolved_url (url : str) : bool :=
  match urlparse rt url with
  | Ret parsed =>
      let netloc_lower := lower rt (netloc parsed) in
      if existsb (fun prefix => startswith prefix netloc_lower) private_prefixes
      then false
      else if eqb (lower rt (scheme parsed)) (lit "file") then false
      else true
  | Raises => false
  end.

(** The loop of [_normalize_url] over the path parts. *)
Fixpoint normalize_parts (path_parts normalized : list str) : list str :=
  match path_parts with
  | [] => normalized
  | part :: rest =>
      if eqb part (lit "..")
      then normalize_parts rest (removelast normalized)
      else normalize_parts rest (normalized ++ [part])
  end.

Definition normalize_path (p : str) : str :=
  let path_parts :=
    filter (fun part => negb (is_empty part) && negb (eqb part (lit ".")))
           (split (ch "/") p) in
  let normalized_path := ch "/" :: join (lit "/") (normalize_parts path_parts []) in
  if endswith (lit "/") p && negb (endswith (lit "/") normalized_path)
  then normalized_path ++ lit "/" else normalized_path.

(** [sorted(query_params.items())]: the keys of a dict are distinct, so the
    order of the pairs is the order of their keys. *)
Fixpoint insert_sorted (x : str * list str) (l : list (str * list str)) :=
  match l with
  | [] => [x]
  | y :: l' => if leb (fst x) (fst y) then x :: l else y :: insert_sorted x l'
  end.

Definition sorted (l : list (str * list str)) : list (str * list str) :=
  fold_right insert_sorted [] l.

Definition normalize_query (q : str) : py str :=
  if negb (is_empty q) then urlencode rt (sorted (parse_qs rt q))
  else Ret [].

Definition _normalize_url (url : str) : py str :=
  parsed <-! urlparse rt url ;;
  normalized_query <-! normalize_query (query parsed) ;;
  Ret (urlunparse
         {| scheme := scheme parsed;
            netloc := lower rt (netloc parsed);
            path := normalize_path (path parsed);
            params := params parsed;
            query := normalized_query;
            fragment := [] |}).

(** [current_page_url or self.base_url] *)
Definition base_for_resolution (current_page_url : option str) : str :=
  match current_page_url with
  | Some u => if is_empty u then base_url else u
  | None => base_url
  end.

(** The body of the [try] block of [resolve_url]. *)
Definition resolve_checked (base url : str) : py (option str) :=
  resolved <-! urljoin rt base url ;;
  if negb (_is_safe_resolved_url resolved) then Ret None
  else
    parsed <-! urlparse rt resolved ;;
    let normalized :=
      urlunparse {| scheme := scheme parsed; netloc := netloc parsed;
                    path := path parsed; params := params parsed;
                    query := query parsed; fragment := [] |} in
    c <-! _normalize_url normalized ;;
    Ret (Some c).

(** [resolve_url(url, current_page_url)].  [Ret None] is the rejected
    reference; [Raises] is the [ValueError] of the one [urlparse] call made
    outside the [try] block. *)
Definition resolve_url (url : str) (current_page_url : option str)
  : py (option str) :=
  if is_empty url || is_empty (strip (isspace rt) url) then Ret None
  else
    let url := strip (isspace rt) url in
    if _should_skip_url url then Ret None
    else
      url <-! (if startswith (lit "//") url then
                 b <-! urlparse rt (base_for_resolution current_page_url) ;;
                 Ret (scheme b ++ lit ":" ++ url)
               else Ret url) ;;
      if negb (_is_valid_url_format url) then Ret None
      else
        match resolve_checked (base_for_resolution current_page_url) url with
        | Ret r => Ret r
        | Raises => Ret None          (* except Exception: return None *)
        end.

(** *** Local paths *)

Definition windows_reserved : list str :=
  [ lit "CON"; lit "PRN"; lit "AUX"; lit "NUL";
    lit "COM1"; lit "COM2"; lit "COM3"; lit "COM4"; lit "COM5";
    lit "COM6"; lit "COM7"; lit "COM8"; lit "COM9";
    lit "LPT1"; lit "LPT2"; lit "LPT3"; lit "LPT4";
    lit "LPT5"; lit "LPT6"; lit "LPT7"; lit "LPT8"; lit "LPT9" ].

(** [\x00-\x1f\x7f] *)
Definition is_control (c : char) : bool := (c <=? 31)%N || N.eqb c 127.

Definition is_dot_or_space (c : char) : bool :=
  N.eqb c (ch ".") || N.eqb c (ch " ").

Definition _secure_sanitize_filename (filename : str) : str :=
  if is_empty filename then lit "unnamed"
  else
    let filename := nfkc rt filename in
    let filename :=
      filter (fun c => negb (N.eqb c 0 || N.eqb c 10 || N.eqb c 13)) filename in
    (* re.sub(r'[^\w\s.-]', '_', filename) *)
    let sanitized :=
      map (fun c => if isword rt c || isspace rt c
                       || N.eqb c (ch ".") || N.eqb c (ch "-")
                    then c else ch "_") filename in
    let sanitized := filter (fun c => negb (is_control c)) sanitized in
    let sanitized :=
      replace [92%N] (lit "_")
        (replace (lit "/") (lit "_") (replace (lit "..") (lit "_") sanitized)) in
    let sanitized := strip is_dot_or_space sanitized in
    let sanitized :=
      if mem (upper rt sanitized) windows_reserved
      then ch "_" :: sanitized else sanitized in
    let sanitized :=
      if (100 <? List.length sanitized)%nat then
        match rsplit1 (ch ".") sanitized with
        | Some (name, ext) =>
            let max_name_length := (100 - Z.of_nat (List.length ext) - 1)%Z in
            slice_to max_name_length name ++ lit "." ++ ext
        | None => firstn 100 sanitized
        end
      else sanitized in
    if is_empty sanitized || eqb sanitized (lit ".") then lit "unnamed"
    else sanitized.

Definition _sanitize_extension (extension : str) : str :=
  if is_empty extension then lit "html"
  else
    let ext := filter is_ascii_alnum (lower rt extension) in
    let ext := if (10 <? List.length ext)%nat then firstn 10 ext else ext in
    if is_empty ext then lit "html" else ext.

Definition valid_extensions : list str :=
  [ lit "html"; lit "htm"; lit "css"; lit "js"; lit "json"; lit "xml";
    lit "txt"; lit "svg"; lit "jpg"; lit "jpeg"; lit "png"; lit "gif";
    lit "webp"; lit "ico"; lit "bmp"; lit "woff"; lit "woff2"; lit "ttf";
    lit "otf"; lit "eot"; lit "mp4"; lit "webm"; lit "mp3"; lit "wav";
    lit "pdf"; lit "zip" ].

Definition binary_extensions : list str :=
  [ lit "jpg"; lit "jpeg"; lit "png"; lit "gif"; lit "webp"; lit "ico";
    lit "bmp"; lit "tiff"; lit "woff"; lit "woff2"; lit "ttf"; lit "otf";
    lit "eot"; lit "mp4"; lit "webm"; lit "mp3"; lit "wav"; lit "pdf";
    lit "zip"; lit "exe"; lit "dll" ].

Definition has_dot (s : str) : bool := cmem (ch ".") s.

(** [filename.split('.')[-1].lower()] *)
Definition last_ext (filename : str) : str :=
  lower rt (last (split (ch ".") filename) []).

Definition _has_valid_extension (filename : str) : bool :=
  if negb (has_dot filename) then false
  else mem (last_ext filename) valid_extensions.

Definition _is_binary_extension (filename : str) : bool :=
  if negb (has_dot filename) then false
  else mem (last_ext filename) binary_extensions.

(** [_create_safe_fallback_name] *)
Definition _create_safe_fallback_name (url : str) : py str :=
  match md5 rt url with
  | Some d => Ret (lit "safe_file_" ++ firstn 12 (hexdigest d) ++ lit ".html")
  | None => Raises
  end.

(** [path_parts[-1] = v] *)
Definition set_last (l : list str) (v : str) : list str := removelast l ++ [v].

Definition url_to_local_path (url : str) (output_dir : Path) : py Path :=
  parsed <-! urlparse rt url ;;
  if eqb url base_url then Ret (child output_dir (lit "index.html"))
  else
    let domain := _secure_sanitize_filename (netloc parsed) in
    let domain := if is_empty domain then lit "unknown_domain" else domain in
    let path_parts := [domain] in
    let path_parts :=
      if negb (is_empty (path parsed)) && negb (eqb (path parsed) (lit "/"))
      then
        let decoded_path := unquote rt (path parsed) in
        let path_components :=
          filter (fun comp => negb (is_empty comp))
                 (split (ch "/") decoded_path) in
        path_parts ++
          filter (fun sanitized_comp =>
                    negb (is_empty sanitized_comp)
                    && negb (mem sanitized_comp [lit "."; lit ".."]))
                 (map _secure_sanitize_filename path_components)
      else path_parts in
    path_parts <-!
      (if negb (is_empty (query parsed)) then
         match path_parts with
         | [] => Ret path_parts
         | _ =>
             match md5 rt (query parsed) with
             | None => Raises
             | Some d =>
                 let query_hash := firstn 8 (hexdigest d) in
                 let last_part := last path_parts [] in
                 match rsplit1 (ch ".") last_part with
                 | Some (name, ext) =>
                     let ext := _sanitize_extension ext in
                     Ret (set_last path_parts
                            (name ++ lit "_q" ++ query_hash ++ lit "." ++ ext))
                 | None =>
                     Ret (set_last path_parts
                            (last_part ++ lit "_q" ++ query_hash ++ lit ".html"))
                 end
             end
         end
       else Ret path_parts) ;;
    let path_parts :=
      if is_empty (last path_parts []) || negb (has_dot (last path_parts []))
      then path_parts ++ [lit "index.html"]
      else if negb (_has_valid_extension (last path_parts [])) then
        let last_part := last path_parts [] in
        if negb (_is_binary_extension last_part)
        then set_last path_parts (last_part ++ lit ".html")
        else path_parts
      else path_parts in
    let local_path := joinpath output_dir (of_parts path_parts) in
    match resolve output_dir, resolve local_path with
    | Some resolved_output, Some resolved_local =>
        match relative_to resolved_local resolved_output with
        | Some _ => Ret local_path
        | None =>
            safe_filename <-! _create_safe_fallback_name url ;;
            Ret (child output_dir safe_filename)
        end
    | _, _ =>
        safe_filename <-! _create_safe_fallback_name url ;;
        Ret (child output_dir safe_filename)
    end.

(** [should_process_for_assets] *)
Definition processable_extensions : list str :=
  [ lit ".html"; lit ".htm"; lit ".xhtml"; lit ".css"; lit ".scss";
    lit ".sass"; lit ".js"; lit ".json"; lit ".xml"; lit ".svg" ].

Definition should_process_for_assets (url : str) : py bool :=
  parsed <-! urlparse rt url ;;
  let ext := lower rt (suffix (of_str (path parsed))) in
  Ret (mem ext processable_extensions).

End Resolver.
End URLResolver.

(* ------------------------------------------------------------------ *)
(** ** Containment of local paths *)

Module LocalPath.
Import Urllib URLResolver.

Section Containment.
Variable rt : Runtime.
Variable base_url : str.
Variable resolve : Path -> option Path.

(** [p.resolve()] is [R.resolve()] or lies below it. *)
Definition contained (R p : Path) : bool :=
  match resolve R, resolve p with
  | Some r, Some q =>
      match relative_to q r with Some _ => true | None => false end
  | _, _ => false
  end.




End Containment.
End LocalPath.

(* ------------------------------------------------------------------ *)
(** ** What the sanitizer guarantees, and containment without links *)

Module Sanitizer.
Import Urllib URLResolver LocalPath.

(** A name that is one path component and stays where it is put: not
    empty, free of the separator, and neither [.] nor [..]. *)
Definition is_safe_component (s : str) : bool :=
  negb (is_empty s) && negb (cmem (ch "/") s)
  && negb (eqb s (lit ".")) && negb (eqb s (lit "..")).

Lemma replace_from_chars :
  forall old new c s k,
    In c (replace_from old new k s) -> In c new \/ In c s.
Proof.
  intros old new c. induction s as [|x s IH]; intros k H; cbn [replace_from] in H.
  - contradiction.
  - destruct k as [|k].
    + destruct (startswith old (x :: s)).
      * apply in_app_or in H as [H|H]; [now left|].
        apply IH in H as [H|H]; [now left|right; now right].
      * destruct H as [H|H]; [right; now left|].
        apply IH in H as [H|H]; [now left|right; now right].
    + apply IH in H as [H|H]; [now left|right; now right].
Qed.

Lemma replace_char_gone :
  forall c d s, c <> d -> ~ In c (replace [c] [d] s).
Proof.
  intros c d s Hcd. unfold replace.
  induction s as [|x s IH]; cbn [replace_from]; [intros []|].
  cbn [startswith length Nat.sub].
  destruct (N.eqb c x) eqn:E; cbn [andb app].
  - intros [H|H]; [congruence|now apply IH].
  - apply N.eqb_neq in E. intros [H|H]; [congruence|now apply IH].
Qed.

Lemma lstrip_chars : forall f c s, In c (lstrip f s) -> In c s.
Proof.
  intros f c. induction s as [|x s IH]; simpl; [tauto|].
  destruct (f x); [intro H; right; now apply IH|tauto].
Qed.

Lemma strip_chars : forall f c s, In c (strip f s) -> In c s.
Proof.
  intros f c s H. unfold strip, rstrip in H.
  apply in_rev in H. apply lstrip_chars in H. apply in_rev in H.
  now apply lstrip_chars in H.
Qed.

Lemma lstrip_head :
  forall f s, match lstrip f s with [] => True | x :: _ => f x = false end.
Proof.
  intros f. induction s as [|x s IH]; simpl; [exact I|].
  destruct (f x) eqn:E; [exact IH|exact E].
Qed.

Lemma last_rev : forall (l : str) d, last (rev l) d = hd d l.
Proof.
  intros [|x l] d; [reflexivity|]. simpl. apply last_last.
Qed.

(** What [strip] leaves does not end in a stripped character. *)
Lemma strip_last :
  forall f s d, strip f s <> [] -> f (last (strip f s) d) = false.
Proof.
  intros f s d H. unfold strip, rstrip in *.
  rewrite last_rev.
  pose proof (lstrip_head f (rev (lstrip f s))) as Hh.
  destruct (lstrip f (rev (lstrip f s))) as [|x l]; [now elim H|exact Hh].
Qed.

Lemma split1_spec :
  forall c s,
    match split1 c s with
    | (h, Some r) => s = h ++ c :: r /\ ~ In c h
    | (h, None) => s = h /\ ~ In c s
    end.
Proof.
  intros c. induction s as [|x s IH]; simpl; [split; [reflexivity|intros []]|].
  destruct (N.eqb x c) eqn:E.
  - apply N.eqb_eq in E. subst. split; [reflexivity|intros []].
  - apply N.eqb_neq in E. destruct (split1 c s) as [h [r|]].
    + destruct IH as [IH1 IH2]. split; [simpl; now f_equal|].
      intros [H|H]; [congruence|contradiction].
    + destruct IH as [IH1 IH2]. split; [now f_equal|].
      intros [H|H]; [congruence|contradiction].
Qed.

Lemma rsplit1_some :
  forall c s name ext,
    rsplit1 c s = Some (name, ext) -> s = name ++ c :: ext /\ ~ In c ext.
Proof.
  intros c s name ext H. unfold rsplit1 in H.
  pose proof (split1_spec c (rev s)) as Hs.
  destruct (split1 c (rev s)) as [h [r|]]; [|discriminate].
  inversion H; subst. destruct Hs as [Hs Hn]. split.
  - rewrite <- (rev_involutive s), Hs, rev_app_distr. simpl.
    now rewrite <- app_assoc.
  - intro Hin. apply in_rev in Hin. contradiction.
Qed.

Lemma rsplit1_none :
  forall c s, rsplit1 c s = None -> ~ In c s.
Proof.
  intros c s H. unfold rsplit1 in H.
  pose proof (split1_spec c (rev s)) as Hs.
  destruct (split1 c (rev s)) as [h [r|]]; [discriminate|].
  destruct Hs as [_ Hn]. intro Hin. apply Hn. now apply in_rev in Hin.
Qed.

Lemma firstn_chars : forall (c : char) n l, In c (firstn n l) -> In c l.
Proof.
  intros c. induction n as [|n IH]; intros [|x l]; simpl; try tauto.
  intros [H|H]; [now left|right; now apply IH].
Qed.

Lemma slice_to_chars : forall c k s, In c (slice_to k s) -> In c s.
Proof.
  intros c k s. unfold slice_to.
  destruct (0 <=? k)%Z; apply firstn_chars.
Qed.


Lemma last_In : forall (l : str) d, l <> [] -> In (last l d) l.
Proof.
  induction l as [|x l IH]; intros d H; [now elim H|].
  destruct l as [|y l]; [now left|].
  right. apply IH. discriminate.
Qed.

Lemma last_app_cons :
  forall (a b : str) x d, last (a ++ x :: b) d = last (x :: b) d.
Proof.
  induction a as [|y a IH]; intros b x d; [reflexivity|].
  change ((y :: a) ++ x :: b) with (y :: (a ++ x :: b)).
  destruct (a ++ x :: b) eqn:E; [now destruct a|].
  rewrite <- E. cbn [last]. rewrite E. rewrite <- E. apply IH.
Qed.

Lemma last_cons_nonempty :
  forall (l : str) x d, l <> [] -> last (x :: l) d = last l d.
Proof.
  intros [|y l] x d H; [now elim H|reflexivity].
Qed.

(** The invariant of the sanitizer's result. *)
Definition tidy (s : str) : Prop :=
  s <> [] /\ ~ In (ch "/") s /\ last s 0%N <> ch ".".

Lemma tidy_safe : forall s, tidy s -> is_safe_component s = true.
Proof.
  intros s (Hne & Hsl & Hlast). unfold is_safe_component.
  destruct s as [|x s]; [now elim Hne|]. cbn [is_empty negb andb].
  destruct (cmem (ch "/") (x :: s)) eqn:E;
    [apply cmem_In in E; contradiction|].
  destruct (eqb (x :: s) (lit ".")) eqn:E1;
    [apply eqb_eq in E1; rewrite E1 in Hlast; now elim Hlast|].
  destruct (eqb (x :: s) (lit "..")) eqn:E2;
    [apply eqb_eq in E2; rewrite E2 in Hlast; now elim Hlast|].
  reflexivity.
Qed.

Lemma unnamed_tidy : tidy (lit "unnamed").
Proof.
  repeat split; try discriminate.
  intro H. cbn in H. repeat (destruct H as [H|H]; [discriminate|]). exact H.
Qed.

Section Names.
Variable rt : Runtime.

(** [_secure_sanitize_filename] returns one component that cannot move a
    path: never empty, never containing the separator, never ending in a
    dot (so neither [.] nor [..]), whatever the input and whatever the
    Unicode tables say. *)
Lemma sanitize_tidy : forall s, tidy (_secure_sanitize_filename rt s).
Proof.
  intro s. unfold _secure_sanitize_filename.
  destruct (is_empty s); [apply unnamed_tidy|].
  match goal with
  | |- context [strip is_dot_or_space ?x] => set (s0 := x)
  end.
  assert (H0 : ~ In (ch "/") s0).
  { subst s0. intro H. apply replace_from_chars in H as [H|H].
    - cbn in H. destruct H as [H|[]]. discriminate.
    - revert H. apply replace_char_gone. discriminate. }
  set (s1 := strip is_dot_or_space s0).
  assert (H1 : ~ In (ch "/") s1).
  { intro H. apply H0. eapply strip_chars. exact H. }
  assert (L1 : s1 <> [] -> last s1 0%N <> ch ".").
  { intros Hne E. pose proof (@strip_last is_dot_or_space s0 0%N Hne) as Hl.
    fold s1 in Hl. rewrite E in Hl. discriminate. }
  set (s2 := if mem (upper rt s1) windows_reserved then ch "_" :: s1 else s1).
  assert (H2 : ~ In (ch "/") s2).
  { subst s2. destruct (mem (upper rt s1) windows_reserved); [|exact H1].
    intros [H|H]; [discriminate|contradiction]. }
  assert (L2 : s2 <> [] -> last s2 0%N <> ch ".").
  { subst s2. destruct (mem (upper rt s1) windows_reserved); [|exact L1].
    intros _. destruct s1 as [|y l] eqn:E; [discriminate|].
    rewrite last_cons_nonempty by discriminate. apply L1. discriminate. }
  clearbody s2. clear L1 H1 H0. clearbody s1. clear s1 s0.
  match goal with
  | |- context [if is_empty ?x || _ then _ else _] => set (s3 := x)
  end.
  assert (H3 : s3 <> [] -> tidy s3).
  { intro Hne. subst s3.
    destruct (100 <? List.length s2)%nat eqn:Hlen.
    - destruct (rsplit1 (ch ".") s2) as [[name ext]|] eqn:Hsplit.
      + apply rsplit1_some in Hsplit as [Hs Hext].
        assert (Hs2 : s2 <> []) by (rewrite Hs; now destruct name).
        assert (Hext' : ext <> []).
        { intro E. subst ext. apply (L2 Hs2). rewrite Hs.
          now rewrite last_app_cons. }
        split; [now destruct (slice_to _ name)|]. split.
        * intro H. apply H2. rewrite Hs.
          apply in_app_or in H as [H|H].
          -- apply in_or_app. left. eapply slice_to_chars. exact H.
          -- apply in_or_app. right. exact H.
        * change (lit "." ++ ext) with (ch "." :: ext).
          rewrite last_app_cons, last_cons_nonempty by exact Hext'.
          intro E. apply Hext. rewrite <- E. now apply last_In.
      + apply rsplit1_none in Hsplit.
        split; [exact Hne|]. split.
        * intro H. apply H2. eapply firstn_chars. exact H.
        * intro E. apply Hsplit. eapply firstn_chars.
          rewrite <- E. now apply last_In.
    - split; [exact Hne|]. split; [exact H2|now apply L2]. }
  destruct s3 as [|x l] eqn:E3; [apply unnamed_tidy|].
  cbn [is_empty orb].
  destruct (eqb (x :: l) (lit ".")); [apply unnamed_tidy|].
  apply H3. discriminate.
Qed.

(** Whatever the input and whatever the Unicode tables say,
    [_secure_sanitize_filename] returns a single path component: it is not
    empty, holds no separator, and is neither [.] nor [..]. *)
Theorem sanitized_name_is_safe :
  forall s, is_safe_component (_secure_sanitize_filename rt s) = true.
Proof.
  intro s. apply tidy_safe, sanitize_tidy.
Qed.

End Names.

(** *** Paths made of safe components *)

Definition safe (s : str) : Prop := is_safe_component s = true.

Lemma safe_intro :
  forall s c, ~ In (ch "/") s -> In c s -> c <> ch "." -> safe s.
Proof.
  intros s c Hsl Hin Hc. unfold safe, is_safe_component.
  destruct s as [|x s]; [contradiction|]. cbn [is_empty negb andb].
  destruct (cmem (ch "/") (x :: s)) eqn:E;
    [apply cmem_In in E; contradiction|].
  destruct (eqb (x :: s) (lit ".")) eqn:E1.
  { apply eqb_eq in E1. rewrite E1 in Hin.
    destruct Hin as [H|[]]. now elim Hc. }
  destruct (eqb (x :: s) (lit "..")) eqn:E2.
  { apply eqb_eq in E2. rewrite E2 in Hin.
    destruct Hin as [H|[H|[]]]; now elim Hc. }
  reflexivity.
Qed.

Lemma safe_parts :
  forall s, safe s ->
    s <> [] /\ ~ In (ch "/") s /\ s <> lit "." /\ s <> lit "..".
Proof.
  intros s H. unfold safe, is_safe_component in H.
  apply andb_true_iff in H as [H H4]. apply andb_true_iff in H as [H H3].
  apply andb_true_iff in H as [H1 H2].
  repeat split.
  - intro E. subst. discriminate.
  - intro E. apply cmem_In in E. rewrite E in H2. discriminate.
  - intro E. apply eqb_eq in E. rewrite E in H3. discriminate.
  - intro E. apply eqb_eq in E. rewrite E in H4. discriminate.
Qed.

Lemma split_no_sep : forall c s, ~ In c s -> split c s = [s].
Proof.
  intros c. induction s as [|x s IH]; intro H; [reflexivity|].
  cbn [split]. destruct (N.eqb x c) eqn:E.
  - apply N.eqb_eq in E. elim H. now left.
  - rewrite IH; [reflexivity|]. intro Hin. apply H. now right.
Qed.

Lemma of_str_safe :
  forall s, safe s -> of_str s = {| root := false; parts := [s] |}.
Proof.
  intros s H. apply safe_parts in H as (Hne & Hsl & Hdot & _).
  unfold of_str. rewrite split_no_sep by exact Hsl.
  cbn [filter]. unfold is_component.
  destruct s as [|x s]; [now elim Hne|]. cbn [is_empty negb andb].
  apply eqb_neq in Hdot. rewrite Hdot. cbn [negb].
  f_equal. change (lit "/") with [ch "/"]. cbn [startswith].
  destruct (N.eqb (ch "/") x) eqn:E; [|reflexivity].
  apply N.eqb_eq in E. elim Hsl. now left.
Qed.

Lemma of_parts_from :
  forall l acc, Forall safe l ->
    fold_left (fun acc s => joinpath acc (of_str s)) l acc
    = {| root := root acc; parts := parts acc ++ l |}.
Proof.
  induction l as [|x l IH]; intros acc H; cbn [fold_left].
  - rewrite app_nil_r. now destruct acc.
  - inversion H; subst. rewrite IH by assumption.
    rewrite of_str_safe by assumption. unfold joinpath. cbn.
    now rewrite <- app_assoc.
Qed.

Lemma of_parts_safe :
  forall l, Forall safe l -> of_parts l = {| root := false; parts := l |}.
Proof.
  intros l H. unfold of_parts. now rewrite of_parts_from.
Qed.

Lemma collapse_safe :
  forall l acc, Forall safe l -> collapse l acc = acc ++ l.
Proof.
  induction l as [|x l IH]; intros acc H; cbn [collapse].
  - now rewrite app_nil_r.
  - inversion H as [|? ? Hx Hl]; subst.
    apply safe_parts in Hx as (_ & _ & _ & Hx).
    apply eqb_neq in Hx. rewrite Hx, IH by assumption.
    now rewrite <- app_assoc.
Qed.

Lemma collapse_app :
  forall a b acc, collapse (a ++ b) acc = collapse b (collapse a acc).
Proof.
  induction a as [|x a IH]; intros b acc; [reflexivity|].
  cbn [app collapse]. destruct (eqb x (lit "..")); apply IH.
Qed.

Lemma strip_prefix_app :
  forall a l, strip_prefix a (a ++ l) = Some l.
Proof.
  induction a as [|x a IH]; intro l; [reflexivity|].
  cbn [app strip_prefix]. now rewrite eqb_refl.
Qed.

(** On a file system without links a path extended by safe components
    passes the verification of [url_to_local_path]. *)
Lemma lexical_verified :
  forall cwd R l, Forall safe l ->
    exists x y z,
      lexical cwd R = Some x
      /\ lexical cwd (joinpath R (of_parts l)) = Some y
      /\ relative_to y x = Some z.
Proof.
  intros cwd R l H. rewrite of_parts_safe by assumption.
  unfold lexical, joinpath. cbn [root parts].
  do 3 eexists. split; [reflexivity|]. split; [reflexivity|].
  unfold relative_to. cbn [root parts Bool.eqb].
  destruct (root R); cbv iota.
  - rewrite (@collapse_app (parts R) l []),
      (@collapse_safe l (collapse (parts R) []) H).
    now rewrite strip_prefix_app.
  - rewrite app_assoc, (@collapse_app (cwd ++ parts R) l []),
      (@collapse_safe l (collapse (cwd ++ parts R) []) H).
    now rewrite strip_prefix_app.
Qed.

Lemma hex_digit_ge : forall n, (48 <= hex_digit n)%N.
Proof.
  intro n. unfold hex_digit. destruct (n <? 10)%N; lia.
Qed.

Lemma hexdigest_chars : forall d c, In c (hexdigest d) -> (48 <= c)%N.
Proof.
  intros d c H. unfold hexdigest in H. apply in_flat_map in H as [b [_ H]].
  unfold hex_byte in H.
  destruct H as [H|[H|[]]]; subst; apply hex_digit_ge.
Qed.

Lemma removelast_Forall :
  forall (P : str -> Prop) l, Forall P l -> Forall P (removelast l).
Proof.
  intros P. induction l as [|x l IH]; intro H; [constructor|].
  inversion H; subst. cbn [removelast].
  destruct l; [constructor|]. constructor; [assumption|now apply IH].
Qed.

Lemma set_last_safe :
  forall l v, Forall safe l -> safe v -> Forall safe (set_last l v).
Proof.
  intros l v Hl Hv. unfold set_last. apply Forall_app. split.
  - now apply removelast_Forall.
  - now constructor.
Qed.

Lemma last_no_slash :
  forall l, Forall safe l -> ~ In (ch "/") (last l []).
Proof.
  intros l H. destruct l as [|x l]; [intros []|].
  assert (Hin : In (last (x :: l) []) (x :: l)).
  { clear H. revert x. induction l as [|y l IH]; intro x; [now left|].
    right. apply IH. }
  rewrite Forall_forall in H. apply H in Hin.
  now apply safe_parts in Hin.
Qed.

Section LocalPaths.
Variable rt : Runtime.
Variable base_url : str.

Lemma sanitize_extension_chars :
  forall e c, In c (_sanitize_extension rt e) -> c <> ch "/".
Proof.
  intros e c H. unfold _sanitize_extension in H.
  assert (Hhtml : In c (lit "html") -> c <> ch "/").
  { intro Hc. cbn in Hc.
    repeat (destruct Hc as [Hc|Hc]; [subst; discriminate|]). contradiction. }
  destruct (is_empty e); [now apply Hhtml|].
  set (ext := filter is_ascii_alnum (lower rt e)) in *.
  assert (Hext : forall x, In x ext -> x <> ch "/").
  { intros x Hx. subst ext. apply filter_In in Hx as [_ Hx].
    intro E. subst. discriminate. }
  destruct (10 <? List.length ext)%nat.
  - destruct (is_empty (firstn 10 ext)); [now apply Hhtml|].
    apply Hext. eapply firstn_chars. exact H.
  - destruct (is_empty ext); [now apply Hhtml|now apply Hext].
Qed.

(** The stages of [url_to_local_path], named. *)
Definition initial_parts (parsed : ParseResult) : list str :=
  let domain := _secure_sanitize_filename rt (netloc parsed) in
  let domain := if is_empty domain then lit "unknown_domain" else domain in
  if negb (is_empty (path parsed)) && negb (eqb (path parsed) (lit "/"))
  then
    [domain] ++
      filter (fun sanitized_comp =>
                negb (is_empty sanitized_comp)
                && negb (mem sanitized_comp [lit "."; lit ".."]))
             (map (_secure_sanitize_filename rt)
                  (filter (fun comp => negb (is_empty comp))
                          (split (ch "/") (unquote rt (path parsed)))))
  else [domain].

Definition with_query (parsed : ParseResult) (path_parts : list str)
  : py (list str) :=
  if negb (is_empty (query parsed)) then
    match path_parts with
    | [] => Ret path_parts
    | _ =>
        match md5 rt (query parsed) with
        | None => Raises
        | Some d =>
            let query_hash := firstn 8 (hexdigest d) in
            let last_part := last path_parts [] in
            match rsplit1 (ch ".") last_part with
            | Some (name, ext) =>
                let ext := _sanitize_extension rt ext in
                Ret (set_last path_parts
                       (name ++ lit "_q" ++ query_hash ++ lit "." ++ ext))
            | None =>
                Ret (set_last path_parts
                       (last_part ++ lit "_q" ++ query_hash ++ lit ".html"))
            end
        end
    end
  else Ret path_parts.

Definition with_extension (path_parts : list str) : list str :=
  if is_empty (last path_parts []) || negb (has_dot (last path_parts []))
  then path_parts ++ [lit "index.html"]
  else if negb (_has_valid_extension rt (last path_parts [])) then
    let last_part := last path_parts [] in
    if negb (_is_binary_extension rt last_part)
    then set_last path_parts (last_part ++ lit ".html")
    else path_parts
  else path_parts.

Definition verified (resolve : Path -> option Path) (url : str)
    (output_dir : Path) (path_parts : list str) : py Path :=
  let local_path := joinpath output_dir (of_parts path_parts) in
  match resolve output_dir, resolve local_path with
  | Some resolved_output, Some resolved_local =>
      match relative_to resolved_local resolved_output with
      | Some _ => Ret local_path
      | None =>
          safe_filename <-! _create_safe_fallback_name rt url ;;
          Ret (child output_dir safe_filename)
      end
  | _, _ =>
      safe_filename <-! _create_safe_fallback_name rt url ;;
      Ret (child output_dir safe_filename)
  end.

Lemma url_to_local_path_stages :
  forall resolve url output_dir,
    url_to_local_path rt base_url resolve url output_dir
    = (parsed <-! urlparse rt url ;;
       if eqb url base_url then Ret (child output_dir (lit "index.html"))
       else
         path_parts <-! with_query parsed (initial_parts parsed) ;;
         verified resolve url output_dir (with_extension path_parts)).
Proof.
  reflexivity.
Qed.

Lemma decorated_safe :
  forall a b,
    ~ In (ch "/") a -> ~ In (ch "/") b -> safe (a ++ lit "_q" ++ b).
Proof.
  intros a b Ha Hb. apply safe_intro with (c := ch "_").
  - intro H. apply in_app_or in H as [H|H]; [contradiction|].
    apply in_app_or in H as [H|H]; [|contradiction].
    cbn in H. destruct H as [H|[H|[]]]; discriminate.
  - apply in_or_app. right. now left.
  - discriminate.
Qed.

Lemma html_suffix_safe :
  forall a, ~ In (ch "/") a -> safe (a ++ lit ".html").
Proof.
  intros a Ha. apply safe_intro with (c := ch "h").
  - intro H. apply in_app_or in H as [H|H]; [contradiction|].
    cbn in H. repeat (destruct H as [H|H]; [discriminate|]). exact H.
  - apply in_or_app. right. right. now left.
  - discriminate.
Qed.

Lemma initial_parts_safe :
  forall parsed, Forall safe (initial_parts parsed).
Proof.
  intro parsed. unfold initial_parts.
  set (domain := _secure_sanitize_filename rt (netloc parsed)).
  assert (Hd : safe (if is_empty domain then lit "unknown_domain" else domain)).
  { destruct (is_empty domain); [reflexivity|].
    apply tidy_safe, sanitize_tidy. }
  cbv zeta.
  destruct (negb (is_empty (path parsed)) && negb (eqb (path parsed) (lit "/")));
    [|now constructor].
  apply Forall_app. split; [now constructor|].
  apply Forall_forall. intros x Hx.
  apply filter_In in Hx as [Hx _]. apply in_map_iff in Hx as [y [Hy _]].
  subst x. apply tidy_safe, sanitize_tidy.
Qed.

Lemma with_query_safe :
  forall parsed l, Forall safe l ->
    match with_query parsed l with
    | Ret l' => Forall safe l'
    | Raises => md5 rt (query parsed) = None
    end.
Proof.
  intros parsed l H. unfold with_query.
  destruct (negb (is_empty (query parsed))); [|exact H].
  destruct l as [|x l'] eqn:El; [exact H|]. rewrite <- El in *.
  destruct (md5 rt (query parsed)) as [d|]; [|reflexivity].
  pose proof (last_no_slash H) as Hlast.
  assert (Hhash : ~ In (ch "/") (firstn 8 (hexdigest d))).
  { intro Hin. apply firstn_chars, hexdigest_chars in Hin.
    apply Hin. reflexivity. }
  cbv zeta.
  destruct (rsplit1 (ch ".") (last l [])) as [[name ext]|] eqn:Hs.
  - apply rsplit1_some in Hs as [Hs _].
    apply set_last_safe; [exact H|]. apply decorated_safe.
    + intro Hin. apply Hlast. rewrite Hs. apply in_or_app. now left.
    + intro Hin. apply in_app_or in Hin as [Hin|Hin]; [contradiction|].
      destruct Hin as [Hin|Hin]; [discriminate|].
      now apply sanitize_extension_chars in Hin.
  - apply set_last_safe; [exact H|]. apply decorated_safe; [exact Hlast|].
    intro Hin. apply in_app_or in Hin as [Hin|Hin]; [contradiction|].
    cbn in Hin. repeat (destruct Hin as [Hin|Hin]; [discriminate|]). exact Hin.
Qed.

Lemma with_extension_safe :
  forall l, Forall safe l -> Forall safe (with_extension l).
Proof.
  intros l H. unfold with_extension.
  destruct (is_empty (last l []) || negb (has_dot (last l []))).
  - apply Forall_app. split; [exact H|]. constructor; [reflexivity|constructor].
  - destruct (negb (_has_valid_extension rt (last l []))); [|exact H].
    cbv zeta. destruct (negb (_is_binary_extension rt (last l []))); [|exact H].
    apply set_last_safe; [exact H|].
    apply html_suffix_safe. now apply last_no_slash.
Qed.

Lemma set_last_nonempty : forall l v, set_last l v <> [].
Proof.
  intros l v E. unfold set_last in E.
  apply app_eq_nil in E as [_ E]. discriminate.
Qed.

Lemma initial_parts_nonempty :
  forall parsed, initial_parts parsed <> [].
Proof.
  intro parsed. unfold initial_parts. cbv zeta.
  destruct (negb (is_empty (path parsed)) && negb (eqb (path parsed) (lit "/")));
    discriminate.
Qed.

Lemma with_query_nonempty :
  forall parsed l l',
    l <> [] -> with_query parsed l = Ret l' -> l' <> [].
Proof.
  intros parsed l l' Hl H. unfold with_query in H.
  destruct (negb (is_empty (query parsed))); [|inversion H; now subst].
  destruct l as [|x l0]; [now elim Hl|].
  destruct (md5 rt (query parsed)); [|discriminate].
  cbv zeta in H.
  destruct (rsplit1 (ch ".") (last (x :: l0) [])) as [[name ext]|];
    inversion H; apply set_last_nonempty.
Qed.

Lemma with_extension_nonempty :
  forall l, l <> [] -> with_extension l <> [].
Proof.
  intros l Hl. unfold with_extension.
  destruct (is_empty (last l []) || negb (has_dot (last l []))).
  - intro E. apply app_eq_nil in E as [_ E]. discriminate.
  - destruct (negb (_has_valid_extension rt (last l []))); [|exact Hl].
    cbv zeta. destruct (negb (_is_binary_extension rt (last l [])));
      [apply set_last_nonempty|exact Hl].
Qed.

(** Where nothing is a symbolic link, [url_to_local_path] returns the
    output root extended by safe components, one at least, and that path
    passes the verification: the sanitizer alone keeps it inside, and the
    fallback name is never needed.  The call raises only when [urlparse]
    rejects the URL or the query cannot be encoded for hashing. *)
Theorem url_to_local_path_without_links :
  forall (cwd : list str) (url : str) (R : Path),
    match url_to_local_path rt base_url (lexical cwd) url R with
    | Ret p =>
        contained (lexical cwd) R p = true
        /\ exists l,
             l <> [] /\ forallb is_safe_component l = true
             /\ p = {| root := root R; parts := parts R ++ l |}
    | Raises =>
        urlparse rt url = Raises
        \/ (exists parsed, urlparse rt url = Ret parsed
                            /\ md5 rt (query parsed) = None)
    end.
Proof.
  intros cwd url R. rewrite url_to_local_path_stages.
  assert (Hgo : forall l, Forall safe l -> l <> [] ->
            contained (lexical cwd) R (joinpath R (of_parts l)) = true
            /\ exists l0,
                 l0 <> [] /\ forallb is_safe_component l0 = true
                 /\ joinpath R (of_parts l)
                    = {| root := root R; parts := parts R ++ l0 |}).
  { intros l Hl Hne. split.
    - destruct (lexical_verified cwd R Hl) as (x & y & z & Hx & Hy & Hz).
      unfold contained. now rewrite Hx, Hy, Hz.
    - exists l. split; [exact Hne|]. split.
      + apply forallb_forall. rewrite Forall_forall in Hl. exact Hl.
      + now rewrite of_parts_safe. }
  destruct (urlparse rt url) as [parsed|] eqn:Hparse; cbn [py_bind];
    [|now left].
  destruct (eqb url base_url).
  - change (child R (lit "index.html"))
      with (joinpath R (of_str (lit "index.html"))).
    assert (Hi : Forall safe [lit "index.html"])
      by (constructor; [reflexivity|constructor]).
    replace (of_str (lit "index.html")) with (of_parts [lit "index.html"])
      by (rewrite of_parts_safe by exact Hi; reflexivity).
    apply Hgo; [exact Hi|discriminate].
  - pose proof (with_query_safe parsed (initial_parts_safe parsed)) as Hq.
    destruct (with_query parsed (initial_parts parsed)) as [l|] eqn:El;
      cbn [py_bind].
    + pose proof (with_extension_safe Hq) as He.
      assert (Hne : with_extension l <> []).
      { apply with_extension_nonempty.
        apply (with_query_nonempty parsed (initial_parts_nonempty parsed) El). }
      unfold verified. cbv zeta.
      destruct (lexical_verified cwd R He) as (x & y & z & Hx & Hy & Hz).
      rewrite Hx, Hy, Hz. now apply Hgo.
    + right. exists parsed. split; [reflexivity|exact Hq].
Qed.

End LocalPaths.

End Sanitizer.

(* ------------------------------------------------------------------ *)
(** ** An executable runtime

    [Ascii.rt] agrees with CPython on strings of ASCII characters whose
    percent escapes are below [%80]; it is what the examples, witnesses
    and counterexamples below run on.  Outside that range it is total but
    approximate: case mapping, [\w] and NFKC treat other code points as
    inert, and a decoded byte of 0x80 or more becomes U+FFFD.  [md5] is a
    16-byte stand-in for the MD5 digest (only its length and determinism
    matter to the code). *)

Module Ascii.

Definition ascii_upper_char (c : char) : char :=
  if is_ascii_lower c then (c - 32)%N else c.

Definition space_char (c : char) : bool :=
  ((9 <=? c)%N && (c <=? 13)%N) || ((28 <=? c)%N && (c <=? 32)%N)
  || N.eqb c 133 || N.eqb c 160.

Definition word_char (c : char) : bool := is_ascii_alnum c || N.eqb c (ch "_").

Definition hex_value (c : char) : option N :=
  if is_ascii_digit c then Some (c - 48)%N
  else if (97 <=? c)%N && (c <=? 102)%N then Some (c - 87)%N
  else if (65 <=? c)%N && (c <=? 70)%N then Some (c - 55)%N
  else None.

(** [unquote]: every [%XX] with two hexadecimal digits is one byte. *)
Fixpoint percent_decode (s : str) : str :=
  match s with
  | [] => []
  | c :: s' =>
      match s' with
      | h :: ((l :: _) as t) =>
          match (if N.eqb c (ch "%") then hex_value h else None),
                hex_value l with
          | Some a, Some b =>
              let byte := (16 * a + b)%N in
              (if (byte <? 128)%N then byte else 65533%N)
                :: match percent_decode t with _ :: r => r | [] => [] end
          | _, _ => c :: percent_decode s'
          end
      | _ => c :: percent_decode s'
      end
  end.

Definition unquote_plus (s : str) : str :=
  percent_decode (map (fun c => if N.eqb c (ch "+") then ch " " else c) s).

(** [parse_qsl] with the default arguments. *)
Definition parse_qsl (qs : str) : list (str * str) :=
  if is_empty qs then []
  else
    flat_map
      (fun name_value =>
         if is_empty name_value then []
         else match split1 (ch "=") name_value with
              | (n, Some v) =>
                  if is_empty v then [] else [(unquote_plus n, unquote_plus v)]
              | (_, None) => []
              end)
      (split (ch "&") qs).

(** The grouping loop of [parse_qs]: a dict in insertion order. *)
Fixpoint dict_append (k v : str) (d : list (str * list str)) :=
  match d with
  | [] => [(k, [v])]
  | (k', vs) :: d' =>
      if eqb k k' then (k', vs ++ [v]) :: d' else (k', vs) :: dict_append k v d'
  end.

Definition query_dict (qs : str) : list (str * list str) :=
  fold_left (fun d nv => dict_append (fst nv) (snd nv) d) (parse_qsl qs) [].

(** [s.encode('utf-8')]; [None] on a surrogate. *)
Definition utf8_char (c : char) : option (list N) :=
  if (c <? 128)%N then Some [c]
  else if (c <? 2048)%N then Some [192 + c / 64; 128 + c mod 64]%N
  else if (55296 <=? c)%N && (c <=? 57343)%N then None
  else if (c <? 65536)%N
       then Some [224 + c / 4096; 128 + (c / 64) mod 64; 128 + c mod 64]%N
  else Some [240 + c / 262144; 128 + (c / 4096) mod 64;
             128 + (c / 64) mod 64; 128 + c mod 64]%N.

Fixpoint utf8 (s : str) : option (list N) :=
  match s with
  | [] => Some []
  | c :: s' =>
      match utf8_char c, utf8 s' with
      | Some b, Some r => Some (b ++ r)
      | _, _ => None
      end
  end.

Definition hex_upper (n : N) : char :=
  if (n <? 10)%N then (48 + n)%N else (55 + n)%N.

(** [quote_plus(s)] with [safe = ''] *)
Definition quote_byte (b : N) : str :=
  if is_ascii_alnum b || cmem b (lit "_.-~") then [b]
  else if N.eqb b (ch " ") then lit "+"
  else [ch "%"; hex_upper (b / 16); hex_upper (b mod 16)].

Definition quote_plus (s : str) : py str :=
  match utf8 s with
  | Some bs => Ret (flat_map quote_byte bs)
  | None => Raises
  end.

Fixpoint urlencode_values (k : str) (vs : list str) : py (list str) :=
  match vs with
  | [] => Ret []
  | v :: vs' =>
      qv <-! quote_plus v ;;
      r <-! urlencode_values k vs' ;;
      Ret ((k ++ lit "=" ++ qv) :: r)
  end.

Fixpoint urlencode_items (q : list (str * list str)) : py (list str) :=
  match q with
  | [] => Ret []
  | (k, vs) :: q' =>
      qk <-! quote_plus k ;;
      l <-! urlencode_values qk vs ;;
      r <-! urlencode_items q' ;;
      Ret (l ++ r)
  end.

Definition encode_query (q : list (str * list str)) : py str :=
  l <-! urlencode_items q ;;
  Ret (join (lit "&") l).

(** Stand-in digest: sixteen bytes computed from the UTF-8 bytes. *)
Definition digest16 (s : str) : option (list N) :=
  match utf8 s with
  | Some bs =>
      let h := fold_left (fun acc b => ((acc * 31 + b + 7) mod 4294967296)%N)
                         bs 5381%N in
      Some (map (fun i => ((h / (i + 1)) + 17 * i) mod 256)%N
                [0; 1; 2; 3; 4; 5; 6; 7; 8; 9; 10; 11; 12; 13; 14; 15]%N)
  | None => None
  end.

Definition rt : Runtime :=
  {| lower := ascii_lower;
     upper := map ascii_upper_char;
     isspace := space_char;
     isword := word_char;
     nfkc := fun s => s;
     md5 := digest16;
     unquote := percent_decode;
     parse_qs := query_dict;
     urlencode := encode_query;
     ip_literal_ok := fun _ => true |}.

End Ascii.

(** The resolver of the spec's running example. *)
Module Example.
Import Urllib URLResolver.

Definition base : str := lit "https://ex.test/".
Definition resolve_in (url : str) : py (option str) :=
  resolve_url Ascii.rt base url None.

Example resolve_absolute :
  resolve_in (lit "HTTP://Example.COM/a/./b//c.css?z=1&a=2#top")
  = Ret (Some (lit "http://example.com/a/b/c.css?a=2&z=1")).
Proof. vm_compute. reflexivity. Qed.

Example resolve_trailing_dot_segment :
  resolve_in (lit "http://example.com/a/b/..")
  = Ret (Some (lit "http://example.com/a")).
Proof. vm_compute. reflexivity. Qed.

Example resolve_traversal :
  resolve_in (lit "http://example.com/a/../b.css") = Ret None.
Proof. vm_compute. reflexivity. Qed.

Example resolve_protocol_relative :
  resolve_in (lit "//cdn.ex.test/lib.js")
  = Ret (Some (lit "https://cdn.ex.test/lib.js")).
Proof. vm_compute. reflexivity. Qed.

(** A relative reference has no scheme, so [_is_valid_url_format] rejects
    it before [urljoin] is reached. *)
Example resolve_relative :
  resolve_in (lit "style.css") = Ret None.
Proof. vm_compute. reflexivity. Qed.

End Example.

(* ------------------------------------------------------------------ *)
(** ** Facts about the scheme found by [urlsplit] *)

Module SchemeFacts.
Import Urllib.















Section WithRuntime.
Variable rt : Runtime.





End WithRuntime.
End SchemeFacts.

(* ------------------------------------------------------------------ *)
(** ** Rejected references *)

Module Rejection.
Import Urllib URLResolver SchemeFacts.

Section Guards.
Variable rt : Runtime.
Variable base_url : str.

Abbreviation base_for cur := (base_for_resolution base_url cur).
Abbreviation stripped url := (strip (isspace rt) url).

(** The reference after the protocol-relative step of [resolve_url]. *)
Definition complete_scheme (u : str) (cur : option str) : py str :=
  if startswith (lit "//") u then
    b <-! urlparse rt (base_for cur) ;;
    Ret (scheme b ++ lit ":" ++ u)
  else Ret u.





Lemma resolve_url_unfold :
  forall url cur,
    resolve_url rt base_url url cur =
    if is_empty url || is_empty (stripped url) then Ret None
    else if _should_skip_url rt (stripped url) then Ret None
    else
      u <-! complete_scheme (stripped url) cur ;;
      if negb (_is_valid_url_format rt u) then Ret None
      else match resolve_checked rt (base_for cur) u with
           | Ret r => Ret r
           | Raises => Ret None
           end.
Proof. reflexivity. Qed.




End Guards.




End Rejection.

(* ------------------------------------------------------------------ *)
(** ** Path normalisation is idempotent *)

Module PathNormal.
Import URLResolver.

Lemma split_not_nil : forall c s, split c s <> [].
Proof.
  intros c s. destruct s as [|x s]; simpl; [discriminate|].
  destruct (N.eqb x c); [discriminate|].
  destruct (split c s); discriminate.
Qed.

Lemma split_app_sep :
  forall c s rest, ~ In c s -> split c (s ++ c :: rest) = s :: split c rest.
Proof.
  intros c s rest. induction s as [|x s IH]; intro Hn; simpl.
  - now rewrite N.eqb_refl.
  - destruct (N.eqb x c) eqn:E.
    + apply N.eqb_eq in E. subst. exfalso. apply Hn. now left.
    + rewrite IH; [reflexivity|]. intro Hin. apply Hn. now right.
Qed.

Lemma split_snoc :
  forall c s, split c (s ++ [c]) = split c s ++ [[]].
Proof.
  intros c s. induction s as [|x s IH]; simpl.
  - now rewrite N.eqb_refl.
  - destruct (N.eqb x c); [now rewrite IH|].
    rewrite IH. destruct (split c s) eqn:E; [|reflexivity].
    now apply split_not_nil in E.
Qed.

Lemma split_pieces_no_sep :
  forall c s, Forall (fun x => ~ In c x) (split c s).
Proof.
  intros c s. induction s as [|x s IH]; simpl.
  - constructor; [intros []|constructor].
  - destruct (N.eqb x c) eqn:E.
    + constructor; [intros []|assumption].
    + destruct (split c s) as [|h r]; [constructor; [|constructor]|].
      * intros [H|[]]. subst. now rewrite N.eqb_refl in E.
      * inversion IH as [|? ? Hh Hr]; subst. constructor; [|assumption].
        intros [H|H]; [subst; now rewrite N.eqb_refl in E|now apply Hh].
Qed.

Lemma split_join :
  forall c l,
    l <> [] -> Forall (fun x => ~ In c x) l -> split c (join [c] l) = l.
Proof.
  intros c l. induction l as [|x l IH]; intros Hne Hall; [contradiction|].
  inversion Hall as [|? ? Hx Hl]; subst.
  destruct l as [|y l].
  - simpl. now apply Sanitizer.split_no_sep.
  - change (join [c] (x :: y :: l)) with (x ++ c :: join [c] (y :: l)).
    rewrite split_app_sep by assumption.
    rewrite IH; [reflexivity|discriminate|assumption].
Qed.

(** What [normalize_path] keeps: a non-empty segment without a slash that
    is neither [.] nor [..]. *)
Definition kept (part : str) : bool :=
  negb (is_empty part) && negb (eqb part (lit ".")).

Definition segment (x : str) : Prop :=
  kept x = true /\ eqb x (lit "..") = false /\ ~ In (ch "/") x.

Lemma Forall_removelast :
  forall (A : Type) (P : A -> Prop) (l : list A),
    Forall P l -> Forall P (removelast l).
Proof.
  intros A P l H. induction H as [|x l Hx Hl IH]; [constructor|].
  simpl. destruct l; [constructor|]. constructor; assumption.
Qed.

Lemma normalize_parts_segments :
  forall l acc,
    Forall (fun x => kept x = true /\ ~ In (ch "/") x) l ->
    Forall segment acc ->
    Forall segment (normalize_parts l acc).
Proof.
  induction l as [|x l IH]; intros acc Hl Hacc; simpl; [assumption|].
  inversion Hl as [|? ? [Hk Hs] Hl']; subst.
  destruct (eqb x (lit "..")) eqn:E.
  - apply IH; [assumption|now apply Forall_removelast].
  - apply IH; [assumption|].
    apply Forall_app. split; [assumption|].
    constructor; [|constructor]. now repeat split.
Qed.

Lemma normalize_parts_fixed :
  forall l acc, Forall segment l -> normalize_parts l acc = acc ++ l.
Proof.
  induction l as [|x l IH]; intros acc H; simpl.
  - now rewrite app_nil_r.
  - inversion H as [|? ? [_ [E _]] Hl]; subst. rewrite E.
    rewrite IH by assumption. now rewrite <- app_assoc.
Qed.

Lemma filter_kept_segments :
  forall l, Forall segment l -> filter kept l = l.
Proof.
  induction l as [|x l IH]; intro H; [reflexivity|].
  inversion H as [|? ? [Hk _] Hl]; subst. simpl. rewrite Hk.
  now rewrite IH.
Qed.

Lemma endswith_snoc :
  forall c d s, endswith [c] (s ++ [d]) = N.eqb c d.
Proof.
  intros c d s. unfold endswith. rewrite rev_app_distr. simpl.
  now rewrite andb_true_r.
Qed.

Lemma join_last :
  forall l, l <> [] -> Forall segment l ->
            exists t x, join (lit "/") l = t ++ [x] /\ x <> ch "/".
Proof.
  induction l as [|s l IH]; intros Hne H; [contradiction|].
  inversion H as [|? ? [Hk [_ Hs]] Hl]; subst.
  destruct l as [|y l].
  - destruct (exists_last (l := s)) as [t [x E]].
    { intro E. subst. discriminate. }
    subst s. exists t, x. split; [reflexivity|].
    intro Hx. apply Hs. subst. apply in_or_app. right. now left.
  - destruct IH as [t [x [E Hx]]]; [discriminate|assumption|].
    exists (s ++ lit "/" ++ t), x. split; [|assumption].
    change (join (lit "/") (s :: y :: l))
      with (s ++ lit "/" ++ join (lit "/") (y :: l)).
    rewrite E. now rewrite !app_assoc.
Qed.

Lemma endswith_join :
  forall st, st <> [] -> Forall segment st ->
             endswith (lit "/") (ch "/" :: join (lit "/") st) = false.
Proof.
  intros st Hne Hst. destruct (join_last Hne Hst) as [t [x [Ej Hx]]].
  rewrite Ej. change (ch "/" :: t ++ [x]) with ((ch "/" :: t) ++ [x]).
  change (lit "/") with [ch "/"]. rewrite endswith_snoc.
  apply N.eqb_neq. congruence.
Qed.

Lemma split_rooted_join :
  forall st, st <> [] -> Forall segment st ->
             split (ch "/") (ch "/" :: join (lit "/") st) = [] :: st.
Proof.
  intros st Hne Hst. cbn [split]. rewrite N.eqb_refl. f_equal.
  change (lit "/") with [ch "/"]. apply split_join; [assumption|].
  eapply Forall_impl; [|exact Hst]. intros a [_ [_ Ha]]. exact Ha.
Qed.

(** The two shapes of a normalised path. *)
Lemma normalize_path_shape :
  forall p, exists st,
    Forall segment st
    /\ (normalize_path p = ch "/" :: join (lit "/") st
        \/ (st <> []
            /\ normalize_path p = (ch "/" :: join (lit "/") st) ++ lit "/")).
Proof.
  intro p. unfold normalize_path.
  set (st := normalize_parts _ []).
  assert (Hst : Forall segment st).
  { apply normalize_parts_segments; [|constructor].
    pose proof (split_pieces_no_sep (ch "/") p) as Hsp.
    induction Hsp as [|x l Hx Hl IH]; simpl; [constructor|].
    fold (kept x). destruct (kept x) eqn:Hk; [|assumption].
    constructor; [now split|assumption]. }
  exists st. split; [assumption|].
  destruct (list_eq_dec (list_eq_dec N.eq_dec) st []) as [E|Hne].
  - left. rewrite E. cbn [join].
    destruct (endswith (lit "/") p); reflexivity.
  - rewrite (endswith_join Hne Hst). cbn [negb]. rewrite andb_true_r.
    destruct (endswith (lit "/") p); [right|left]; auto.
Qed.

Lemma normalize_path_plain :
  forall st, Forall segment st ->
             normalize_path (ch "/" :: join (lit "/") st)
             = ch "/" :: join (lit "/") st.
Proof.
  intros st Hst.
  destruct (list_eq_dec (list_eq_dec N.eq_dec) st []) as [E|Hne].
  - subst. reflexivity.
  - unfold normalize_path. rewrite (split_rooted_join Hne Hst).
    change (fun part : str => negb (is_empty part) && negb (eqb part (lit ".")))
      with kept.
    cbn [filter]. change (kept []) with false. cbn iota.
    rewrite filter_kept_segments by assumption.
    rewrite normalize_parts_fixed by assumption. cbn [app].
    now rewrite (endswith_join Hne Hst).
Qed.

Lemma normalize_path_slash :
  forall st, st <> [] -> Forall segment st ->
             normalize_path ((ch "/" :: join (lit "/") st) ++ lit "/")
             = (ch "/" :: join (lit "/") st) ++ lit "/".
Proof.
  intros st Hne Hst. unfold normalize_path.
  change (lit "/") with [ch "/"] at 1.
  rewrite split_snoc, (split_rooted_join Hne Hst).
  change (fun part : str => negb (is_empty part) && negb (eqb part (lit ".")))
    with kept.
  rewrite filter_app. cbn [filter app].
  change (kept []) with false. cbn iota.
  rewrite filter_kept_segments by assumption.
  rewrite app_nil_r.
  rewrite normalize_parts_fixed by assumption. cbn [app].
  rewrite (endswith_join Hne Hst).
  change (endswith [ch "/"] (ch "/" :: join (lit "/") st ++ lit "/"))
    with (endswith [ch "/"] ((ch "/" :: join (lit "/") st) ++ [ch "/"])).
  now rewrite endswith_snoc, N.eqb_refl.
Qed.

Lemma normalize_path_twice :
  forall p, normalize_path (normalize_path p) = normalize_path p.
Proof.
  intro p. destruct (normalize_path_shape p) as [st [Hst [E|[Hne E]]]];
    rewrite E.
  - now apply normalize_path_plain.
  - now apply normalize_path_slash.
Qed.

(** The path step of [_normalize_url] is idempotent: a path whose dot
    segments have been folded is left as it is by a second pass. *)
Theorem normalize_path_idempotent :
  forall p, normalize_path (normalize_path p) = normalize_path p.
Proof.
  exact normalize_path_twice.
Qed.

End PathNormal.

(* ------------------------------------------------------------------ *)
(** ** Re-canonicalising a canonical URL *)

Module Idempotence.
Import Urllib URLResolver SchemeFacts PathNormal.

Section Canonical.
Variable rt : Runtime.
Variable base_url : str.

(** The components [_normalize_url] hands to [urlunparse]. *)
Definition normalized_components (url : str) : py ParseResult :=
  parsed <-! urlparse rt url ;;
  normalized_query <-! normalize_query rt (query parsed) ;;
  Ret {| scheme := scheme parsed;
         netloc := lower rt (netloc parsed);
         path := normalize_path (path parsed);
         params := params parsed;
         query := normalized_query;
         fragment := [] |}.

Lemma _normalize_url_components :
  forall url,
    _normalize_url rt url
    = (P <-! normalized_components url ;; Ret (urlunparse P)).
Proof.
  intro url. unfold _normalize_url, normalized_components.
  destruct (urlparse rt url) as [parsed|]; [|reflexivity]. cbn [py_bind].
  destruct (normalize_query rt (query parsed)); reflexivity.
Qed.

(** Every accepted reference is canonicalised by [_normalize_url]. *)
Lemma resolve_url_canonical :
  forall r cur c,
    resolve_url rt base_url r cur = Ret (Some c) ->
    exists u P, normalized_components u = Ret P /\ c = urlunparse P.
Proof.
  intros r cur c H. rewrite Rejection.resolve_url_unfold in H.
  destruct (is_empty r || _); [discriminate|].
  destruct (_should_skip_url rt _); [discriminate|].
  destruct (Rejection.complete_scheme rt base_url _ cur) as [u|];
    [|discriminate].
  cbn [py_bind] in H.
  destruct (negb (_is_valid_url_format rt u)); [discriminate|].
  destruct (resolve_checked rt (base_for_resolution base_url cur) u)
    as [o|] eqn:Hc; [|discriminate].
  inversion H; subst o. clear H.
  unfold resolve_checked in Hc.
  destruct (urljoin rt _ u) as [resolved|]; [|discriminate].
  cbn [py_bind] in Hc.
  destruct (negb (_is_safe_resolved_url rt resolved)); [discriminate|].
  destruct (urlparse rt resolved) as [parsed|]; [|discriminate].
  cbn [py_bind] in Hc.
  match type of Hc with
  | context [_normalize_url rt ?n] =>
      destruct (_normalize_url rt n) as [c'|] eqn:Hn; [|discriminate];
      exists n
  end.
  cbn [py_bind] in Hc. inversion Hc; subst c'.
  rewrite _normalize_url_components in Hn.
  destruct (normalized_components _) as [P|]; [|discriminate].
  exists P. split; [reflexivity|]. now inversion Hn.
Qed.






End Canonical.



End Idempotence.

(* ------------------------------------------------------------------ *)
(** ** config.py *)

Module Config.
Import Urllib.

Record SiteClonerConfig : Type := {
  target_url : str;
  output_dir : Path;
  allowed_domains : list str;
  blocked_domains : list str;
  allowed_extensions : list str;
  blocked_extensions : list str;
  max_file_size : Z;
  max_concurrent_downloads : Z;
  max_retries : Z;
  overwrite_existing : bool;
  save_metadata : bool;
  create_index_file : bool
}.

Definition default_allowed_extensions : list str :=
  [ lit ".html"; lit ".htm"; lit ".css"; lit ".js"; lit ".json";
    lit ".jpg"; lit ".jpeg"; lit ".png"; lit ".gif"; lit ".svg";
    lit ".webp"; lit ".ico"; lit ".woff"; lit ".woff2"; lit ".ttf";
    lit ".otf"; lit ".eot"; lit ".mp4"; lit ".webm"; lit ".mp3";
    lit ".wav"; lit ".pdf"; lit ".xml"; lit ".txt"; lit ".manifest" ].

(** The dataclass defaults, for a target URL and an output directory. *)
Definition default (target : str) (out : Path) : SiteClonerConfig :=
  {| target_url := target;
     output_dir := out;
     allowed_domains := [];
     blocked_domains := [];
     allowed_extensions := default_allowed_extensions;
     blocked_extensions := [];
     max_file_size := 100 * 1024 * 1024;
     max_concurrent_downloads := 10;
     max_retries := 5;
     overwrite_existing := false;
     save_metadata := true;
     create_index_file := true |}.

(** A truthy [Optional[int]]. *)
Definition truthy (file_size : option Z) : option Z :=
  match file_size with
  | Some n => if (n =? 0)%Z then None else Some n
  | None => None
  end.

Definition nonempty {A : Type} (l : list A) : bool :=
  match l with [] => false | _ => true end.

Definition should_download_file (rt : Runtime) (cfg : SiteClonerConfig)
           (url : str) (file_size : option Z) : py bool :=
  parsed <-! urlparse rt url ;;
  let ext := lower rt (suffix (of_str (path parsed))) in
  let ext :=
    if is_empty ext
       && (is_empty (path parsed) || eqb (path parsed) (lit "/")
           || endswith (lit "/") (path parsed))
    then lit ".html" else ext in
  if nonempty (allowed_extensions cfg) && negb (is_empty ext)
     && negb (mem ext (allowed_extensions cfg)) then Ret false
  else if mem ext (blocked_extensions cfg) then Ret false
  else if match truthy file_size with
          | Some n => (max_file_size cfg <? n)%Z
          | None => false
          end then Ret false
  else
    let domain := lower rt (netloc parsed) in
    if nonempty (blocked_domains cfg) && mem domain (blocked_domains cfg)
    then Ret false
    else if nonempty (allowed_domains cfg)
            && negb (mem domain (allowed_domains cfg)) then Ret false
    else Ret true.

End Config.

(* ------------------------------------------------------------------ *)
(** ** download_manager.py

    The network and the disk are explicit.  A [World] holds the files
    written so far and the log of GET requests; an [Env] holds what the
    code can only observe: the server's replies, free disk space, free
    memory, symbolic links, text decoding.  Concurrent downloads of one
    batch are run one after another in the order of the batch; waiting
    (rate limiter, back-off sleeps, time-outs as durations) has no
    counterpart in the model, and writes to the output tree are taken to
    succeed. *)

Module DownloadManager.
Import Urllib URLResolver Config.

Inductive Exn : Type :=
| TimeoutError                    (* asyncio.TimeoutError *)
| OtherError (msg : str).         (* any other Exception, with str(e) *)

(** The Content-Length header as [int(...)] sees it. *)
Inductive ContentLength : Type :=
| Absent                          (* no header, or an empty one *)
| NotAnInteger                    (* int() raises ValueError *)
| Declared (n : Z).

Record HttpResponse : Type := {
  status : Z;
  reason : str;
  content_length : ContentLength;
  content_type : str;
  chunks : list (list N);         (* what iter_chunked yields *)
  stream_error : option Exn       (* raised after the last chunk, if any *)
}.

Inductive Reply : Type :=
| Fails (e : Exn)
| Responds (r : HttpResponse).

Record World : Type := {
  files : list (Path * list N);
  requests : list str             (* newest first *)
}.

Record Env : Type := {
  server : str -> nat -> Reply;   (* the reply to the n-th GET of a URL *)
  disk_free : World -> option Z;  (* shutil.disk_usage(...).free;
                                     None when the call raises *)
  available_memory : option Z;    (* psutil.virtual_memory().available *)
  fs_resolve : Path -> option Path;
  decode : list N -> option str;  (* reading a file as text; None when no
                                     encoding fits *)
  encode : str -> list N          (* writing text as UTF-8 *)
}.

Record DownloadResult : Type := {
  url : str;
  success : bool;
  local_path : option Path;
  error : option str;
  file_size : Z;
  result_content_type : option str
}.

Definition failed (u : str) (msg : str) : DownloadResult :=
  {| url := u; success := false; local_path := None; error := Some msg;
     file_size := 0; result_content_type := None |}.

Record DownloadStats : Type := {
  total_files : Z;
  downloaded_files : Z;
  failed_files : Z;
  total_bytes : Z;
  errors : list str
}.

Definition add_success (st : DownloadStats) (size : Z) : DownloadStats :=
  {| total_files := total_files st;
     downloaded_files := downloaded_files st + 1;
     failed_files := failed_files st;
     total_bytes := total_bytes st + size;
     errors := errors st |}.

Definition add_failure (st : DownloadStats) (e : str) : DownloadStats :=
  {| total_files := total_files st;
     downloaded_files := downloaded_files st;
     failed_files := failed_files st + 1;
     total_bytes := total_bytes st;
     errors := errors st ++ [e] |}.

Definition set_total (st : DownloadStats) (n : Z) : DownloadStats :=
  {| total_files := n;
     downloaded_files := downloaded_files st;
     failed_files := failed_files st;
     total_bytes := total_bytes st;
     errors := errors st |}.

Record Manager : Type := {
  downloaded_urls : list str;
  failed_urls : list str;
  stats : DownloadStats
}.

Definition new_manager : Manager :=
  {| downloaded_urls := []; failed_urls := [];
     stats := {| total_files := 0; downloaded_files := 0; failed_files := 0;
                 total_bytes := 0; errors := [] |} |}.

(** Sets of strings as duplicate-free lists. *)
Definition set_add (x : str) (s : list str) : list str :=
  if mem x s then s else s ++ [x].
Definition set_union (s t : list str) : list str := fold_left (fun acc x => set_add x acc) t s.
Definition set_diff (s t : list str) : list str :=
  filter (fun x => negb (mem x t)) s.
Definition set_remove (x : str) (s : list str) : list str :=
  filter (fun y => negb (eqb x y)) s.

(** *** Files *)

Fixpoint lookup_file (fs : list (Path * list N)) (p : Path) : option (list N) :=
  match fs with
  | [] => None
  | (q, c) :: fs' => if path_eqb p q then Some c else lookup_file fs' p
  end.

Fixpoint write_file (fs : list (Path * list N)) (p : Path) (c : list N)
  : list (Path * list N) :=
  match fs with
  | [] => [(p, c)]
  | (q, c') :: fs' =>
      if path_eqb p q then (q, c) :: fs' else (q, c') :: write_file fs' p c
  end.

Definition with_file (w : World) (p : Path) (c : list N) : World :=
  {| files := write_file (files w) p c; requests := requests w |}.

Definition with_request (w : World) (u : str) : World :=
  {| files := files w; requests := u :: requests w |}.

(** How many GETs of [u] the log holds. *)
Definition request_count (w : World) (u : str) : nat :=
  List.length (filter (eqb u) (requests w)).

Section Manager.
Variable rt : Runtime.
Variable env : Env.
Variable cfg : SiteClonerConfig.

(** [check_disk_space]: [free > required * 1.2].  The product is a double
    in the source; the comparison below is the exact one, which agrees
    with it for every requirement under 10^15 bytes. *)
Definition check_disk_space (w : World) (required_bytes : Z) : bool :=
  match disk_free env w with
  | Some free_bytes => (6 * required_bytes <? 5 * free_bytes)%Z
  | None => true
  end.

(** [get_available_memory] *)
Definition get_available_memory : Z :=
  match available_memory env with
  | Some m => m
  | None => 1024 * 1024 * 1024
  end.

(** What one pass through the body of the retry loop does. *)
Inductive Step : Type :=
| Return (w : World) (r : DownloadResult)     (* return ... *)
| Continue (w : World)                        (* continue *)
| Delegate (w : World) (u : str).             (* return await self._download_single_url(..) *)

(** [if attempt < max_retries: sleep; continue] else [return failure]. *)
Definition retry_or_fail (w : World) (u : str) (attempt : Z) (msg : str) : Step :=
  if (attempt <? max_retries cfg)%Z then Continue w
  else Return w (failed u msg).

Definition exception_step (w : World) (u : str) (attempt : Z) (e : Exn) : Step :=
  match e with
  | TimeoutError =>
      retry_or_fail w u attempt
        (lit "Download timeout (attempt " ++ of_Z (attempt + 1) ++ lit ")")
  | OtherError msg =>
      retry_or_fail w u attempt (lit "Download error: " ++ msg)
  end.

Definition size_of (c : list N) : Z := Z.of_nat (List.length c).

(** The part of the loop body inside [async with session.get(...)]. *)
Definition handle_response (w : World) (u : str) (attempt : Z)
           (path : Path) (r : HttpResponse) : Step :=
  match content_length r with
  | NotAnInteger =>
      exception_step w u attempt (OtherError (lit "invalid literal for int()"))
  | cl =>
    let declared := match cl with Declared n => Some n | _ => None end in
    match should_download_file rt cfg u declared with
    | Raises => exception_step w u attempt (OtherError (lit "invalid URL"))
    | Ret false => Return w (failed u (lit "File filtered by configuration"))
    | Ret true =>
      if (400 <=? status r)%Z then
        if (status r =? 404)%Z && cmem (ch "?") u && (attempt =? 0)%Z
        then Delegate w (fst (split1 (ch "?") u))
        else if (status r =? 404)%Z && endswith (lit "/") u && (attempt =? 1)%Z
        then Delegate w (u ++ lit "index.html")
        else retry_or_fail w u attempt
               (lit "HTTP " ++ of_Z (status r) ++ lit ": " ++ reason r)
      else
        let big := match truthy declared with
                   | Some n => (100 * 1024 * 1024 <? n)%Z
                                && (get_available_memory <? 10 * n)%Z
                   | None => false
                   end in
        if big then
          Return w (failed u (lit "File too large for available memory: "
                              ++ of_Z (match declared with Some n => n | None => 0 end)
                              ++ lit " bytes"))
        else if match truthy declared with
                | Some n => negb (check_disk_space w n)
                | None => false
                end
        then Return w (failed u (lit "Insufficient disk space"))
        else
          let body := concat (chunks r) in
          let w := with_file w path body in
          let downloaded_size := size_of body in
          match stream_error r with
          | Some e => exception_step w u attempt e
          | None =>
            if (downloaded_size =? 0)%Z
            then retry_or_fail w u attempt (lit "Downloaded file is empty")
            else if match truthy declared with
                    | Some n => (1024 <? Z.abs (downloaded_size - n))%Z
                    | None => false
                    end
            then retry_or_fail w u attempt
                   (lit "Size mismatch: expected "
                    ++ of_Z (match declared with Some n => n | None => 0 end)
                    ++ lit ", got " ++ of_Z downloaded_size)
            else
              Return w {| url := u; success := true; local_path := Some path;
                          error := None; file_size := downloaded_size;
                          result_content_type := Some (content_type r) |}
          end
    end
  end.

(** One pass through the body of [for attempt in range(max_retries + 1)]. *)
Definition attempt_step (w : World) (u : str) (attempt : Z) : Step :=
  match url_to_local_path rt (target_url cfg) (fs_resolve env) u (output_dir cfg) with
  | Raises => exception_step w u attempt (OtherError (lit "invalid URL"))
  | Ret path =>
    match (if overwrite_existing cfg then None else lookup_file (files w) path) with
    | Some content =>
        if (0 <? size_of content)%Z
        then Return w {| url := u; success := true; local_path := Some path;
                         error := None; file_size := size_of content;
                         result_content_type := None |}
        else
          let n := request_count w u in
          let w := with_request w u in
          match server env u n with
          | Fails e => exception_step w u attempt e
          | Responds r => handle_response w u attempt path r
          end
    | None =>
        let n := request_count w u in
        let w := with_request w u in
        match server env u n with
        | Fails e => exception_step w u attempt e
        | Responds r => handle_response w u attempt path r
        end
    end
  end.

(** The retry loop, [remaining] passes left, with the recursive call of
    the 404 strategies passed in. *)
Fixpoint attempts (self : World -> str -> option (World * DownloadResult))
         (remaining : nat) (attempt : Z) (w : World) (u : str)
  : option (World * DownloadResult) :=
  match remaining with
  | O => Some (w, failed u (lit "Max retries exceeded"))
  | S remaining' =>
      match attempt_step w u attempt with
      | Return w' r => Some (w', r)
      | Continue w' => attempts self remaining' (attempt + 1) w' u
      | Delegate w' u' => self w' u'
      end
  end.

(** [_download_single_url]; [fuel] bounds the depth of the recursion and
    [None] means it ran out. *)
Fixpoint _download_single_url (fuel : nat) (w : World) (u : str)
  : option (World * DownloadResult) :=
  match fuel with
  | O => None
  | S fuel' =>
      attempts (_download_single_url fuel')
               (Z.to_nat (max_retries cfg + 1)) 0 w u
  end.


(** Recursion depth that always suffices (see [download_fuel_enough]). *)
Definition download_fuel : nat := 4.

(** [download_urls]: the batch, the manager's sets and statistics, and the
    result dictionary in insertion order. *)
Fixpoint download_each (w : World) (urls : list str)
  : option (World * list (str * DownloadResult)) :=
  match urls with
  | [] => Some (w, [])
  | u :: rest =>
      match _download_single_url download_fuel w u with
      | None => None
      | Some (w', r) =>
          match download_each w' rest with
          | None => None
          | Some (w'', rs) => Some (w'', (u, r) :: rs)
          end
      end
  end.

Definition record_result (m : Manager) (ur : str * DownloadResult) : Manager :=
  let '(u, r) := ur in
  if success r then
    {| downloaded_urls := set_add u (downloaded_urls m);
       failed_urls := failed_urls m;
       stats := add_success (stats m) (file_size r) |}
  else
    {| downloaded_urls := downloaded_urls m;
       failed_urls := set_add u (failed_urls m);
       stats := add_failure (stats m)
                  (u ++ lit ": " ++ match error r with
                                    | Some e => e
                                    | None => lit "None"
                                    end) |}.

Definition download_urls (m : Manager) (w : World) (urls : list str)
  : option (Manager * World * list (str * DownloadResult)) :=
  let m := {| downloaded_urls := downloaded_urls m;
              failed_urls := failed_urls m;
              stats := set_total (stats m) (Z.of_nat (List.length urls)) |} in
  let new_urls := set_diff (set_diff urls (downloaded_urls m)) (failed_urls m) in
  match new_urls with
  | [] => Some (m, w, [])
  | _ =>
      let estimated_total_size :=
        (Z.of_nat (List.length new_urls) * 1024 * 1024)%Z in
      if negb (check_disk_space w estimated_total_size) then Some (m, w, [])
      else
        match download_each w new_urls with
        | None => None
        | Some (w', download_results) =>
            Some (fold_left record_result download_results m, w',
                  download_results)
        end
  end.

(** [_read_file_with_encoding_detection] *)
Definition read_text (w : World) (p : Path) : option str :=
  match lookup_file (files w) p with
  | Some [] => None
  | Some c => decode env c
  | None => None
  end.

(** [download_and_parse_html] *)
Definition download_and_parse_html (w : World) (u : str)
  : option (World * option str * DownloadResult) :=
  match _download_single_url download_fuel w u with
  | None => None
  | Some (w', result) =>
      let content :=
        match success result, local_path result with
        | true, Some p => read_text w' p
        | _, _ => None
        end in
      Some (w', content, result)
  end.

End Manager.
End DownloadManager.

(* ------------------------------------------------------------------ *)
(** ** Facts about single downloads *)

Module DownloadFacts.
Import Urllib URLResolver Config DownloadManager.

Lemma split1_fst_no_sep :
  forall c s, cmem c (fst (split1 c s)) = false.
Proof.
  intros c s. induction s as [|x s IH]; [reflexivity|].
  simpl. destruct (N.eqb x c) eqn:E; [reflexivity|].
  destruct (split1 c s) as [h r]. simpl in *.
  rewrite N.eqb_sym, E. exact IH.
Qed.

Lemma cmem_app :
  forall c a b, cmem c (a ++ b) = cmem c a || cmem c b.
Proof. intros c a b. unfold cmem. apply existsb_app. Qed.

Lemma endswith_index_html :
  forall u, endswith (lit "/") (u ++ lit "index.html") = false.
Proof.
  intro u. unfold endswith. rewrite rev_app_distr. reflexivity.
Qed.

Section Facts.
Variable rt : Runtime.
Variable env : Env.
Variable cfg : SiteClonerConfig.

Lemma retry_or_fail_not_delegate :
  forall w u a msg w' u', retry_or_fail cfg w u a msg <> Delegate w' u'.
Proof.
  intros w u a msg w' u'. unfold retry_or_fail.
  destruct (a <? max_retries cfg)%Z; discriminate.
Qed.

Lemma exception_step_not_delegate :
  forall w u a e w' u', exception_step cfg w u a e <> Delegate w' u'.
Proof.
  intros w u a e w' u'. destruct e; apply retry_or_fail_not_delegate.
Qed.








(** *** A successful result points at a non-empty file *)











End Facts.
End DownloadFacts.

(* ------------------------------------------------------------------ *)
(** ** A test bench: a file system without links and scripted servers *)

Module Bench.
Import Urllib URLResolver Config DownloadManager.

Definition cwd : list str := [lit "work"].
Definition out : Path := of_str (lit "cloned_site").
Definition site : str := lit "https://ex.test/".
Definition cfg : SiteClonerConfig := Config.default site out.

Definition env_of (srv : str -> nat -> Reply) : Env :=
  {| server := srv;
     disk_free := fun _ => Some (50 * 1024 * 1024 * 1024)%Z;
     available_memory := Some (8 * 1024 * 1024 * 1024)%Z;
     fs_resolve := lexical cwd;
     decode := fun bytes => Some bytes;
     encode := fun text => text |}.

Definition empty_world : World := {| files := []; requests := [] |}.

Definition ok (ctype : str) (len : ContentLength) (body : list N) : Reply :=
  Responds {| status := 200; reason := lit "OK"; content_length := len;
              content_type := ctype; chunks := [body]; stream_error := None |}.

Definition http_error (code : Z) (why : str) : Reply :=
  Responds {| status := code; reason := why; content_length := Absent;
              content_type := lit "text/html"; chunks := [];
              stream_error := None |}.

End Bench.

(* ------------------------------------------------------------------ *)
(** ** Containment on a file system with a hostile link *)

Module Links.
Import Urllib URLResolver LocalPath Bench.

Definition root_dir : Path := of_str (lit "/srv/out").

(** The directory [/srv/out/evil.test] is a symbolic link to [/etc]. *)
Definition linked (p : Path) : option Path :=
  match lexical [] p with
  | Some q =>
      match strip_prefix [lit "srv"; lit "out"; lit "evil.test"] (parts q) with
      | Some rest => Some {| root := true; parts := lit "etc" :: rest |}
      | None => Some q
      end
  | None => None
  end.

Definition evil : str := lit "http://evil.test/passwd".

(** The path built for [evil] resolves to [/etc/passwd/index.html], the
    verification turns it down, and the fallback name is returned. *)
Example hostile_link_falls_back :
  option_map to_str
    (linked (of_str (lit "/srv/out/evil.test/passwd/index.html")))
  = Some (lit "/etc/passwd/index.html")
  /\ match url_to_local_path Ascii.rt site linked evil root_dir with
     | Ret p => startswith (lit "/srv/out/safe_file_") (to_str p)
                && endswith (lit ".html") (to_str p)
                && (List.length (parts p) =? 3)%nat
     | Raises => false
     end = true.
Proof.
  split; vm_compute; reflexivity.
Qed.


End Links.

(* ------------------------------------------------------------------ *)
(** ** Integrity of a successful fetch *)

Module Integrity.
Import Urllib URLResolver Config DownloadManager Bench.

(** A script served gzip-compressed: the header declares the 100
    compressed bytes, the decoded stream has 5000. *)
Definition app_js : str := lit "https://ex.test/app.js".
Definition compressed : Reply :=
  ok (lit "application/javascript") (Declared 100) (repeat 97%N 5000).
Definition env : Env :=
  env_of (fun u _ => if eqb u app_js then compressed
                     else http_error 404 (lit "Not Found")).

(** What a caller and the disk show after a fetch: the requests made, the
    result's flag, size and error, its path as text, and the size of the
    file at that path. *)
Definition observe (o : option (World * DownloadResult))
  : option (list str * bool * Z * option str * option str * option Z) :=
  match o with
  | Some (w', r) =>
      Some (requests w', success r, file_size r, error r,
            option_map to_str (local_path r),
            match local_path r with
            | Some p => option_map size_of (lookup_file (files w') p)
            | None => None
            end)
  | None => None
  end.

(** C5 at the failing input.  The first attempt writes 5000 bytes, sees
    the mismatch with the declared 100 and asks for a retry; the second
    attempt finds the file of the first one on disk and returns success
    without a request.  One request was made, its declared length
    differs from the bytes on disk by 4900, and the fetch reports
    success. *)
Lemma size_mismatch_reported_success :
  observe (_download_single_url Ascii.rt env cfg download_fuel
             empty_world app_js)
  = Some ([app_js], true, 5000%Z, None,
          Some (lit "cloned_site/ex.test/app.js"), Some 5000%Z)
  /\ server env app_js 0 = compressed
  /\ (1024 < Z.abs (5000 - 100))%Z.
Proof.
  repeat split; vm_compute; reflexivity.
Qed.

End Integrity.

(* ------------------------------------------------------------------ *)
(** ** HTTP error statuses *)

Module HttpErrors.
Import Urllib URLResolver Config DownloadManager Bench DownloadFacts.

Section Retries.
Variable rt : Runtime.
Variable env : Env.
Variable cfg : SiteClonerConfig.








End Retries.




End HttpErrors.

(* ------------------------------------------------------------------ *)
(** ** The disk-space check before a batch *)

Module DiskGuard.
Import Urllib URLResolver Config DownloadManager Bench.

Section Precheck.
Variable rt : Runtime.
Variable env : Env.
Variable cfg : SiteClonerConfig.

(** The URLs of a batch that are neither downloaded nor failed yet. *)
Definition net_new (m : Manager) (urls : list str) : list str :=
  set_diff (set_diff urls (downloaded_urls m)) (failed_urls m).

(** C10.  When the free space is not more than 1.2 times one mebibyte per
    net-new URL, [download_urls] returns the empty dictionary: no request
    is made and no file written (the world is unchanged), neither URL set
    of the manager changes, and of the statistics only [total_files],
    which is set on entry to the size of the batch, is touched - no
    success, failure or error entry is added. *)
Theorem insufficient_disk_skips_batch :
  forall (m : Manager) (w : World) (urls : list str) (free : Z),
    disk_free env w = Some free ->
    (5 * free <= 6 * (Z.of_nat (List.length (net_new m urls)) * 1024 * 1024))%Z ->
    exists m',
      download_urls rt env cfg m w urls = Some (m', w, [])
      /\ downloaded_urls m' = downloaded_urls m
      /\ failed_urls m' = failed_urls m
      /\ stats m' = set_total (stats m) (Z.of_nat (List.length urls)).
Proof.
  intros m w urls free Hfree Hle.
  unfold download_urls. cbn [downloaded_urls failed_urls].
  fold (net_new m urls). destruct (net_new m urls) as [|u new] eqn:En.
  - eexists. split; [reflexivity|]. repeat split.
  - unfold check_disk_space. rewrite Hfree.
    replace (6 * (Z.of_nat (List.length (u :: new)) * 1024 * 1024)
             <? 5 * free)%Z with false
      by (symmetry; apply Z.ltb_ge; exact Hle).
    cbn [negb]. eexists. split; [reflexivity|]. repeat split.
Qed.

End Precheck.

(** Witness: two new URLs and one mebibyte free. *)
Definition full_disk : Env :=
  {| server := fun _ _ => http_error 500 (lit "unreachable");
     disk_free := fun _ => Some (1024 * 1024)%Z;
     available_memory := None;
     fs_resolve := lexical cwd;
     decode := fun bytes => Some bytes;
     encode := fun text => text |}.

Lemma insufficient_disk_skips_batch_witness :
  exists m',
    download_urls Ascii.rt full_disk cfg new_manager empty_world
      [lit "https://ex.test/a.css"; lit "https://ex.test/b.png"]
    = Some (m', empty_world, [])
    /\ downloaded_urls m' = []
    /\ failed_urls m' = []
    /\ stats m' = set_total (stats new_manager) 2.
Proof.
  apply (@insufficient_disk_skips_batch Ascii.rt full_disk cfg new_manager
           empty_world
           [lit "https://ex.test/a.css"; lit "https://ex.test/b.png"]
           (1024 * 1024)%Z).
  - reflexivity.
  - vm_compute. discriminate.
Defined.

End DiskGuard.

(* ------------------------------------------------------------------ *)
(** ** url_rewriter.py: stylesheets *)

Module URLRewriter.
Import Urllib URLResolver Config DownloadManager.

Section Rewriter.
Variable rt : Runtime.
Variable env : Env.
(** [self.url_resolver.base_url] *)
Variable base_url : str.
(** [self.url_mapping], a dict in insertion order. *)
Variable url_mapping : list (str * str).

Fixpoint mapping_get (m : list (str * str)) (k : str) : option str :=
  match m with
  | [] => None
  | (k', v) :: m' => if eqb k k' then Some v else mapping_get m' k
  end.

(** [_calculate_relative_path] *)
Definition _calculate_relative_path (from_dir to_path : Path) : str :=
  let levels_up := List.length (parts from_dir) in
  let target := replace [92%N] (lit "/") (to_str to_path) in
  concat (repeat (lit "../") levels_up) ++ target.

(** [_rewrite_single_url] *)
Definition _rewrite_single_url (u : str) (current_page_dir : Path) : py str :=
  if is_empty u || startswith (lit "#") u || startswith (lit "data:") u
     || startswith (lit "javascript:") u
  then Ret u
  else
    resolved_url <-! resolve_url rt base_url u None ;;
    match resolved_url with
    | Some resolved =>
        match mapping_get url_mapping resolved with
        | Some local_path =>
            (* current_page_dir == Path('.') *)
            if negb (root current_page_dir)
               && negb (nonempty (parts current_page_dir))
            then Ret local_path
            else Ret (_calculate_relative_path current_page_dir
                        (of_str local_path))
        | None => Ret u
        end
    | None => Ret u
    end.

(** *** The pattern of [_rewrite_css_content]

    [url \s* \( \s* Q? ( G+ ) Q? \s* \)] with IGNORECASE, where [Q] is
    either quote character and [G] any character but a quote or a closing
    parenthesis.  The matcher tries the alternatives of each quantifier
    in the order the backtracking engine of [re] does: longest first. *)

Definition is_quote (c : char) : bool := N.eqb c 34 || N.eqb c 39.
Definition is_stop (c : char) : bool := is_quote c || N.eqb c (ch ")").

Fixpoint first_some {A B : Type} (f : A -> option B) (l : list A) : option B :=
  match l with
  | [] => None
  | x :: l' => match f x with Some y => Some y | None => first_some f l' end
  end.

(** [\s*]: what is left after each possible run of white space. *)
Fixpoint space_runs (s : str) : list str :=
  match s with
  | c :: s' => if isspace rt c then space_runs s' ++ [s] else [s]
  | [] => [[]]
  end.

(** [Q?] *)
Definition opt_quote (s : str) : list str :=
  match s with
  | c :: s' => if is_quote c then [s'; s] else [s]
  | [] => [[]]
  end.

(** [(G+)]: each possible group with what follows it. *)
Fixpoint group_runs (s : str) : list (str * str) :=
  match s with
  | c :: s' =>
      if is_stop c then []
      else map (fun gr => (c :: fst gr, snd gr)) (group_runs s') ++ [([c], s')]
  | [] => []
  end.

Definition close_paren (s : str) : option str :=
  match s with
  | c :: rest => if N.eqb c (ch ")") then Some rest else None
  | [] => None
  end.

Definition match_after_url (s : str) : option (str * str) :=
  first_some (fun s1 =>
    match s1 with
    | c :: s2 =>
        if N.eqb c (ch "(") then
          first_some (fun s3 =>
            first_some (fun s4 =>
              first_some (fun gr =>
                first_some (fun s6 =>
                  first_some (fun s7 =>
                    match close_paren s7 with
                    | Some rest => Some (fst gr, rest)
                    | None => None
                    end) (space_runs s6))
                  (opt_quote (snd gr)))
                (group_runs s4))
              (opt_quote s3))
            (space_runs s2)
        else None
    | [] => None
    end) (space_runs s).

Definition same_letter (c lower_case : char) : bool :=
  N.eqb c lower_case || N.eqb c (lower_case - 32)%N.

(** A match starting at the head of [s]: group 0, group 1, the rest. *)
Definition match_url (s : str) : option (str * str * str) :=
  match s with
  | u :: r :: l :: s' =>
      if same_letter u (ch "u") && same_letter r (ch "r") && same_letter l (ch "l")
      then match match_after_url s' with
           | Some (g1, rest) =>
               Some (firstn (List.length s - List.length rest) s, g1, rest)
           | None => None
           end
      else None
  | _ => None
  end.

(** [replace_url], the replacement function. *)
Definition replace_url (group0 group1 : str) (current_page_dir : Path) : py str :=
  let original_url := strip is_quote group1 in
  new_url <-! _rewrite_single_url original_url current_page_dir ;;
  if startswith (lit "url(" ++ [34%N]) group0
  then Ret (lit "url(" ++ [34%N] ++ new_url ++ [34%N] ++ lit ")")
  else if startswith (lit "url('") group0
  then Ret (lit "url('" ++ new_url ++ lit "')")
  else Ret (lit "url(" ++ new_url ++ lit ")").

(** [re.sub(url_pattern, replace_url, css_content)]; [skip] counts the
    characters of the current match still to pass over. *)
Fixpoint sub_urls (current_page_dir : Path) (skip : nat) (s : str) : py str :=
  match s with
  | [] => Ret []
  | c :: s' =>
      match skip with
      | S k => sub_urls current_page_dir k s'
      | O =>
          match match_url s with
          | Some (group0, group1, _) =>
              r <-! replace_url group0 group1 current_page_dir ;;
              t <-! sub_urls current_page_dir (List.length group0 - 1) s' ;;
              Ret (r ++ t)
          | None =>
              t <-! sub_urls current_page_dir 0 s' ;;
              Ret (c :: t)
          end
      end
  end.

Definition _rewrite_css_content (css_content : str) (current_page_dir : Path)
  : py str :=
  sub_urls current_page_dir 0 css_content.

(** [rewrite_css_file]: the world afterwards and the returned flag;
    [Raises] is an exception the thread-safe wrapper turns into [False]. *)
Definition rewrite_css_file (w : World) (css_path output_dir : Path)
  : py (World * bool) :=
  match lookup_file (files w) css_path with
  | None => Ret (w, false)
  | Some bytes =>
      match decode env bytes with
      | None => Ret (w, false)
      | Some content =>
          match relative_to css_path output_dir with
          | None => Raises
          | Some current_css_relative =>
              let current_css_dir := parent current_css_relative in
              new_content <-! _rewrite_css_content content current_css_dir ;;
              if negb (eqb new_content content)
              then Ret (with_file w css_path (encode env new_content), true)
              else Ret (w, false)
          end
      end
  end.

End Rewriter.
End URLRewriter.

(* ------------------------------------------------------------------ *)
(** ** Rewriting when nothing is mapped *)

Module RewriteNoop.
Import Urllib URLResolver Config DownloadManager URLRewriter Bench.

Definition style_path : Path := of_str (lit "cloned_site/ex.test/style.css").
Definition style_before : str := lit "body{background:url( 'bg.png' )}".
Definition style_after : str := lit "body{background:url(bg.png)}".
Definition saved : World :=
  {| files := [(style_path, style_before)]; requests := [] |}.
Definition mapping : list (str * str) := [(site, lit "index.html")].
Definition quiet : Env := env_of (fun _ _ => http_error 404 (lit "Not Found")).

(** C9 at the failing input.  The only reference of the stylesheet,
    [bg.png], is not in the mapping and [_rewrite_single_url] returns it
    unchanged; the replacement function nevertheless rebuilds the
    [url(...)] token without its inner spaces and quotes, so the new
    content differs, the file is written and the call returns [True]. *)
Lemma unmapped_stylesheet_is_rewritten :
  _rewrite_single_url Ascii.rt site mapping (lit "bg.png")
    (parent (of_str (lit "ex.test/style.css")))
  = Ret (lit "bg.png")
  /\ rewrite_css_file Ascii.rt quiet site mapping saved style_path out
     = Ret ({| files := [(style_path, style_after)]; requests := [] |}, true)
  /\ style_after <> style_before.
Proof.
  repeat split; try (vm_compute; reflexivity).
  vm_compute. discriminate.
Qed.

End RewriteNoop.

(* ------------------------------------------------------------------ *)
(** ** sitecloner.py *)

Module SiteCloner.
Import Urllib URLResolver Config DownloadManager.

(** A dict of asset kinds to sets of URLs, as the discoverer returns it. *)
Definition Assets := list (str * list str).

(** The collaborators of the controller that the model does not open:
    the reference extractor on markup and on stylesheets ([Raises] when
    the call raises), and the phases after acquisition (rewriting,
    metadata, index file), which only write files. *)
Record Collaborators : Type := {
  discover_assets_in_html : str -> str -> py Assets;
  discover_assets_in_css : str -> str -> py Assets;
  finish : list (str * str) -> World -> py World
}.

Record Cloner : Type := {
  discovered_urls : list str;
  download_results : list (str * DownloadResult);
  url_mapping : list (str * str);
  manager : Manager;
  world : World
}.

Fixpoint dict_get {V : Type} (d : list (str * V)) (k : str) : option V :=
  match d with
  | [] => None
  | (k', v) :: d' => if eqb k k' then Some v else dict_get d' k
  end.

(** [d[k] = v]: an existing key keeps its place. *)
Fixpoint dict_set {V : Type} (d : list (str * V)) (k : str) (v : V)
  : list (str * V) :=
  match d with
  | [] => [(k, v)]
  | (k', v') :: d' =>
      if eqb k k' then (k', v) :: d' else (k', v') :: dict_set d' k v
  end.

Definition dict_keys {V : Type} (d : list (str * V)) : list str := map fst d.

(** [s.update(t)] *)
Definition set_update (s t : list str) : list str :=
  fold_left (fun acc x => set_add x acc) t s.

(** All URLs of an asset dict: the loop [new_assets.update(urls)]. *)
Definition all_urls (assets : Assets) (acc : list str) : list str :=
  fold_left (fun acc kv => set_update acc (snd kv)) assets acc.

(** *** [_has_css_import_cycle]

    [visited] and [path] are shared by all recursive calls, so each call
    returns them as it leaves them.  [fuel] bounds the recursion depth. *)

Definition Dfs := list str -> list str -> str -> option (bool * list str * list str).

Fixpoint cycle_among (self : Dfs) (imports : list str) (visited path : list str)
  : option (bool * list str * list str) :=
  match imports with
  | [] => Some (false, visited, path)
  | imported_url :: rest =>
      match self visited path imported_url with
      | None => None
      | Some (true, visited', path') => Some (true, visited', path')
      | Some (false, visited', path') => cycle_among self rest visited' path'
      end
  end.

Fixpoint _has_css_import_cycle (fuel : nat) (import_graph : list (str * list str))
         (visited path : list str) (start_url : str)
  : option (bool * list str * list str) :=
  match fuel with
  | O => None
  | S fuel' =>
      if mem start_url path then Some (true, visited, path)
      else if mem start_url visited then Some (false, visited, path)
      else
        let visited := set_add start_url visited in
        let path := set_add start_url path in
        let imports := match dict_get import_graph start_url with
                       | Some s => s
                       | None => []
                       end in
        match cycle_among (_has_css_import_cycle fuel' import_graph)
                          imports visited path with
        | None => None
        | Some (true, visited', path') => Some (true, visited', path')
        | Some (false, visited', path') =>
            Some (false, visited', set_remove start_url path')
        end
  end.

(** Every URL the graph mentions. *)
Definition graph_nodes (g : list (str * list str)) : list str :=
  dict_keys g ++ concat (map snd g).

Definition cycle_fuel (g : list (str * list str)) : nat :=
  S (List.length (graph_nodes g)).


Definition with_max_retries (cfg : SiteClonerConfig) (n : Z) : SiteClonerConfig :=
  {| target_url := target_url cfg;
     output_dir := output_dir cfg;
     allowed_domains := allowed_domains cfg;
     blocked_domains := blocked_domains cfg;
     allowed_extensions := allowed_extensions cfg;
     blocked_extensions := blocked_extensions cfg;
     max_file_size := max_file_size cfg;
     max_concurrent_downloads := max_concurrent_downloads cfg;
     max_retries := n;
     overwrite_existing := overwrite_existing cfg;
     save_metadata := save_metadata cfg;
     create_index_file := create_index_file cfg |}.

(** The local state of [_process_css_files_recursively]. *)
Record Closure : Type := {
  processed_css_files : list str;
  css_import_graph : list (str * list str);
  css_depth_tracker : list (str * Z)
}.

Definition empty_closure : Closure :=
  {| processed_css_files := []; css_import_graph := [];
     css_depth_tracker := [] |}.

(** Why the closure loop stopped. *)
Inductive Exit : Type :=
| NoStylesheets      (* if not css_files_to_process: break *)
| NoNewAssets        (* if not truly_new_assets: break *)
| IterationLimit.    (* the loop condition failed *)

(** How [clone_site] ends. *)
Inductive Outcome : Type :=
| Cloned (c : Cloner)            (* return True *)
| MainPageFailed (c : Cloner)    (* return False, phase 1 *)
| PhaseRaised.                   (* except Exception: return False *)

Definition returns (o : Outcome) : bool :=
  match o with Cloned _ => true | _ => false end.

Definition max_iterations : Z := 10.
Definition max_total_css_files : nat := 500.
Definition max_css_depth : Z := 8.

Section Controller.
Variable rt : Runtime.
Variable env : Env.
Variable cfg : SiteClonerConfig.
Variable ext : Collaborators.

(** [URLRewriter.add_url_mapping] *)
Definition add_url_mapping (m : list (str * str)) (original_url : str)
           (local : Path) : list (str * str) :=
  match relative_to local (output_dir cfg) with
  | Some rel => dict_set m original_url (replace [92%N] (lit "/") (to_str rel))
  | None => dict_set m original_url (name local)
  end.

(** The loop that follows every [download_urls] call: map what succeeded,
    record every result. *)
Definition record_one (c : Cloner) (ur : str * DownloadResult) : Cloner :=
  let '(u, r) := ur in
  {| discovered_urls := discovered_urls c;
     download_results := dict_set (download_results c) u r;
     url_mapping :=
       match success r, local_path r with
       | true, Some p => add_url_mapping (url_mapping c) u p
       | _, _ => url_mapping c
       end;
     manager := manager c;
     world := world c |}.

Definition record_results (c : Cloner) (rs : list (str * DownloadResult)) : Cloner :=
  fold_left record_one rs c.

Definition with_discovered (c : Cloner) (d : list str) : Cloner :=
  {| discovered_urls := d; download_results := download_results c;
     url_mapping := url_mapping c; manager := manager c; world := world c |}.

Definition with_manager_world (c : Cloner) (m : Manager) (w : World) : Cloner :=
  {| discovered_urls := discovered_urls c;
     download_results := download_results c;
     url_mapping := url_mapping c; manager := m; world := w |}.

(** [download_urls] from the controller, followed by the recording loop. *)
Definition fetch (c : Cloner) (urls : list str) : option Cloner :=
  match download_urls rt env cfg (manager c) (world c) urls with
  | None => None
  | Some (m, w, rs) => Some (record_results (with_manager_world c m w) rs)
  end.

(** The test that selects a downloaded stylesheet, up to the membership
    in the processed set. *)
Definition css_candidate (u : str) (r : DownloadResult) : py (option Path) :=
  match success r, local_path r with
  | true, Some p =>
      sp <-! should_process_for_assets rt u ;;
      if sp && (endswith (lit ".css") u || contains (lit ".css") u)
      then Ret (Some p) else Ret None
  | _, _ => Ret None
  end.

(** Reading a stylesheet with [open(..., encoding='utf-8')]. *)
Definition read_utf8 (w : World) (p : Path) : option str :=
  match lookup_file (files w) p with
  | Some bytes => decode env bytes
  | None => None
  end.

(** [_process_css_files], the per-batch variant. *)
Fixpoint batch_css_files (rs : list (str * DownloadResult))
  : py (list (str * Path)) :=
  match rs with
  | [] => Ret []
  | (u, r) :: rest =>
      cand <-! css_candidate u r ;;
      tl <-! batch_css_files rest ;;
      match cand with
      | Some p => Ret ((u, p) :: tl)
      | None => Ret tl
      end
  end.

Definition _process_css_files (c : Cloner) (rs : list (str * DownloadResult))
  : py Cloner :=
  css_files <-! batch_css_files rs ;;
  let new_assets :=
    fold_left
      (fun acc up =>
         match read_utf8 (world c) (snd up) with
         | Some css_content =>
             match discover_assets_in_css ext css_content (fst up) with
             | Ret css_assets => all_urls css_assets acc
             | Raises => acc
             end
         | None => acc
         end) css_files [] in
  let truly_new_assets :=
    set_diff (set_diff new_assets (discovered_urls c))
             (dict_keys (download_results c)) in
  Ret (with_discovered c (set_update (discovered_urls c) truly_new_assets)).

(** *** The closure loop *)

(** The first loop of an iteration: the stylesheets to process. *)
Fixpoint collect_css (rs : list (str * DownloadResult)) (processed : list str)
         (acc : list (str * Path)) : py (list (str * Path)) :=
  match rs with
  | [] => Ret acc
  | (u, r) :: rest =>
      cand <-! css_candidate u r ;;
      match cand with
      | Some p =>
          if mem u processed then collect_css rest processed acc
          else if (max_total_css_files <=? List.length processed)%nat
          then Ret acc                                   (* break *)
          else collect_css rest processed (dict_set acc u p)
      | None => collect_css rest processed acc
      end
  end.

(** The depth loop over the imports of one stylesheet. *)
Definition track_depths (tracker : list (str * Z)) (current_depth : Z)
           (imported : list str) : list (str * Z) :=
  fold_left
    (fun t imported_url =>
       let new_depth := (current_depth + 1)%Z in
       if (max_css_depth <? new_depth)%Z then t       (* continue *)
       else dict_set t imported_url new_depth)
    imported tracker.

Definition depth_of (tracker : list (str * Z)) (u : str) : Z :=
  match dict_get tracker u with Some d => d | None => 0%Z end.

(** One pass of the second loop: a stylesheet is marked, read and mined.
    [None] only if the cycle check ran out of fuel. *)
Definition process_css (w : World) (st : Closure * list str)
           (css : str * Path) : option (Closure * list str) :=
  let '(cl, new_assets) := st in
  let '(css_url, css_path) := css in
  let processed := set_add css_url (processed_css_files cl) in
  let skip :=
    Some ({| processed_css_files := processed;
             css_import_graph := css_import_graph cl;
             css_depth_tracker := css_depth_tracker cl |}, new_assets) in
  match lookup_file (files w) css_path with
  | None => skip                                  (* stat() raises *)
  | Some bytes =>
      if (10 * 1024 * 1024 <? size_of bytes)%Z then skip
      else
        match read_text env w css_path with
        | None | Some [] => skip                  (* if not css_content *)
        | Some css_content =>
            match discover_assets_in_css ext css_content css_url with
            | Raises => skip
            | Ret css_assets =>
                match dict_get css_assets (lit "css") with
                | Some imported_css_urls =>
                    let graph :=
                      dict_set (css_import_graph cl) css_url imported_css_urls in
                    match _has_css_import_cycle (cycle_fuel graph) graph [] []
                                                css_url with
                    | None => None
                    | Some (true, _, _) =>
                        Some ({| processed_css_files := processed;
                                 css_import_graph := graph;
                                 css_depth_tracker := css_depth_tracker cl |},
                              new_assets)
                    | Some (false, _, _) =>
                        let current_depth :=
                          depth_of (css_depth_tracker cl) css_url in
                        Some ({| processed_css_files := processed;
                                 css_import_graph := graph;
                                 css_depth_tracker :=
                                   track_depths (css_depth_tracker cl)
                                     current_depth imported_css_urls |},
                              all_urls css_assets new_assets)
                    end
                | None =>
                    Some ({| processed_css_files := processed;
                             css_import_graph := css_import_graph cl;
                             css_depth_tracker := css_depth_tracker cl |},
                          all_urls css_assets new_assets)
                end
            end
        end
  end.

Fixpoint process_all (w : World) (st : Closure * list str)
         (css_files : list (str * Path)) : option (Closure * list str) :=
  match css_files with
  | [] => Some st
  | css :: rest =>
      match process_css w st css with
      | None => None
      | Some st' => process_all w st' rest
      end
  end.

(** The filter after the second loop. *)
Definition already_discovered (rs : list (str * DownloadResult)) (u : str) : bool :=
  match dict_get rs u with
  | Some r => success r
  | None => false
  end.

Definition depth_limited (rs : list (str * DownloadResult))
           (tracker : list (str * Z)) (u : str) : bool :=
  negb (already_discovered rs u)
  && endswith (lit ".css") u
  && (max_css_depth <? depth_of tracker u)%Z.

Definition truly_new (rs : list (str * DownloadResult))
           (tracker : list (str * Z)) (new_assets : list str) : list str :=
  set_diff (set_diff new_assets (filter (already_discovered rs) new_assets))
           (filter (depth_limited rs tracker) new_assets).

(** The body of the [while] loop.  [Some exit] is a [break]. *)
Definition closure_iteration (c : Cloner) (cl : Closure)
  : option (py (Cloner * Closure * option Exit)) :=
  match collect_css (download_results c) (processed_css_files cl) [] with
  | Raises => Some Raises
  | Ret [] => Some (Ret (c, cl, Some NoStylesheets))
  | Ret css_files_to_process =>
      match process_all (world c) (cl, []) css_files_to_process with
      | None => None
      | Some (cl', new_assets) =>
          match truly_new (download_results c) (css_depth_tracker cl')
                          new_assets with
          | [] => Some (Ret (c, cl', Some NoNewAssets))
          | truly_new_assets =>
              let c :=
                with_discovered c
                  (set_update (discovered_urls c) truly_new_assets) in
              match fetch c truly_new_assets with
              | None => None
              | Some c' => Some (Ret (c', cl', None))
              end
          end
      end
  end.

(** [while iteration < max_iterations]; [fuel] bounds the number of
    passes and [None] means it ran out. *)
Fixpoint closure_loop (fuel : nat) (iteration : Z) (c : Cloner) (cl : Closure)
  : option (py (Cloner * Closure * Z * Exit)) :=
  match fuel with
  | O => None
  | S fuel' =>
      if (iteration <? max_iterations)%Z then
        let iteration := (iteration + 1)%Z in
        match closure_iteration c cl with
        | None => None
        | Some Raises => Some Raises
        | Some (Ret (c', cl', Some e)) => Some (Ret (c', cl', iteration, e))
        | Some (Ret (c', cl', None)) => closure_loop fuel' iteration c' cl'
        end
      else Some (Ret (c, cl, iteration, IterationLimit))
  end.

Definition closure_fuel : nat := 11.

Definition _process_css_files_recursively (c : Cloner)
  : option (py (Cloner * Closure * Z * Exit)) :=
  closure_loop closure_fuel 0 c empty_closure.

(** *** [DownloadManager.retry_failed_downloads]

    Each outer pass calls [download_urls] with [max_retries] raised for
    the call, then restores it. *)

Definition failed_of (rs : list (str * DownloadResult)) : list str :=
  map fst (filter (fun ur => negb (success (snd ur))) rs).

Definition after_retry (c : Cloner) (ur : str * DownloadResult) : Cloner :=
  let '(u, r) := ur in
  {| discovered_urls := discovered_urls c;
     download_results := dict_set (download_results c) u r;
     url_mapping := url_mapping c;
     manager :=
       if success r then
         {| downloaded_urls := set_add u (downloaded_urls (manager c));
            failed_urls := set_remove u (failed_urls (manager c));
            stats := stats (manager c) |}
       else manager c;
     world := world c |}.

Fixpoint retry_failed_downloads (passes : nat) (attempt : Z) (c : Cloner)
         (retry_results : list (str * DownloadResult))
  : option (Cloner * list (str * DownloadResult)) :=
  match passes with
  | O => Some (c, retry_results)
  | S passes' =>
      match failed_of (download_results c) with
      | [] => Some (c, retry_results)                       (* break *)
      | failed_urls =>
          let relaxed :=
            with_max_retries cfg (Z.min 5 (max_retries cfg + attempt)) in
          match download_urls rt env relaxed (manager c) (world c)
                              failed_urls with
          | None => None
          | Some (m, w, batch) =>
              let retry_results :=
                fold_left (fun d ur => dict_set d (fst ur) (snd ur))
                          batch retry_results in
              let c := fold_left after_retry batch (with_manager_world c m w) in
              retry_failed_downloads passes' (attempt + 1) c retry_results
          end
      end
  end.

(** *** Classifying what failed *)

Definition non_essential_domains : list str :=
  [ lit "twitter.com"; lit "facebook.com"; lit "linkedin.com";
    lit "instagram.com"; lit "youtube.com"; lit "google-analytics.com";
    lit "googletagmanager.com"; lit "doubleclick.net";
    lit "googlesyndication.com"; lit "hs-scripts.com"; lit "hubspot.com";
    lit "mixpanel.com"; lit "segment.com" ].

Definition non_essential_patterns : list str :=
  [ lit "xmlrpc.php"; lit "wp-json"; lit "wp-admin"; lit "wp-login";
    lit "analytics"; lit "tracking"; lit "gtag"; lit "facebook.com";
    lit "twitter.com"; lit "linkedin.com" ].

Definition non_essential_errors : list str :=
  [ lit "File filtered by configuration"; lit "HTTP 403"; lit "HTTP 401" ].

Definition _is_essential_for_rendering (u : str) (err : str) : bool :=
  let url_lower := lower rt u in
  if existsb (fun domain => contains domain url_lower) non_essential_domains
  then false
  else if existsb (fun pattern => contains pattern url_lower)
                  non_essential_patterns
  then false
  else if existsb (fun error_pattern => contains error_pattern err)
                  non_essential_errors
  then false
  else true.

(** [result.error or ""] *)
Definition error_text (r : DownloadResult) : str :=
  match error r with Some e => e | None => [] end.

Definition essential_failed (c : Cloner) : list str :=
  map fst
      (filter (fun ur => negb (success (snd ur))
                         && _is_essential_for_rendering (fst ur)
                                                        (error_text (snd ur)))
              (download_results c)).

Definition missing_files (c : Cloner) : list str :=
  map fst
      (filter (fun ur =>
                 match success (snd ur), local_path (snd ur) with
                 | true, Some p =>
                     match lookup_file (files (world c)) p with
                     | None => true
                     | Some bytes => (size_of bytes =? 0)%Z
                     end
                 | _, _ => false
                 end)
              (download_results c)).

(** [_verify_downloads] *)
Definition _verify_downloads (c : Cloner) : bool :=
  let missing_urls :=
    set_diff (discovered_urls c) (dict_keys (download_results c)) in
  let essential_issues :=
    set_update (set_update missing_urls (essential_failed c)) (missing_files c) in
  negb (nonempty essential_issues).

(** *** [clone_site] *)

(** [asset_urls[i:i + batch_size]] for [i] in [range(0, len, batch_size)] *)
Fixpoint batches (fuel size : nat) (l : list str) : list (list str) :=
  match fuel, l with
  | _, [] => []
  | O, _ => []
  | S fuel', _ => firstn size l :: batches fuel' size (skipn size l)
  end.

(** The body of phase 2 for one batch. *)
Definition download_batch (c : Cloner) (batch : list str) : option (py Cloner) :=
  match download_urls rt env cfg (manager c) (world c) batch with
  | None => None
  | Some (m, w, batch_results) =>
      let c := record_results (with_manager_world c m w) batch_results in
      match _process_css_files c batch_results with
      | Raises => Some Raises
      | Ret c =>
          let new_assets_to_download :=
            set_diff (discovered_urls c) (dict_keys (download_results c)) in
          match new_assets_to_download with
          | [] => Some (Ret c)
          | _ =>
              match fetch c new_assets_to_download with
              | None => None
              | Some c' => Some (Ret c')
              end
          end
      end
  end.

Fixpoint download_batches (c : Cloner) (bs : list (list str))
  : option (py Cloner) :=
  match bs with
  | [] => Some (Ret c)
  | b :: bs' =>
      match download_batch c b with
      | None => None
      | Some Raises => Some Raises
      | Some (Ret c') => download_batches c' bs'
      end
  end.

(** Phase 2. *)
Definition download_discovered (c : Cloner) : option (py Cloner) :=
  match discovered_urls c with
  | [] => Some (Ret c)
  | asset_urls =>
      let batch_size := Z.min (max_concurrent_downloads cfg * 2) 50 in
      if (batch_size =? 0)%Z then Some Raises      (* range() arg 3 is zero *)
      else if (batch_size <? 0)%Z then Some (Ret c)
      else download_batches c
             (batches (List.length asset_urls) (Z.to_nat batch_size) asset_urls)
  end.

(** Everything after the main page has been fetched: the body of the
    [try] block from asset discovery on.  [Some Raises] is an exception
    caught by [except Exception]. *)
Definition acquire_and_finish (c : Cloner) (main_page_content : option str)
  : option (py Cloner) :=
  match (match main_page_content with
         | Some (ch0 :: content) =>
             main_assets <-!
               discover_assets_in_html ext (ch0 :: content) (target_url cfg) ;;
             Ret (with_discovered c
                    (set_update (discovered_urls c) (all_urls main_assets [])))
         | _ => Ret c
         end) with
  | Raises => Some Raises
  | Ret c =>
      match download_discovered c with
      | None => None
      | Some Raises => Some Raises
      | Some (Ret c) =>
          match _process_css_files_recursively c with
          | None => None
          | Some Raises => Some Raises
          | Some (Ret (c, _, _, _)) =>
              match retry_failed_downloads 5 0 c [] with
              | None => None
              | Some (c, retry_results) =>
                  let c :=
                    fold_left
                      (fun c ur =>
                         {| discovered_urls := discovered_urls c;
                            download_results := download_results c;
                            url_mapping :=
                              match success (snd ur), local_path (snd ur) with
                              | true, Some p =>
                                  add_url_mapping (url_mapping c) (fst ur) p
                              | _, _ => url_mapping c
                              end;
                            manager := manager c;
                            world := world c |})
                      retry_results c in
                  (* phases 4 to 6 and the summary *)
                  match finish ext (url_mapping c) (world c) with
                  | Raises => Some Raises
                  | Ret w => Some (Ret (with_manager_world c (manager c) w))
                  end
              end
          end
      end
  end.

Definition clone_site (c : Cloner) : option Outcome :=
  match download_and_parse_html rt env cfg (world c) (target_url cfg) with
  | None => None
  | Some (w, main_page_content, main_result) =>
      let c := with_manager_world c (manager c) w in
      if negb (success main_result) then Some (MainPageFailed c)
      else
        let c :=
          match local_path main_result with
          | Some p =>
              {| discovered_urls := discovered_urls c;
                 download_results := download_results c;
                 url_mapping := add_url_mapping (url_mapping c) (target_url cfg) p;
                 manager := manager c;
                 world := world c |}
          | None => c
          end in
        match acquire_and_finish c main_page_content with
        | None => None
        | Some Raises => Some PhaseRaised
        | Some (Ret c') => Some (Cloned c')
        end
  end.

Definition new_cloner : Cloner :=
  {| discovered_urls := []; download_results := []; url_mapping := [];
     manager := new_manager; world := {| files := []; requests := [] |} |}.

End Controller.
End SiteCloner.

(* ------------------------------------------------------------------ *)
(** ** The cycle check terminates *)

Module CycleCheck.
Import SiteCloner DownloadManager.

(** Members of [nodes] not yet visited. *)
Definition unvisited (nodes visited : list str) : nat :=
  List.length (filter (fun x => negb (mem x visited)) nodes).

Lemma mem_set_add :
  forall x y s, mem y (set_add x s) = eqb y x || mem y s.
Proof.
  intros x y s. unfold set_add. destruct (mem x s) eqn:E.
  - destruct (eqb y x) eqn:Eyx; [|reflexivity].
    apply eqb_eq in Eyx. subst. now rewrite E.
  - unfold mem. rewrite existsb_app. simpl. rewrite orb_false_r.
    apply orb_comm.
Qed.

Definition subset (s t : list str) : Prop :=
  forall x, mem x s = true -> mem x t = true.

Lemma subset_refl : forall s, subset s s.
Proof. intros s x H. exact H. Qed.

Lemma subset_trans : forall s t u, subset s t -> subset t u -> subset s u.
Proof. intros s t u H1 H2 x H. apply H2, H1, H. Qed.

Lemma subset_set_add : forall x s, subset s (set_add x s).
Proof.
  intros x s y H. rewrite mem_set_add, H. apply orb_true_r.
Qed.

Lemma filter_length_le :
  forall (f g : str -> bool) (l : list str),
    (forall x, f x = true -> g x = true) ->
    List.length (filter f l) <= List.length (filter g l).
Proof.
  intros f g l H. induction l as [|x l IH]; simpl; [lia|].
  destruct (f x) eqn:Ef.
  - rewrite (H _ Ef). simpl. lia.
  - destruct (g x); simpl; lia.
Qed.

Lemma unvisited_mono :
  forall nodes s t, subset s t -> unvisited nodes t <= unvisited nodes s.
Proof.
  intros nodes s t H. apply filter_length_le. intros x Hx.
  apply negb_true_iff in Hx. apply negb_true_iff.
  destruct (mem x s) eqn:E; [|reflexivity].
  apply H in E. congruence.
Qed.

Lemma unvisited_add :
  forall nodes x s,
    In x nodes -> mem x s = false ->
    unvisited nodes (set_add x s) < unvisited nodes s.
Proof.
  intros nodes x s Hin Hx. unfold unvisited.
  induction nodes as [|y nodes IH]; [contradiction|].
  simpl. rewrite mem_set_add.
  destruct Hin as [->|Hin].
  - rewrite eqb_refl, Hx. simpl.
    apply Nat.lt_succ_r. apply filter_length_le.
    intros z Hz. apply negb_true_iff in Hz. apply negb_true_iff.
    rewrite mem_set_add in Hz. now apply orb_false_iff in Hz as [_ Hz].
  - specialize (IH Hin).
    destruct (eqb y x) eqn:Eyx; simpl.
    + destruct (mem y s); simpl; lia.
    + destruct (mem y s); simpl; lia.
Qed.

Section Graph.
Variable g : list (str * list str).

Definition imports_of (u : str) : list str :=
  match dict_get g u with Some s => s | None => [] end.

Lemma imports_in_nodes :
  forall u x, In x (imports_of u) -> In x (graph_nodes g).
Proof.
  intros u x. unfold imports_of, graph_nodes. intro H.
  apply in_or_app. right.
  induction g as [|[k v] g' IH]; simpl in *; [contradiction|].
  destruct (eqb u k).
  - apply in_or_app. now left.
  - apply in_or_app. right. now apply IH.
Qed.

(** What a call leaves behind: the visited set only grows. *)
Lemma cycle_among_grows :
  forall self : Dfs,
    (forall v p u b v' p', self v p u = Some (b, v', p') -> subset v v') ->
    forall imports v p b v' p',
      cycle_among self imports v p = Some (b, v', p') -> subset v v'.
Proof.
  intros self Hself. induction imports as [|i imports IH];
    intros v p b v' p' H; simpl in H.
  - inversion H; subst. apply subset_refl.
  - destruct (self v p i) as [[[b1 v1] p1]|] eqn:E; [|discriminate].
    pose proof (Hself _ _ _ _ _ _ E) as H1.
    destruct b1.
    + inversion H; subst. exact H1.
    + eapply subset_trans; [exact H1|]. eapply IH. exact H.
Qed.

Lemma has_cycle_grows :
  forall fuel v p u b v' p',
    _has_css_import_cycle fuel g v p u = Some (b, v', p') -> subset v v'.
Proof.
  induction fuel as [|fuel IH]; intros v p u b v' p' H; [discriminate|].
  simpl in H.
  destruct (mem u p); [inversion H; subst; apply subset_refl|].
  destruct (mem u v); [inversion H; subst; apply subset_refl|].
  destruct (cycle_among _ _ _ _) as [[[b1 v1] p1]|] eqn:E; [|discriminate].
  apply (cycle_among_grows (_has_css_import_cycle fuel g) (IH)) in E.
  assert (Hs : subset v v1)
    by (eapply subset_trans; [apply subset_set_add|exact E]).
  destruct b1; inversion H; subst; exact Hs.
Qed.

Lemma cycle_among_total :
  forall self : Dfs,
    (forall v p u b v' p', self v p u = Some (b, v', p') -> subset v v') ->
    forall bound,
      (forall v p u, In u (graph_nodes g) ->
                     unvisited (graph_nodes g) v <= bound ->
                     self v p u <> None) ->
      forall imports v p,
        (forall x, In x imports -> In x (graph_nodes g)) ->
        unvisited (graph_nodes g) v <= bound ->
        cycle_among self imports v p <> None.
Proof.
  intros self Hgrow bound Hself.
  induction imports as [|i imports IH]; intros v p Hin Hb; simpl.
  - discriminate.
  - assert (Hi : In i (graph_nodes g)) by (apply Hin; now left).
    pose proof (Hself v p i Hi Hb) as Hne.
    destruct (self v p i) as [[[b1 v1] p1]|] eqn:E; [|contradiction].
    destruct b1; [discriminate|].
    apply IH.
    + intros x Hx. apply Hin. now right.
    + pose proof (Hgrow _ _ _ _ _ _ E) as Hs.
      pose proof (unvisited_mono (graph_nodes g) Hs). lia.
Qed.

Lemma has_cycle_total :
  forall fuel v p u,
    In u (graph_nodes g) ->
    unvisited (graph_nodes g) v < fuel ->
    _has_css_import_cycle fuel g v p u <> None.
Proof.
  induction fuel as [|fuel IH]; intros v p u Hu Hlt; [lia|].
  simpl.
  destruct (mem u p); [discriminate|].
  destruct (mem u v) eqn:Ev; [discriminate|].
  assert (Hne : cycle_among (_has_css_import_cycle fuel g)
                  (imports_of u) (set_add u v) (set_add u p) <> None).
  { apply cycle_among_total with (bound := fuel - 1).
    - apply has_cycle_grows.
    - intros v0 p0 u0 Hu0 Hb. apply IH; [assumption|].
      pose proof (unvisited_add (graph_nodes g) u v Hu Ev). lia.
    - intros x Hx. eapply imports_in_nodes. exact Hx.
    - pose proof (unvisited_add (graph_nodes g) u v Hu Ev). lia. }
  unfold imports_of in Hne.
  destruct (cycle_among _ _ _ _) as [[[b1 v1] p1]|]; [|contradiction].
  destruct b1; discriminate.
Qed.

End Graph.

Lemma dict_set_key :
  forall (V : Type) (d : list (str * V)) k v, In k (dict_keys (dict_set d k v)).
Proof.
  intros V d k v. induction d as [|[k' v'] d IH]; simpl.
  - now left.
  - destruct (eqb k k') eqn:E; simpl.
    + left. apply eqb_eq in E. now subst.
    + right. exact IH.
Qed.

(** The fuel [process_css] gives the cycle check is enough: the check
    starts at a key of the graph with nothing visited. *)
Lemma cycle_check_returns :
  forall (g : list (str * list str)) (u : str) (imports : list str),
    _has_css_import_cycle (cycle_fuel (dict_set g u imports))
                          (dict_set g u imports) [] [] u <> None.
Proof.
  intros g u imports. apply has_cycle_total.
  - unfold graph_nodes. apply in_or_app. left. apply dict_set_key.
  - unfold cycle_fuel, unvisited. apply Nat.lt_succ_r.
    generalize (graph_nodes (dict_set g u imports)). intro l.
    induction l as [|a l IHl]; simpl; [apply le_n|apply le_n_S; exact IHl].
Qed.

End CycleCheck.

(* ------------------------------------------------------------------ *)
(** ** The closure loop terminates *)

Module Termination.
Import Urllib URLResolver Config DownloadManager SiteCloner.
Import DownloadFacts CycleCheck.

Section Loop.
Variable rt : Runtime.
Variable env : Env.
Variable cfg : SiteClonerConfig.
Variable ext : Collaborators.









End Loop.
End Termination.

(* ------------------------------------------------------------------ *)
(** ** Scripted sites *)

Module Sites.
Import Urllib URLResolver Config DownloadManager SiteCloner Bench.

(** The asset dict of [discover_assets_in_css], imports under the key the
    discoverer uses for them. *)
Definition css_assets (import_key : str) (imports : list str) : Assets :=
  if eqb import_key (lit "stylesheets")
  then [ (lit "stylesheets", imports); (lit "fonts", []);
         (lit "images", []); (lit "other", []) ]
  else [ (lit "stylesheets", []); (lit "fonts", []);
         (lit "images", []); (lit "other", []); (import_key, imports) ].

Definition html_assets (stylesheets : list str) : Assets :=
  [ (lit "stylesheets", stylesheets); (lit "scripts", []); (lit "images", []);
    (lit "fonts", []); (lit "media", []); (lit "documents", []);
    (lit "manifests", []); (lit "service_workers", []); (lit "preload", []);
    (lit "other", []) ].

(** A site given by its import table: every listed stylesheet is served,
    and mining it yields the imports the table lists for it. *)
Definition imports_in (table : list (str * list str)) (u : str) : list str :=
  match dict_get table u with Some l => l | None => [] end.

Definition served (table : list (str * list str)) : Env :=
  env_of (fun u _ =>
            if eqb u site then ok (lit "text/html") Absent (lit "<html></html>")
            else match dict_get table u with
                 | Some _ => ok (lit "text/css") Absent (lit "/* css */")
                 | None => http_error 404 (lit "Not Found")
                 end).

Definition mined (import_key : str) (root_sheets : list str)
           (table : list (str * list str)) : Collaborators :=
  {| discover_assets_in_html := fun _ _ => Ret (html_assets root_sheets);
     discover_assets_in_css :=
       fun _ css_url => Ret (css_assets import_key (imports_in table css_url));
     finish := fun _ w => Ret w |}.

(** The state in which the closure loop starts when [first] has been
    downloaded. *)
Definition after_fetching (e : Env) (first : list str) : option Cloner :=
  fetch Ascii.rt e cfg new_cloner first.

(** What the loop leaves: pass count, exit, the URLs discovered, the URLs
    downloaded with success, the depth tracker, the requests made. *)
Definition closure_report (e : Env) (ext : Collaborators) (start : option Cloner) :=
  match start with
  | Some c =>
      match _process_css_files_recursively Ascii.rt e cfg ext c with
      | Some (Ret (c', cl, i, why)) =>
          Some (i, why, discovered_urls c',
                map fst (filter (fun ur => success (snd ur)) (download_results c')),
                css_depth_tracker cl,
                rev (requests (world c')))
      | _ => None
      end
  | None => None
  end.

(** Two stylesheets importing each other. *)
Definition a_css : str := lit "https://ex.test/a.css".
Definition b_css : str := lit "https://ex.test/b.css".
Definition cycle_table : list (str * list str) :=
  [ (a_css, [b_css]); (b_css, [a_css]) ].

(** A chain of imports, [c0.css] importing [c1.css] and so on. *)
Definition link (k : Z) : str := lit "https://ex.test/c" ++ of_Z k ++ lit ".css".
Definition chain_table : list (str * list str) :=
  map (fun k => (link k, [link (k + 1)])) [0; 1; 2; 3; 4; 5; 6; 7; 8; 9; 10; 11]%Z.

End Sites.

(* ------------------------------------------------------------------ *)
(** ** The reported outcome *)

Module ReportedOutcome.
Import Urllib URLResolver Config DownloadManager SiteCloner Bench Sites.

(** A root page with one stylesheet that the server answers with 500
    every time. *)
Definition style_css : str := lit "https://ex.test/style.css".
Definition broken : Env :=
  env_of (fun u _ =>
            if eqb u site
            then ok (lit "text/html") Absent (lit "<html></html>")
            else if eqb u style_css
            then http_error 500 (lit "Internal Server Error")
            else http_error 404 (lit "Not Found")).
Definition page : Collaborators := mined (lit "stylesheets") [style_css] [].

(** What a run shows: the value [clone_site] returns, each download with
    its flag and error, the failures classified essential, and the value
    of [_verify_downloads]. *)
Definition run_report (o : option Outcome) :=
  match o with
  | Some (Cloned c) =>
      Some (true,
            map (fun ur => (fst ur, success (snd ur), error (snd ur)))
                (download_results c),
            essential_failed Ascii.rt c,
            _verify_downloads Ascii.rt c)
  | Some (MainPageFailed _) | Some PhaseRaised => Some (false, [], [], false)
  | None => None
  end.

(** C2 at the failing input.  The stylesheet fails all six requests with
    HTTP 500, matches no non-essential rule and is counted as an
    essential failure, [_verify_downloads] returns [False] - and
    [clone_site] returns [True]. *)
Lemma essential_failure_reported_success :
  run_report (clone_site Ascii.rt broken cfg page new_cloner)
  = Some (true,
          [(style_css, false, Some (lit "HTTP 500: Internal Server Error"))],
          [style_css],
          false)
  /\ _is_essential_for_rendering Ascii.rt style_css
       (lit "HTTP 500: Internal Server Error") = true.
Proof.
  split; vm_compute; reflexivity.
Qed.

(** The value [clone_site] returns is decided before any asset is
    fetched: it is [True] exactly when the run reaches its last line. *)
Lemma clone_site_returns_true :
  forall rt env cfg ext c c',
    clone_site rt env cfg ext c = Some (Cloned c') ->
    returns (Cloned c') = true.
Proof. reflexivity. Qed.

End ReportedOutcome.

(* ------------------------------------------------------------------ *)
(** ** Import depth *)

Module ImportDepth.
Import Urllib URLResolver Config DownloadManager SiteCloner Bench Sites.

Definition bounded (tracker : list (str * Z)) : Prop :=
  Forall (fun kv => (snd kv <= max_css_depth)%Z) tracker.

Lemma dict_set_bounded :
  forall tracker u d,
    bounded tracker -> (d <= max_css_depth)%Z -> bounded (dict_set tracker u d).
Proof.
  intros tracker u d H Hd. induction H as [|[k v] t Hk Ht IH]; simpl.
  - constructor; [exact Hd|constructor].
  - destruct (eqb u k); constructor; assumption.
Qed.

(** The tracker never holds a depth above the maximum: an import that
    would exceed it is skipped before it is recorded. *)
Lemma track_depths_bounded :
  forall imported tracker current,
    bounded tracker -> bounded (track_depths tracker current imported).
Proof.
  unfold track_depths.
  induction imported as [|u imported IH]; intros tracker current H; simpl.
  - exact H.
  - apply IH. destruct (max_css_depth <? current + 1)%Z eqn:E; [exact H|].
    apply dict_set_bounded; [exact H|]. now apply Z.ltb_ge in E.
Qed.

Lemma depth_of_bounded :
  forall tracker u, bounded tracker -> (depth_of tracker u <= max_css_depth)%Z.
Proof.
  intros tracker u H. unfold depth_of.
  induction H as [|[k v] t Hk Ht IH]; simpl.
  - unfold max_css_depth. lia.
  - destruct (eqb u k); [exact Hk|exact IH].
Qed.

(** So the filter that should drop depth-limited stylesheets drops
    nothing. *)
Lemma depth_filter_is_empty :
  forall rs tracker new_assets,
    bounded tracker -> filter (depth_limited rs tracker) new_assets = [].
Proof.
  intros rs tracker new_assets H.
  induction new_assets as [|u l IH]; [reflexivity|].
  simpl. rewrite IH. unfold depth_limited.
  replace (max_css_depth <? depth_of tracker u)%Z with false
    by (symmetry; apply Z.ltb_ge; now apply depth_of_bounded).
  now rewrite andb_false_r.
Qed.

Definition links (ks : list Z) : list str := map link ks.

(** C8 at the failing input: [c0.css] is downloaded and each [ck.css]
    imports the next.  With the discoverer as it is (imports under
    [stylesheets]) the depth branch never runs; with imports under the
    key the loop reads ([css]) depths one to eight are tracked.  Either
    way [c9.css], at depth nine, and [c10.css] are added to the
    discovered set and downloaded. *)
Lemma deep_import_is_downloaded :
  closure_report (served chain_table)
    (mined (lit "stylesheets") [] chain_table)
    (after_fetching (served chain_table) [link 0])
  = Some (10%Z, IterationLimit,
          links [1; 2; 3; 4; 5; 6; 7; 8; 9; 10]%Z,
          links [0; 1; 2; 3; 4; 5; 6; 7; 8; 9; 10]%Z,
          [],
          links [0; 1; 2; 3; 4; 5; 6; 7; 8; 9; 10]%Z)
  /\ closure_report (served chain_table)
       (mined (lit "css") [] chain_table)
       (after_fetching (served chain_table) [link 0])
     = Some (10%Z, IterationLimit,
             links [1; 2; 3; 4; 5; 6; 7; 8; 9; 10]%Z,
             links [0; 1; 2; 3; 4; 5; 6; 7; 8; 9; 10]%Z,
             [ (link 1, 1); (link 2, 2); (link 3, 3); (link 4, 4);
               (link 5, 5); (link 6, 6); (link 7, 7); (link 8, 8);
               (link 10, 1) ]%Z,
             links [0; 1; 2; 3; 4; 5; 6; 7; 8; 9; 10]%Z).
Proof.
  split; vm_compute; reflexivity.
Qed.

(** The synthetic cycle of the spec: [a.css] imports [b.css] imports
    [a.css].  The loop stops in its second pass, with two requests made,
    whichever key the imports are reported under. *)
Example cyclic_imports_stop :
  closure_report (served cycle_table)
    (mined (lit "stylesheets") [] cycle_table)
    (after_fetching (served cycle_table) [a_css])
  = Some (2%Z, NoNewAssets, [b_css], [a_css; b_css], [], [a_css; b_css])
  /\ closure_report (served cycle_table)
       (mined (lit "css") [] cycle_table)
       (after_fetching (served cycle_table) [a_css])
     = Some (2%Z, NoNewAssets, [b_css], [a_css; b_css], [(b_css, 1%Z)],
             [a_css; b_css]).
Proof.
  split; vm_compute; reflexivity.
Qed.

End ImportDepth.

(* ------------------------------------------------------------------ *)
(** ** Bounds on sanitized names *)

Module NameBounds.
Import Urllib URLResolver Sanitizer.

Lemma startswith_app : forall p s, startswith p (p ++ s) = true.
Proof.
  induction p as [|x p IH]; intro s; [reflexivity|].
  cbn [app startswith]. now rewrite N.eqb_refl, IH.
Qed.

Lemma endswith_app : forall p s, endswith p (s ++ p) = true.
Proof.
  intros p s. unfold endswith. rewrite rev_app_distr. apply startswith_app.
Qed.

Lemma firstn_forallb :
  forall (f : char -> bool) n l, forallb f l = true -> forallb f (firstn n l) = true.
Proof.
  intros f. induction n as [|n IH]; intros [|x l] H; try reflexivity.
  cbn [firstn forallb] in *. apply andb_true_iff in H as [Hx Hl].
  now rewrite Hx, IH.
Qed.

Lemma filter_forallb :
  forall (f : char -> bool) l, forallb f (filter f l) = true.
Proof.
  intros f. induction l as [|x l IH]; [reflexivity|].
  cbn [filter]. destruct (f x) eqn:E; [|exact IH].
  cbn [forallb]. now rewrite E, IH.
Qed.

Section Names.
Variable rt : Runtime.

(** [_sanitize_extension] returns between one and ten characters, each an
    ASCII letter or digit, whatever the extension it is given and whatever
    [str.lower] does to it. *)
Theorem sanitize_extension_shape :
  forall e,
    let x := _sanitize_extension rt e in
    (1 <= List.length x <= 10)%nat /\ forallb is_ascii_alnum x = true.
Proof.
  intro e. cbv zeta. unfold _sanitize_extension.
  assert (Hhtml : (1 <= List.length (lit "html") <= 10)%nat
                  /\ forallb is_ascii_alnum (lit "html") = true).
  { split; [cbn; lia|reflexivity]. }
  destruct (is_empty e); [exact Hhtml|].
  set (ext := filter is_ascii_alnum (lower rt e)).
  assert (Hext : forallb is_ascii_alnum ext = true) by apply filter_forallb.
  destruct (10 <? List.length ext)%nat eqn:Hlen.
  - apply Nat.ltb_lt in Hlen.
    destruct (firstn 10 ext) as [|c t] eqn:Ef; [exact Hhtml|].
    cbn [is_empty]. rewrite <- Ef. split.
    + rewrite length_firstn. split; [|lia].
      rewrite Nat.min_l by lia. lia.
    + now apply firstn_forallb.
  - apply Nat.ltb_ge in Hlen.
    destruct ext as [|c t]; [exact Hhtml|].
    cbn [is_empty]. split; [cbn [List.length] in *; lia|exact Hext].
Qed.

(** The length limit of [_secure_sanitize_filename]: the result has at
    most 100 characters, except when what follows the last dot of the
    cleaned name has 100 characters or more; then [max_name_length] is
    negative, the slice counts from the end, and the result keeps that
    whole extension after a dot. *)
Theorem sanitized_name_length :
  forall s,
    let r := _secure_sanitize_filename rt s in
    (List.length r <= 100)%nat
    \/ exists name ext,
         r = name ++ lit "." ++ ext
         /\ (100 <= List.length ext)%nat
         /\ ~ In (ch ".") ext.
Proof.
  intro s. cbv zeta. unfold _secure_sanitize_filename.
  assert (Hun : (List.length (lit "unnamed") <= 100)%nat) by (cbn; lia).
  destruct (is_empty s); [now left|].
  match goal with
  | |- context [if (100 <? List.length ?x)%nat then _ else _] => set (s2 := x)
  end.
  destruct (100 <? List.length s2)%nat eqn:Hlen.
  - destruct (rsplit1 (ch ".") s2) as [[name ext]|] eqn:Hs.
    + apply rsplit1_some in Hs as [_ Hext].
      destruct (100 <=? List.length ext)%nat eqn:Hbig.
      * apply Nat.leb_le in Hbig.
        set (r := slice_to (100 - Z.of_nat (List.length ext) - 1) name
                  ++ lit "." ++ ext).
        assert (Hr : is_empty r || eqb r (lit ".") = false).
        { subst r. destruct (slice_to _ name) as [|c t].
          - destruct ext as [|e0 ext']; [cbn in Hbig; lia|reflexivity].
          - cbn [app is_empty orb]. apply eqb_neq. intro E.
            change (lit ".") with [ch "."] in E. inversion E as [[Ec Et]].
            destruct t; discriminate. }
        rewrite Hr. right. exists (slice_to (100 - Z.of_nat (List.length ext) - 1) name), ext.
        repeat split; assumption.
      * apply Nat.leb_gt in Hbig.
        match goal with
        | |- context [if ?b then _ else ?x] =>
            destruct b; [now left|]
        end.
        left. unfold slice_to.
        replace (0 <=? 100 - Z.of_nat (List.length ext) - 1)%Z with true
          by (symmetry; apply Z.leb_le; lia).
        rewrite !length_app, length_firstn. cbn [List.length lit].
        change (List.length (lit ".")) with 1%nat. lia.
    + match goal with
      | |- context [if ?b then _ else ?x] => destruct b; [now left|]
      end.
      left. rewrite length_firstn. lia.
  - apply Nat.ltb_ge in Hlen.
    match goal with
    | |- context [if ?b then _ else ?x] => destruct b; [now left|]
    end.
    now left.
Qed.

(** [_create_safe_fallback_name] returns, whenever the URL can be hashed,
    the name [safe_file_<hex>.html] with at most twelve hexadecimal
    digits: one safe path component of at most 27 characters. *)
Theorem fallback_name_shape :
  forall u,
    match _create_safe_fallback_name rt u with
    | Ret n =>
        is_safe_component n = true
        /\ startswith (lit "safe_file_") n = true
        /\ endswith (lit ".html") n = true
        /\ (List.length n <= 27)%nat
    | Raises => md5 rt u = None
    end.
Proof.
  intro u. unfold _create_safe_fallback_name.
  destruct (md5 rt u) as [d|]; [|reflexivity].
  set (h := firstn 12 (hexdigest d)).
  assert (Hh : ~ In (ch "/") h).
  { intro Hin. apply firstn_chars, hexdigest_chars in Hin.
    apply Hin. reflexivity. }
  change (lit "safe_file_" ++ firstn 12 (hexdigest d) ++ lit ".html")
    with (lit "safe_file_" ++ h ++ lit ".html").
  split; [|split; [|split]].
  - apply safe_intro with (c := ch "s").
    + intro Hin. apply in_app_or in Hin as [Hin|Hin].
      * cbn in Hin. repeat (destruct Hin as [Hin|Hin]; [discriminate|]).
        exact Hin.
      * apply in_app_or in Hin as [Hin|Hin]; [contradiction|].
        cbn in Hin. repeat (destruct Hin as [Hin|Hin]; [discriminate|]).
        exact Hin.
    + now left.
    + discriminate.
  - apply startswith_app.
  - rewrite app_assoc. apply endswith_app.
  - rewrite !length_app. subst h. rewrite length_firstn.
    change (List.length (lit "safe_file_")) with 10%nat.
    change (List.length (lit ".html")) with 5%nat. lia.
Qed.

End Names.
End NameBounds.

(* ------------------------------------------------------------------ *)
(** ** Requests made by one download *)

Module DownloadBounds.
Import Urllib URLResolver Config DownloadManager DownloadFacts.

Definition step_world (s : Step) : World :=
  match s with
  | Return w _ => w
  | Continue w => w
  | Delegate w _ => w
  end.

(** The extra requests the 404 strategies can cost a URL: one request
    before the query is dropped, two before [index.html] is appended. *)
Definition detours (u : str) : nat :=
  (if cmem (ch "?") u then 3 else 0) + (if endswith (lit "/") u then 2 else 0).

Section Bounds.
Variable rt : Runtime.
Variable env : Env.
Variable cfg : SiteClonerConfig.

Lemma retry_or_fail_world :
  forall w u a msg, step_world (retry_or_fail cfg w u a msg) = w.
Proof.
  intros w u a msg. unfold retry_or_fail.
  destruct (a <? max_retries cfg)%Z; reflexivity.
Qed.

Lemma exception_step_world :
  forall w u a e, step_world (exception_step cfg w u a e) = w.
Proof.
  intros w u a e. destruct e; apply retry_or_fail_world.
Qed.

(** Handling a response issues no request. *)
Lemma handle_response_requests :
  forall w u a path r,
    requests (step_world (handle_response rt env cfg w u a path r)) = requests w.
Proof.
  intros w u a path r. unfold handle_response.
  destruct (content_length r);
    try (now rewrite exception_step_world);
    (match goal with
     | |- context [should_download_file ?a ?b ?c ?d] =>
         destruct (should_download_file a b c d) as [[|]|]
     end;
     try reflexivity;
     try (now rewrite exception_step_world);
     repeat match goal with
            | |- context [if ?b then _ else _] => destruct b
            | |- context [match stream_error r with _ => _ end] =>
                destruct (stream_error r)
            end;
     try reflexivity;
     try (now rewrite exception_step_world);
     try (now rewrite retry_or_fail_world)).
Qed.

(** One pass of the retry loop issues at most one request, and only
    prepends to the log. *)
Lemma attempt_step_requests :
  forall w u a,
    let w' := step_world (attempt_step rt env cfg w u a) in
    requests w' = requests w \/ requests w' = u :: requests w.
Proof.
  intros w u a. cbv zeta. unfold attempt_step.
  destruct (url_to_local_path _ _ _ u _) as [path|];
    [|left; now rewrite exception_step_world].
  destruct (if overwrite_existing cfg then None else lookup_file (files w) path)
    as [content|].
  - destruct (0 <? size_of content)%Z; [now left|].
    right. destruct (server env u _).
    + now rewrite exception_step_world.
    + now rewrite handle_response_requests.
  - right. destruct (server env u _).
    + now rewrite exception_step_world.
    + now rewrite handle_response_requests.
Qed.

(** When and where the 404 strategies hand over. *)
Lemma handle_response_detour :
  forall w u a path r w' u',
    handle_response rt env cfg w u a path r = Delegate w' u' ->
    (a = 0%Z /\ 1 + detours u' <= detours u)
    \/ (a = 1%Z /\ 2 + detours u' <= detours u).
Proof.
  intros w u a path r w' u' H. unfold handle_response in H.
  destruct (content_length r);
    try (now apply exception_step_not_delegate in H);
    (match type of H with
     | context [should_download_file ?a ?b ?c ?d] =>
         destruct (should_download_file a b c d) as [[|]|]
     end;
     try discriminate;
     try (now apply exception_step_not_delegate in H);
     destruct (400 <=? status r)%Z;
     [ destruct ((status r =? 404)%Z && cmem (ch "?") u && (a =? 0)%Z) eqn:E1;
       [ inversion H; subst; left;
         apply andb_true_iff in E1 as [E1 Ea];
         apply andb_true_iff in E1 as [_ E1];
         apply Z.eqb_eq in Ea; split; [exact Ea|];
         unfold detours; rewrite E1, split1_fst_no_sep;
         destruct (endswith _ _), (endswith _ _); simpl; lia
       | destruct ((status r =? 404)%Z && endswith (lit "/") u && (a =? 1)%Z) eqn:E2;
         [ inversion H; subst; right;
           apply andb_true_iff in E2 as [E2 Ea];
           apply andb_true_iff in E2 as [_ E2];
           apply Z.eqb_eq in Ea; split; [exact Ea|];
           unfold detours; rewrite E2, endswith_index_html, cmem_app;
           change (cmem (ch "?") (lit "index.html")) with false;
           rewrite orb_false_r; destruct (cmem _ u); simpl; lia
         | now apply retry_or_fail_not_delegate in H ] ]
     | repeat match type of H with
              | context [if ?b then _ else _] => destruct b
              | context [match stream_error r with _ => _ end] =>
                  destruct (stream_error r)
              end;
       try discriminate;
       try (now apply exception_step_not_delegate in H);
       try (now apply retry_or_fail_not_delegate in H) ]).
Qed.

Lemma attempt_step_detour :
  forall w u a w' u',
    attempt_step rt env cfg w u a = Delegate w' u' ->
    (a = 0%Z /\ 1 + detours u' <= detours u)
    \/ (a = 1%Z /\ 2 + detours u' <= detours u).
Proof.
  intros w u a w' u' H. unfold attempt_step in H.
  destruct (url_to_local_path _ _ _ u _) as [path|];
    [|now apply exception_step_not_delegate in H].
  destruct (if overwrite_existing cfg then None else lookup_file (files w) path)
    as [content|].
  - destruct (0 <? size_of content)%Z; [discriminate|].
    destruct (server env u _);
      [now apply exception_step_not_delegate in H
      |now apply handle_response_detour in H].
  - destruct (server env u _);
      [now apply exception_step_not_delegate in H
      |now apply handle_response_detour in H].
Qed.

(** The log after a call extends the log before it by [k] requests. *)
Definition extends_by (w w' : World) (k : nat) : Prop :=
  exists new, requests w' = new ++ requests w /\ List.length new <= k.

Lemma extends_by_step :
  forall w u a,
    extends_by w (step_world (attempt_step rt env cfg w u a)) 1.
Proof.
  intros w u a. destruct (attempt_step_requests w u a) as [H|H].
  - exists []. split; [exact H|cbn; lia].
  - exists [u]. split; [exact H|cbn; lia].
Qed.

Lemma extends_by_trans :
  forall w1 w2 w3 j k n,
    extends_by w1 w2 j -> extends_by w2 w3 k -> j + k <= n ->
    extends_by w1 w3 n.
Proof.
  intros w1 w2 w3 j k n [a [Ha La]] [b [Hb Lb]] Hn.
  exists (b ++ a). split.
  - now rewrite Hb, Ha, app_assoc.
  - rewrite length_app. lia.
Qed.

Definition tries : nat := Z.to_nat (max_retries cfg + 1).

Lemma attempts_requests :
  forall self u,
    (forall w u' w' r, self w u' = Some (w', r) ->
                       extends_by w w' (tries + detours u')) ->
    forall k a w w' r,
      (Z.of_nat k + a = Z.of_nat tries)%Z -> (0 <= a)%Z ->
      attempts rt env cfg self k a w u = Some (w', r) ->
      extends_by w w' (k + detours u).
Proof.
  intros self u Hself. induction k as [|k IH]; intros a w w' r Hk Ha H;
    cbn [attempts] in H.
  - inversion H; subst. exists []. split; [reflexivity|cbn; lia].
  - pose proof (extends_by_step w u a) as Hstep.
    destruct (attempt_step rt env cfg w u a) as [w1 r1|w1|w1 u1] eqn:E;
      cbn [step_world] in Hstep.
    + inversion H; subst.
      destruct Hstep as [new [Hn Ln]]. exists new. split; [exact Hn|lia].
    + apply IH in H; [|lia|lia].
      eapply extends_by_trans; [exact Hstep|exact H|lia].
    + apply Hself in H. apply attempt_step_detour in E.
      eapply extends_by_trans; [exact Hstep|exact H|].
      destruct E as [[Ea Hd]|[Ea Hd]]; subst a; lia.
Qed.

Lemma download_requests :
  forall fuel w u w' r,
    _download_single_url rt env cfg fuel w u = Some (w', r) ->
    extends_by w w' (tries + detours u).
Proof.
  induction fuel as [|fuel IH]; intros w u w' r H; [discriminate|].
  cbn [_download_single_url] in H.
  apply (@attempts_requests (_download_single_url rt env cfg fuel) u)
    with (a := 0%Z) (r := r); [|lia|lia|exact H].
  intros w0 u0 w1 r1 H1. eapply IH. exact H1.
Qed.

(** One call of [_download_single_url] only adds to the request log, and
    adds at most [max_retries + 1] requests plus the detours of the 404
    strategies, five at most: whatever the server answers, a URL costs no
    more than [max_retries + 6] requests. *)
Theorem single_download_request_bound :
  forall fuel w u,
    match _download_single_url rt env cfg fuel w u with
    | Some (w', r) =>
        exists new,
          requests w' = new ++ requests w
          /\ List.length new <= Z.to_nat (max_retries cfg + 1) + detours u
          /\ detours u <= 5
    | None => True
    end.
Proof.
  intros fuel w u.
  destruct (_download_single_url rt env cfg fuel w u) as [[w' r]|] eqn:E;
    [|exact I].
  apply download_requests in E. destruct E as [new [Hn Ln]].
  exists new. split; [exact Hn|]. split; [exact Ln|].
  unfold detours. destruct (cmem _ _), (endswith _ _); cbn; lia.
Qed.

End Bounds.
End DownloadBounds.

(* ------------------------------------------------------------------ *)
(** ** What a batch leaves behind *)

Module BatchFacts.
Import Urllib URLResolver Config DownloadManager DownloadFacts CycleCheck.

(** The URLs of a batch that [download_urls] has not seen yet. *)
Definition fresh (m : Manager) (urls : list str) : list str :=
  set_diff (set_diff urls (downloaded_urls m)) (failed_urls m).

(** Where [download_urls] files a URL after its download. *)
Definition filed (m : Manager) (u : str) (r : DownloadResult) : bool :=
  if success r then mem u (downloaded_urls m) else mem u (failed_urls m).

Definition attempted (st : DownloadStats) : Z :=
  (downloaded_files st + failed_files st)%Z.

Section Batches.
Variable rt : Runtime.
Variable env : Env.
Variable cfg : SiteClonerConfig.

Lemma download_each_keys :
  forall urls w w' rs,
    download_each rt env cfg w urls = Some (w', rs) -> map fst rs = urls.
Proof.
  induction urls as [|u urls IH]; intros w w' rs H; cbn [download_each] in H.
  - inversion H. reflexivity.
  - destruct (_download_single_url rt env cfg download_fuel w u)
      as [[w1 r]|]; [|discriminate].
    destruct (download_each rt env cfg w1 urls) as [[w2 rs']|] eqn:E;
      [|discriminate].
    inversion H; subst. cbn [map fst]. f_equal. eapply IH. exact E.
Qed.

Lemma record_result_grows :
  forall m ur,
    subset (downloaded_urls m) (downloaded_urls (record_result m ur))
    /\ subset (failed_urls m) (failed_urls (record_result m ur)).
Proof.
  intros m [u r]. unfold record_result.
  destruct (success r); cbn [downloaded_urls failed_urls]; split;
    try apply subset_refl; apply subset_set_add.
Qed.

Lemma record_all_grows :
  forall rs m,
    subset (downloaded_urls m) (downloaded_urls (fold_left record_result rs m))
    /\ subset (failed_urls m) (failed_urls (fold_left record_result rs m)).
Proof.
  induction rs as [|ur rs IH]; intro m; cbn [fold_left].
  - split; apply subset_refl.
  - destruct (record_result_grows m ur) as [H1 H2].
    destruct (IH (record_result m ur)) as [H3 H4].
    split; eapply subset_trans; eassumption.
Qed.

Lemma record_result_files :
  forall m u r, filed (record_result m (u, r)) u r = true.
Proof.
  intros m u r. unfold filed, record_result.
  destruct (success r); cbn [downloaded_urls failed_urls];
    now rewrite mem_set_add, eqb_refl.
Qed.

Lemma filed_grows :
  forall m m' u r,
    subset (downloaded_urls m) (downloaded_urls m') ->
    subset (failed_urls m) (failed_urls m') ->
    filed m u r = true -> filed m' u r = true.
Proof.
  intros m m' u r Hd Hf. unfold filed.
  destruct (success r); [apply Hd|apply Hf].
Qed.

Lemma record_all_files :
  forall rs m u r,
    In (u, r) rs -> filed (fold_left record_result rs m) u r = true.
Proof.
  induction rs as [|ur rs IH]; intros m u r Hin; [contradiction|].
  cbn [fold_left]. destruct Hin as [E|Hin].
  - subst ur.
    destruct (record_all_grows rs (record_result m (u, r))) as [Hd Hf].
    eapply filed_grows; [exact Hd|exact Hf|apply record_result_files].
  - now apply IH.
Qed.

Lemma record_all_counts :
  forall rs m,
    attempted (stats (fold_left record_result rs m))
    = (attempted (stats m) + Z.of_nat (List.length rs))%Z
    /\ total_files (stats (fold_left record_result rs m)) = total_files (stats m).
Proof.
  induction rs as [|[u r] rs IH]; intro m; cbn [fold_left].
  - cbn [List.length]. split; [lia|reflexivity].
  - destruct (IH (record_result m (u, r))) as [H1 H2].
    rewrite H1, H2. unfold record_result, attempted.
    destruct (success r); cbn; split; try reflexivity; lia.
Qed.

Lemma download_urls_summary :
  forall m w urls,
    match download_urls rt env cfg m w urls with
    | Some (m', w', rs) =>
        total_files (stats m') = Z.of_nat (List.length urls)
        /\ (rs = [] /\ w' = w
            /\ downloaded_urls m' = downloaded_urls m
            /\ failed_urls m' = failed_urls m
            \/ rs <> [] /\ map fst rs = fresh m urls)
        /\ (forall u r, In (u, r) rs -> filed m' u r = true)
        /\ subset (downloaded_urls m) (downloaded_urls m')
        /\ subset (failed_urls m) (failed_urls m')
        /\ attempted (stats m')
           = (attempted (stats m) + Z.of_nat (List.length rs))%Z
    | None => True
    end.
Proof.
  intros m w urls. unfold download_urls. cbn [downloaded_urls failed_urls].
  fold (fresh m urls).
  assert (Hskip :
    forall m0, m0 = {| downloaded_urls := downloaded_urls m;
                       failed_urls := failed_urls m;
                       stats := set_total (stats m)
                                  (Z.of_nat (List.length urls)) |} ->
      total_files (stats m0) = Z.of_nat (List.length urls)
      /\ (@nil (str * DownloadResult) = [] /\ w = w
          /\ downloaded_urls m0 = downloaded_urls m
          /\ failed_urls m0 = failed_urls m
          \/ @nil (str * DownloadResult) <> [] /\ map fst (@nil (str * DownloadResult)) = fresh m urls)
      /\ (forall u r, In (u, r) (@nil (str * DownloadResult)) -> filed m0 u r = true)
      /\ subset (downloaded_urls m) (downloaded_urls m0)
      /\ subset (failed_urls m) (failed_urls m0)
      /\ attempted (stats m0)
         = (attempted (stats m) + Z.of_nat (List.length (@nil (str * DownloadResult))))%Z).
  { intros m0 E. subst m0. cbn. repeat split; try apply subset_refl.
    - left. repeat split.
    - intros u r [].
    - unfold attempted. cbn. lia. }
  destruct (fresh m urls) as [|u0 new] eqn:Ef; [now apply Hskip|].
  destruct (negb (check_disk_space env w _)); [now apply Hskip|].
  destruct (download_each rt env cfg w (u0 :: new)) as [[w' rs]|] eqn:Ed;
    [|exact I].
  set (m0 := {| downloaded_urls := downloaded_urls m;
                failed_urls := failed_urls m;
                stats := set_total (stats m) (Z.of_nat (List.length urls)) |}).
  apply download_each_keys in Ed.
  destruct (record_all_counts rs m0) as [Hc Ht].
  destruct (record_all_grows rs m0) as [Hd Hf].
  split; [rewrite Ht; reflexivity|].
  split; [right; split; [intro E; subst rs; discriminate|exact Ed]|].
  split; [intros u r Hin; now apply record_all_files|].
  split; [exact Hd|]. split; [exact Hf|].
  rewrite Hc. unfold attempted. reflexivity.
Qed.

(** What one call of [download_urls] leaves behind.  [total_files] is the
    size of the batch.  Either nothing was fetched (no fresh URL, or not
    enough disk space): no result, and the world and both URL sets are as
    before.  Or every fresh URL, and no other, has a result.  In both
    cases each result is filed under its URL in [downloaded_urls] when it
    succeeded and in [failed_urls] when it did not, neither set loses a
    member, and [downloaded_files + failed_files] grows by the number of
    results. *)
Theorem download_urls_accounts :
  forall m w urls,
    match download_urls rt env cfg m w urls with
    | Some (m', w', rs) =>
        total_files (stats m') = Z.of_nat (List.length urls)
        /\ (rs = [] /\ w' = w
            /\ downloaded_urls m' = downloaded_urls m
            /\ failed_urls m' = failed_urls m
            \/ rs <> [] /\ map fst rs = fresh m urls)
        /\ (forall u r, In (u, r) rs -> filed m' u r = true)
        /\ subset (downloaded_urls m) (downloaded_urls m')
        /\ subset (failed_urls m) (failed_urls m')
        /\ attempted (stats m')
           = (attempted (stats m) + Z.of_nat (List.length rs))%Z
    | None => True
    end.
Proof.
  exact download_urls_summary.
Qed.

Lemma set_diff_all_seen :
  forall urls d f,
    (forall u, In u urls -> mem u d || mem u f = true) ->
    set_diff (set_diff urls d) f = [].
Proof.
  induction urls as [|u urls IH]; intros d f H; [reflexivity|].
  unfold set_diff in *. cbn [filter].
  assert (Hu := H u (or_introl eq_refl)).
  destruct (mem u d) eqn:Ed; cbn [negb].
  - apply IH. intros x Hx. apply H. now right.
  - cbn [filter]. cbn [orb] in Hu. rewrite Hu. cbn [negb].
    apply IH. intros x Hx. apply H. now right.
Qed.

Lemma set_diff_member :
  forall urls d f u,
    In u urls -> mem u d = false -> mem u f = false ->
    In u (set_diff (set_diff urls d) f).
Proof.
  intros urls d f u Hin Hd Hf. unfold set_diff.
  apply filter_In. split; [|now rewrite Hf].
  apply filter_In. split; [exact Hin|now rewrite Hd].
Qed.

(** [download_urls] fetches no URL twice: once a call has returned
    results, the same batch given again finds no fresh URL, makes no
    request, writes nothing and returns the empty dictionary. *)
Theorem download_urls_not_repeated :
  forall m w urls,
    match download_urls rt env cfg m w urls with
    | Some (m', w', _ :: _) =>
        download_urls rt env cfg m' w' urls
        = Some ({| downloaded_urls := downloaded_urls m';
                   failed_urls := failed_urls m';
                   stats := set_total (stats m')
                              (Z.of_nat (List.length urls)) |}, w', [])
    | _ => True
    end.
Proof.
  intros m w urls.
  pose proof (download_urls_summary m w urls) as H.
  destruct (download_urls rt env cfg m w urls) as [[[m' w'] rs]|];
    [|exact I].
  destruct rs as [|ur rs]; [exact I|].
  destruct H as (_ & Hkeys & Hfiled & Hd & Hf & _).
  destruct Hkeys as [[E _]|[_ Hkeys]]; [discriminate|].
  unfold download_urls. cbn [downloaded_urls failed_urls].
  rewrite set_diff_all_seen; [reflexivity|].
  intros u Hin.
  destruct (mem u (downloaded_urls m)) eqn:Ed;
    [now rewrite (Hd u Ed)|].
  destruct (mem u (failed_urls m)) eqn:Efl;
    [rewrite (Hf u Efl); apply orb_true_r|].
  assert (Hfresh : In u (map fst (ur :: rs))).
  { rewrite Hkeys. now apply set_diff_member. }
  apply in_map_iff in Hfresh as [[u1 r1] [Eu Hin1]]. cbn [fst] in Eu. subst u1.
  specialize (Hfiled u r1 Hin1). unfold filed in Hfiled.
  destruct (success r1); rewrite Hfiled; [reflexivity|apply orb_true_r].
Qed.

End Batches.
End BatchFacts.

(* ------------------------------------------------------------------ *)
(** ** The retry phase *)

Module RetryFacts.
Import Urllib URLResolver Config DownloadManager DownloadFacts CycleCheck
       SiteCloner BatchFacts Bench.

(** Every failed entry of [download_results] is in the manager's
    [failed_urls]. *)
Definition failures_recorded (c : Cloner) : bool :=
  forallb (fun u => mem u (failed_urls (manager c)))
          (failed_of (download_results c)).

Section Retry.
Variable rt : Runtime.
Variable env : Env.
Variable cfg : SiteClonerConfig.

Lemma download_urls_all_seen :
  forall cfg' m w urls,
    forallb (fun u => mem u (failed_urls m)) urls = true ->
    download_urls rt env cfg' m w urls
    = Some ({| downloaded_urls := downloaded_urls m;
               failed_urls := failed_urls m;
               stats := set_total (stats m) (Z.of_nat (List.length urls)) |},
            w, []).
Proof.
  intros cfg' m w urls H. unfold download_urls.
  cbn [downloaded_urls failed_urls].
  rewrite set_diff_all_seen; [reflexivity|].
  intros u Hin. rewrite forallb_forall in H. rewrite (H u Hin).
  apply orb_true_r.
Qed.

(** [retry_failed_downloads] hands the failed URLs back to
    [download_urls], which leaves out every URL already in [failed_urls].
    When the failures were recorded there, as [download_urls] does for
    each of its own, every pass is idle: no request is made, nothing is
    written, no result changes and the returned dictionary holds what it
    held on entry. *)
Theorem retry_skips_recorded_failures :
  forall passes attempt c retry_results,
    failures_recorded c = true ->
    exists c',
      retry_failed_downloads rt env cfg passes attempt c retry_results
      = Some (c', retry_results)
      /\ world c' = world c
      /\ download_results c' = download_results c
      /\ url_mapping c' = url_mapping c
      /\ downloaded_urls (manager c') = downloaded_urls (manager c)
      /\ failed_urls (manager c') = failed_urls (manager c).
Proof.
  induction passes as [|passes IH]; intros attempt c rr Hrec;
    cbn [retry_failed_downloads].
  - exists c. repeat split.
  - destruct (failed_of (download_results c)) as [|u0 rest] eqn:Ef.
    + exists c. repeat split.
    + rewrite download_urls_all_seen
        by (unfold failures_recorded in Hrec; rewrite Ef in Hrec; exact Hrec).
      cbn [fold_left].
      match goal with
      | |- context [retry_failed_downloads _ _ _ _ _ ?c1 _] =>
          destruct (IH (attempt + 1)%Z c1 rr) as [c' [E Hc']];
            [exact Hrec|]
      end.
      exists c'. split; [exact E|exact Hc'].
Qed.

(** *** The controller keeps its failures recorded *)

Definition recorded_in (failed : list str) (rs : list (str * DownloadResult))
  : Prop :=
  forall u r, In (u, r) rs -> success r = false -> mem u failed = true.

Lemma failures_recorded_iff :
  forall c,
    failures_recorded c = true
    <-> recorded_in (failed_urls (manager c)) (download_results c).
Proof.
  intro c. unfold failures_recorded, failed_of, recorded_in.
  rewrite forallb_forall. split.
  - intros H u r Hin Hs. apply H. apply in_map_iff.
    exists (u, r). split; [reflexivity|].
    apply filter_In. split; [exact Hin|]. cbn [snd]. now rewrite Hs.
  - intros H u Hin. apply in_map_iff in Hin as [[u' r] [E Hin]].
    cbn [fst] in E. subst u'. apply filter_In in Hin as [Hin Hs].
    apply (H u r Hin). cbn [snd] in Hs. now destruct (success r).
Qed.

Lemma dict_set_entries :
  forall (V : Type) (d : list (str * V)) k v k0 v0,
    In (k, v) (dict_set d k0 v0) -> (k, v) = (k0, v0) \/ In (k, v) d.
Proof.
  intros V. induction d as [|[k1 v1] d IH]; intros k v k0 v0 H;
    cbn [dict_set] in H.
  - destruct H as [H|[]]. left. now symmetry.
  - destruct (eqb k0 k1) eqn:E.
    + destruct H as [H|H].
      * apply eqb_eq in E. subst k1. left. now symmetry.
      * right. now right.
    + destruct H as [H|H]; [right; now left|].
      apply IH in H as [H|H]; [now left|right; now right].
Qed.

Lemma record_results_shape :
  forall rs c,
    manager (record_results cfg c rs) = manager c
    /\ world (record_results cfg c rs) = world c
    /\ forall u r, In (u, r) (download_results (record_results cfg c rs)) ->
                   In (u, r) rs \/ In (u, r) (download_results c).
Proof.
  unfold record_results.
  induction rs as [|[u0 r0] rs IH]; intro c; cbn [fold_left].
  - repeat split. intros u r H. now right.
  - destruct (IH (record_one cfg c (u0, r0))) as (Hm & Hw & He).
    rewrite Hm, Hw. repeat split.
    intros u r H. apply He in H as [H|H]; [left; now right|].
    cbn [record_one download_results] in H.
    apply dict_set_entries in H as [H|H]; [left; left; now symmetry|now right].
Qed.

Lemma fetch_keeps_record :
  forall c urls c',
    failures_recorded c = true ->
    fetch rt env cfg c urls = Some c' ->
    failures_recorded c' = true.
Proof.
  intros c urls c' Hrec H. unfold fetch in H.
  pose proof (download_urls_summary rt env cfg (manager c) (world c) urls) as Ha.
  destruct (download_urls rt env cfg (manager c) (world c) urls)
    as [[[m w] rs]|]; [|discriminate].
  inversion H; subst c'. clear H.
  destruct Ha as (_ & _ & Hfiled & _ & Hf & _).
  apply failures_recorded_iff in Hrec. apply failures_recorded_iff.
  destruct (record_results_shape rs (with_manager_world c m w)) as (Hm & _ & He).
  rewrite Hm. cbn [with_manager_world manager]. intros u r Hin Hs.
  apply He in Hin as [Hin|Hin].
  - specialize (Hfiled u r Hin). unfold filed in Hfiled.
    now rewrite Hs in Hfiled.
  - cbn [with_manager_world download_results] in Hin.
    apply Hf. now apply (Hrec u r).
Qed.

Variable ext : Collaborators.

Lemma download_batch_keeps_record :
  forall c batch c',
    failures_recorded c = true ->
    download_batch rt env cfg ext c batch = Some (Ret c') ->
    failures_recorded c' = true.
Proof.
  intros c batch c' Hrec H. unfold download_batch in H.
  destruct (download_urls rt env cfg (manager c) (world c) batch)
    as [[[m w] rs]|] eqn:Ed; [|discriminate].
  assert (H1 : failures_recorded
                 (record_results cfg (with_manager_world c m w) rs) = true).
  { apply (@fetch_keeps_record c batch); [exact Hrec|].
    unfold fetch. now rewrite Ed. }
  unfold _process_css_files in H.
  destruct (batch_css_files rt _) as [css_files|]; [|discriminate].
  cbn [py_bind] in H.
  match type of H with
  | context [with_discovered ?c0 ?d] =>
      assert (H2 : failures_recorded (with_discovered c0 d) = true)
        by exact H1;
      set (c2 := with_discovered c0 d) in *
  end.
  destruct (set_diff (discovered_urls c2) _) as [|u0 l].
  - inversion H; subst. exact H2.
  - destruct (fetch rt env cfg c2 (u0 :: l)) as [c3|] eqn:Ef; [|discriminate].
    inversion H; subst. eapply fetch_keeps_record; eassumption.
Qed.

Lemma download_batches_keep_record :
  forall bs c c',
    failures_recorded c = true ->
    download_batches rt env cfg ext c bs = Some (Ret c') ->
    failures_recorded c' = true.
Proof.
  induction bs as [|b bs IH]; intros c c' Hrec H; cbn [download_batches] in H.
  - inversion H; subst. exact Hrec.
  - destruct (download_batch rt env cfg ext c b) as [[c1|]|] eqn:E;
      try discriminate.
    eapply IH; [|exact H]. eapply download_batch_keeps_record; eassumption.
Qed.

Lemma closure_iteration_keeps_record :
  forall c cl c' cl' e,
    failures_recorded c = true ->
    closure_iteration rt env cfg ext c cl = Some (Ret (c', cl', e)) ->
    failures_recorded c' = true.
Proof.
  intros c cl c' cl' e Hrec H. unfold closure_iteration in H.
  destruct (collect_css rt _ _ _) as [[|css files]|]; try discriminate.
  - inversion H; subst. exact Hrec.
  - destruct (process_all env ext (world c) _ _) as [[cl1 new_assets]|];
      [|discriminate].
    destruct (truly_new _ _ _) as [|u0 l].
    + inversion H; subst. exact Hrec.
    + match type of H with
      | context [fetch _ _ _ ?c1 ?us] =>
          destruct (fetch rt env cfg c1 us) as [c2|] eqn:Ef; [|discriminate];
          inversion H; subst;
          apply (@fetch_keeps_record c1 us); [exact Hrec|exact Ef]
      end.
Qed.

Lemma closure_loop_keeps_record :
  forall fuel i c cl c' cl' i' e,
    failures_recorded c = true ->
    closure_loop rt env cfg ext fuel i c cl = Some (Ret (c', cl', i', e)) ->
    failures_recorded c' = true.
Proof.
  induction fuel as [|fuel IH]; intros i c cl c' cl' i' e Hrec H;
    cbn [closure_loop] in H; [discriminate|].
  destruct (i <? max_iterations)%Z.
  - destruct (closure_iteration rt env cfg ext c cl)
      as [[[[c1 cl1] [e1|]]|]|] eqn:E; try discriminate.
    + inversion H; subst.
      eapply closure_iteration_keeps_record; eassumption.
    + eapply IH; [|exact H].
      eapply closure_iteration_keeps_record; eassumption.
  - inversion H; subst. exact Hrec.
Qed.

(** The controller files every failure it records: if each failed entry
    of [download_results] is in the manager's [failed_urls], the same
    holds after phase 2 and after the stylesheet closure of phase 3,
    whatever they download.  A run starts with no results, so the retry
    phase of [clone_site] always finds its failed URLs in [failed_urls]. *)
Theorem failures_stay_recorded :
  forall c,
    failures_recorded c = true ->
    match download_discovered rt env cfg ext c with
    | Some (Ret c') => failures_recorded c' = true
    | _ => True
    end
    /\ match _process_css_files_recursively rt env cfg ext c with
       | Some (Ret (c', _, _, _)) => failures_recorded c' = true
       | _ => True
       end.
Proof.
  intros c Hrec. split.
  - destruct (download_discovered rt env cfg ext c) as [[c'|]|] eqn:E;
      try exact I.
    unfold download_discovered in E.
    destruct (discovered_urls c) as [|u0 l]; [inversion E; now subst|].
    destruct (Z.min _ 50 =? 0)%Z; [discriminate|].
    destruct (Z.min _ 50 <? 0)%Z; [inversion E; now subst|].
    eapply download_batches_keep_record; eassumption.
  - unfold _process_css_files_recursively.
    destruct (closure_loop rt env cfg ext closure_fuel 0 c empty_closure)
      as [[[[[c' cl'] i'] e]|]|] eqn:E; try exact I.
    eapply closure_loop_keeps_record; eassumption.
Qed.

End Retry.

(** A stylesheet that failed in a batch: its result is in the results and
    its URL in [failed_urls]. *)
Definition after_failure : Cloner :=
  {| discovered_urls := [lit "https://ex.test/style.css"];
     download_results :=
       [(lit "https://ex.test/style.css",
         failed (lit "https://ex.test/style.css")
                (lit "HTTP 500: Internal Server Error"))];
     url_mapping := [];
     manager := {| downloaded_urls := [];
                   failed_urls := [lit "https://ex.test/style.css"];
                   stats := stats new_manager |};
     world := empty_world |}.

Lemma retry_skips_recorded_failures_witness :
  exists c',
    retry_failed_downloads Ascii.rt
      (env_of (fun _ _ => ok (lit "text/css") Absent (lit "body{}")))
      cfg 5 0 after_failure []
    = Some (c', [])
    /\ world c' = world after_failure
    /\ download_results c' = download_results after_failure
    /\ url_mapping c' = url_mapping after_failure
    /\ downloaded_urls (manager c') = downloaded_urls (manager after_failure)
    /\ failed_urls (manager c') = failed_urls (manager after_failure).
Proof.
  apply (@retry_skips_recorded_failures Ascii.rt
           (env_of (fun _ _ => ok (lit "text/css") Absent (lit "body{}")))
           cfg 5 0%Z after_failure []).
  vm_compute. reflexivity.
Defined.

Lemma failures_stay_recorded_witness :
  match download_discovered Ascii.rt (Sites.served []) cfg
          (Sites.mined (lit "stylesheets") [] []) after_failure with
  | Some (Ret c') => failures_recorded c' = true
  | _ => True
  end
  /\ match _process_css_files_recursively Ascii.rt (Sites.served []) cfg
             (Sites.mined (lit "stylesheets") [] []) after_failure with
     | Some (Ret (c', _, _, _)) => failures_recorded c' = true
     | _ => True
     end.
Proof.
  apply (@failures_stay_recorded Ascii.rt (Sites.served []) cfg
           (Sites.mined (lit "stylesheets") [] []) after_failure).
  vm_compute. reflexivity.
Defined.

End RetryFacts.

(* ------------------------------------------------------------------ *)
(** ** The configuration filter *)

Module FilterFacts.
Import Urllib URLResolver Config DownloadManager DownloadFacts Bench.

Section Filter.
Variable rt : Runtime.
Variable env : Env.
Variable cfg : SiteClonerConfig.

(** What [should_download_file] has checked when it answers [True]: a
    known, non-zero size is within [max_file_size] (a size of zero counts
    as unknown), the lower-cased network location is not blocked, and it
    is on the allow-list when there is one. *)
Theorem accepted_file_is_within_limits :
  forall url file_size,
    should_download_file rt cfg url file_size = Ret true ->
    (forall n, file_size = Some n -> n = 0%Z \/ (n <= max_file_size cfg)%Z)
    /\ exists parsed,
         urlparse rt url = Ret parsed
         /\ mem (lower rt (netloc parsed)) (blocked_domains cfg) = false
         /\ (allowed_domains cfg = []
             \/ mem (lower rt (netloc parsed)) (allowed_domains cfg) = true).
Proof.
  intros url fs H. unfold should_download_file in H.
  destruct (urlparse rt url) as [parsed|]; [|discriminate].
  cbn [py_bind] in H. cbv zeta in H.
  repeat match type of H with
         | (if ?b then Ret false else _) = Ret true =>
             destruct b eqn:?; [discriminate|]
         end.
  split.
  - intros n E. subst fs. cbn [truthy] in *.
    destruct (n =? 0)%Z eqn:E0; [left; now apply Z.eqb_eq|].
    right. match goal with
           | Hs : (max_file_size cfg <? n)%Z = false |- _ =>
               apply Z.ltb_ge in Hs; exact Hs
           end.
  - exists parsed. split; [reflexivity|]. split.
    + match goal with
      | Hb : nonempty (blocked_domains cfg) && _ = false |- _ =>
          destruct (blocked_domains cfg); [reflexivity|exact Hb]
      end.
    + match goal with
      | Ha : nonempty (allowed_domains cfg) && _ = false |- _ =>
          destruct (allowed_domains cfg) as [|d ds] eqn:Ed;
            [now left|right];
          cbn [nonempty andb] in Ha; now destruct (mem _ (d :: ds))
      end.
Qed.

(** The configuration filter runs on the response, after the request:
    a URL it rejects, with no usable file on disk yet, costs exactly one
    GET, is not retried whatever the status, writes nothing and fails
    with [File filtered by configuration]. *)
Theorem filtered_url_costs_one_request :
  forall fuel w u path r,
    url_to_local_path rt (target_url cfg) (fs_resolve env) u (output_dir cfg)
    = Ret path ->
    (if overwrite_existing cfg then None else lookup_file (files w) path) = None ->
    server env u (request_count w u) = Responds r ->
    content_length r <> NotAnInteger ->
    should_download_file rt cfg u
      (match content_length r with Declared n => Some n | _ => None end)
    = Ret false ->
    (0 <= max_retries cfg)%Z ->
    _download_single_url rt env cfg (S fuel) w u
    = Some (with_request w u,
            failed u (lit "File filtered by configuration")).
Proof.
  intros fuel w u path r Hpath Hfile Hsrv Hlen Hfilter Hretries.
  cbn [_download_single_url].
  destruct (Z.to_nat (max_retries cfg + 1)) as [|k] eqn:Ek; [lia|].
  cbn [attempts]. unfold attempt_step. rewrite Hpath, Hfile, Hsrv.
  unfold handle_response.
  destruct (content_length r); [| now elim Hlen |]; rewrite Hfilter;
    reflexivity.
Qed.

End Filter.

Definition huge : Reply :=
  Responds {| status := 200; reason := lit "OK";
              content_length := Declared (200 * 1024 * 1024);
              content_type := lit "video/mp4"; chunks := [lit "data"];
              stream_error := None |}.

Lemma filtered_url_costs_one_request_witness :
  _download_single_url Ascii.rt (env_of (fun _ _ => huge)) cfg 1 empty_world
    (lit "https://ex.test/film.mp4")
  = Some (with_request empty_world (lit "https://ex.test/film.mp4"),
          failed (lit "https://ex.test/film.mp4")
                 (lit "File filtered by configuration")).
Proof.
  apply (@filtered_url_costs_one_request Ascii.rt (env_of (fun _ _ => huge))
           cfg 0 empty_world (lit "https://ex.test/film.mp4")
           (of_str (lit "cloned_site/ex.test/film.mp4"))
           {| status := 200; reason := lit "OK";
              content_length := Declared (200 * 1024 * 1024);
              content_type := lit "video/mp4"; chunks := [lit "data"];
              stream_error := None |}).
  - vm_compute. reflexivity.
  - reflexivity.
  - reflexivity.
  - discriminate.
  - vm_compute. reflexivity.
  - vm_compute. discriminate.
Defined.

Lemma accepted_file_is_within_limits_witness :
  (forall n, Some 4096%Z = Some n -> n = 0%Z \/ (n <= max_file_size cfg)%Z)
  /\ exists parsed,
       urlparse Ascii.rt (lit "https://ex.test/a.css") = Ret parsed
       /\ mem (lower Ascii.rt (netloc parsed)) (blocked_domains cfg) = false
       /\ (allowed_domains cfg = []
           \/ mem (lower Ascii.rt (netloc parsed)) (allowed_domains cfg) = true).
Proof.
  apply (@accepted_file_is_within_limits Ascii.rt cfg
           (lit "https://ex.test/a.css") (Some 4096%Z)).
  vm_compute. reflexivity.
Defined.

End FilterFacts.

(* ------------------------------------------------------------------ *)
(** ** Relative references between local files *)

Module RelativeLinks.
Import Urllib URLResolver Sanitizer PathNormal URLRewriter Bench.

(** A safe component that holds no backslash either. *)
Definition plain_name (s : str) : bool :=
  is_safe_component s && negb (cmem 92%N s).

Lemma replace_absent :
  forall c new s, ~ In c s -> replace [c] new s = s.
Proof.
  intros c new s. unfold replace.
  induction s as [|x s IH]; intro H; [reflexivity|].
  cbn [replace_from startswith].
  destruct (N.eqb c x) eqn:E.
  - apply N.eqb_eq in E. subst. elim H. now left.
  - cbn [andb]. rewrite IH; [reflexivity|]. intro Hin. apply H. now right.
Qed.

Lemma join_chars :
  forall c sep l,
    ~ In c sep -> Forall (fun x => ~ In c x) l -> ~ In c (join sep l).
Proof.
  intros c sep l Hsep H. induction H as [|x l Hx Hl IH]; [intros []|].
  cbn [join]. destruct l as [|y l]; [exact Hx|].
  intro Hin. apply in_app_or in Hin as [Hin|Hin]; [contradiction|].
  apply in_app_or in Hin as [Hin|Hin]; [contradiction|].
  now apply IH.
Qed.

Lemma split_dots :
  forall n s,
    split (ch "/") (concat (repeat (lit "../") n) ++ s)
    = repeat (lit "..") n ++ split (ch "/") s.
Proof.
  induction n as [|n IH]; intro s; [reflexivity|].
  cbn [repeat concat]. rewrite <- app_assoc.
  change (lit "../" ++ (concat (repeat (lit "../") n) ++ s))
    with (lit ".." ++ ch "/" :: (concat (repeat (lit "../") n) ++ s)).
  rewrite split_app_sep.
  - cbn [app]. now rewrite IH.
  - intro H. cbn in H. destruct H as [H|[H|[]]]; discriminate.
Qed.

Lemma filter_component_dots :
  forall n l,
    filter is_component (repeat (lit "..") n ++ l)
    = repeat (lit "..") n ++ filter is_component l.
Proof.
  induction n as [|n IH]; intro l; [reflexivity|].
  cbn [repeat app filter].
  change (is_component (lit "..")) with true. cbv iota. now rewrite IH.
Qed.

Lemma filter_component_safe :
  forall l, Forall safe l -> filter is_component l = l.
Proof.
  induction l as [|x l IH]; intro H; [reflexivity|].
  inversion H as [|? ? Hx Hl]; subst. cbn [filter]. rewrite (IH Hl).
  apply safe_parts in Hx as (Hne & _ & Hdot & _).
  unfold is_component. destruct x as [|c t]; [now elim Hne|].
  cbn [is_empty negb andb]. apply eqb_neq in Hdot. now rewrite Hdot.
Qed.

(** [n] parent steps undo [n] components. *)
Lemma collapse_dots :
  forall n taken rest acc,
    List.length taken = n ->
    collapse (repeat (lit "..") n ++ rest) (acc ++ taken) = collapse rest acc.
Proof.
  induction n as [|n IH]; intros taken rest acc Hlen.
  - destruct taken; [|discriminate]. now rewrite app_nil_r.
  - destruct (exists_last (l := taken)) as [front [x E]];
      [intro E; subst; discriminate|].
    subst taken. rewrite length_app in Hlen. cbn in Hlen.
    cbn [repeat app collapse].
    change (eqb (lit "..") (lit "..")) with true. cbv iota.
    rewrite app_assoc, removelast_last. apply IH. lia.
Qed.

Lemma plain_names :
  forall l, forallb plain_name l = true ->
    Forall safe l /\ Forall (fun x => ~ In 92%N x) l
    /\ Forall (fun x => ~ In (ch "/") x) l.
Proof.
  induction l as [|x l IH]; intro H; [repeat split; constructor|].
  cbn [forallb] in H. apply andb_true_iff in H as [Hx Hl].
  destruct (IH Hl) as (H1 & H2 & H3).
  unfold plain_name in Hx. apply andb_true_iff in Hx as [Hs Hb].
  repeat split; constructor; try assumption.
  - intro Hin. apply cmem_In in Hin. rewrite Hin in Hb. discriminate.
  - now apply safe_parts in Hs.
Qed.

Lemma safe_names :
  forall l, forallb is_safe_component l = true -> Forall safe l.
Proof.
  intros l H. apply Forall_forall. rewrite forallb_forall in H. exact H.
Qed.

(** [_calculate_relative_path] written as a path: as many parent steps
    as the page's directory is deep, then the target. *)
Lemma relative_path_parts :
  forall from_dir to_path,
    root to_path = false -> parts to_path <> [] ->
    forallb plain_name (parts to_path) = true ->
    of_str (_calculate_relative_path from_dir to_path)
    = {| root := false;
         parts := repeat (lit "..") (List.length (parts from_dir))
                  ++ parts to_path |}.
Proof.
  intros from_dir [rt_to l] Hroot Hne Hplain. cbn [root parts] in *.
  subst rt_to. destruct (plain_names l Hplain) as (Hsafe & Hback & Hslash).
  unfold _calculate_relative_path. cbv zeta. cbn [parts].
  assert (Hto : to_str {| root := false; parts := l |} = join (lit "/") l).
  { unfold to_str. cbn [root parts]. destruct l; [now elim Hne|reflexivity]. }
  rewrite Hto, replace_absent.
  2:{ apply join_chars; [|exact Hback].
      intro H. cbn in H. destruct H as [H|[]]; discriminate. }
  unfold of_str. rewrite split_dots.
  change (lit "/") with [ch "/"]. rewrite (@split_join (ch "/") l Hne Hslash).
  rewrite filter_component_dots, (@filter_component_safe l Hsafe).
  f_equal.
  destruct (List.length (parts from_dir)) as [|n]; [|reflexivity].
  cbn [repeat concat app]. destruct l as [|x l]; [now elim Hne|].
  inversion Hsafe as [|? ? Hx _]; subst.
  apply safe_parts in Hx as (Hxne & Hxs & _).
  destruct x as [|c t]; [now elim Hxne|].
  cbn [join]. destruct l; cbn [app startswith];
    (destruct (N.eqb (ch "/") c) eqn:E; [|reflexivity]);
    apply N.eqb_eq in E; elim Hxs; now left.
Qed.

(** The reference [_calculate_relative_path] builds leads from the
    directory of the page to the target: followed from
    [output_dir / from_dir] it names the same file as
    [output_dir / to_path], for every page directory of safe components
    and every target path of safe, backslash-free components. *)
Theorem relative_path_leads_to_target :
  forall cwd output_dir from_dir to_path,
    root from_dir = false ->
    forallb is_safe_component (parts from_dir) = true ->
    root to_path = false -> parts to_path <> [] ->
    forallb plain_name (parts to_path) = true ->
    lexical cwd
      (joinpath (joinpath output_dir from_dir)
                (of_str (_calculate_relative_path from_dir to_path)))
    = lexical cwd (joinpath output_dir to_path).
Proof.
  intros cwd R from_dir to_path Hfrom Hsafe Hto Hne Hplain.
  rewrite (@relative_path_parts from_dir to_path Hto Hne Hplain).
  destruct (plain_names _ Hplain) as (Hl & _ & _).
  apply safe_names in Hsafe.
  unfold joinpath. rewrite Hfrom, Hto. cbn [root parts]. cbv iota.
  unfold lexical. cbn [root parts]. f_equal. f_equal.
  set (X := if root R then parts R else cwd ++ parts R).
  assert (E1 : (if root R
                then (parts R ++ parts from_dir)
                     ++ repeat (lit "..") (List.length (parts from_dir))
                     ++ parts to_path
                else cwd ++ (parts R ++ parts from_dir)
                     ++ repeat (lit "..") (List.length (parts from_dir))
                     ++ parts to_path)
               = X ++ parts from_dir
                 ++ (repeat (lit "..") (List.length (parts from_dir))
                     ++ parts to_path)).
  { subst X. destruct (root R); now rewrite <- ?app_assoc. }
  assert (E2 : (if root R then parts R ++ parts to_path
                else cwd ++ parts R ++ parts to_path)
               = X ++ parts to_path).
  { subst X. destruct (root R); now rewrite <- ?app_assoc. }
  rewrite E1, E2.
  rewrite (@collapse_app X (parts from_dir ++ _) []).
  rewrite (@collapse_app (parts from_dir) _ (collapse X [])).
  rewrite (@collapse_safe (parts from_dir) (collapse X []) Hsafe).
  rewrite (@collapse_dots (List.length (parts from_dir)) (parts from_dir)
             (parts to_path) (collapse X []) eq_refl).
  now rewrite (@collapse_app X (parts to_path) []).
Qed.

Lemma relative_path_leads_to_target_witness :
  lexical cwd
    (joinpath (joinpath out (of_str (lit "ex.test/css")))
       (of_str (_calculate_relative_path (of_str (lit "ex.test/css"))
                  (of_str (lit "ex.test/img/bg.png")))))
  = lexical cwd (joinpath out (of_str (lit "ex.test/img/bg.png"))).
Proof.
  apply (@relative_path_leads_to_target cwd out (of_str (lit "ex.test/css"))
           (of_str (lit "ex.test/img/bg.png")));
    try reflexivity.
  vm_compute. discriminate.
Defined.

End RelativeLinks.

(* ------------------------------------------------------------------ *)
(** ** References the rewriter leaves alone *)

Module RewriteFacts.
Import Urllib URLResolver Rejection URLRewriter Bench.

Section Rewrite.
Variable rt : Runtime.
Variable base_url : str.
Variable url_mapping : list (str * str).

(** [_rewrite_single_url] looks a reference up only after [resolve_url]
    has accepted it, and [resolve_url] is called without the page URL and
    validates the reference before joining it to the base.  So a
    reference that is not protocol-relative and whose own scheme or
    network location is empty - every relative reference - comes back
    unchanged, whatever the mapping holds. *)
Theorem relative_reference_is_kept :
  forall u current_page_dir p,
    startswith (lit "//") (strip (isspace rt) u) = false ->
    urlparse rt (strip (isspace rt) u) = Ret p ->
    is_empty (scheme p) || is_empty (netloc p) = true ->
    _rewrite_single_url rt base_url url_mapping u current_page_dir = Ret u.
Proof.
  intros u dir p Hrel Hp Hempty. unfold _rewrite_single_url.
  destruct (is_empty u || _ || _ || _); [reflexivity|].
  rewrite resolve_url_unfold.
  destruct (is_empty u || is_empty (strip (isspace rt) u)); [reflexivity|].
  destruct (_should_skip_url rt (strip (isspace rt) u)); [reflexivity|].
  unfold complete_scheme. rewrite Hrel. cbn [py_bind].
  assert (Hinvalid : _is_valid_url_format rt (strip (isspace rt) u) = false).
  { unfold _is_valid_url_format. rewrite Hp.
    apply orb_true_iff in Hempty as [E|E].
    - now rewrite E.
    - destruct (is_empty (scheme p) || _); [reflexivity|]. now rewrite E. }
  rewrite Hinvalid. reflexivity.
Qed.

End Rewrite.

(** The stylesheet of the page is mapped, and the page refers to it by a
    relative reference. *)
Lemma relative_reference_is_kept_witness :
  _rewrite_single_url Ascii.rt site
    [(lit "https://ex.test/css/style.css", lit "ex.test/css/style.css")]
    (lit "css/style.css") (of_str (lit "."))
  = Ret (lit "css/style.css").
Proof.
  apply (@relative_reference_is_kept Ascii.rt site
           [(lit "https://ex.test/css/style.css", lit "ex.test/css/style.css")]
           (lit "css/style.css") (of_str (lit "."))
           {| scheme := []; netloc := []; path := lit "css/style.css";
              params := []; query := []; fragment := [] |}).
  - reflexivity.
  - vm_compute. reflexivity.
  - reflexivity.
Defined.

End RewriteFacts.

(* ------------------------------------------------------------------ *)
(** ** Local paths and the URL mapping *)

Module MappingFacts.
Import Urllib URLResolver Sanitizer PathNormal RelativeLinks Config
       DownloadManager SiteCloner.

Definition backslash : char := 92%N.

Lemma hex_digit_not_backslash : forall n, hex_digit n <> backslash.
Proof.
  intro n. unfold hex_digit, backslash.
  destruct (n <? 10)%N eqn:E.
  - apply N.ltb_lt in E. lia.
  - apply N.ltb_ge in E. lia.
Qed.

Lemma hexdigest_no_backslash : forall d, ~ In backslash (hexdigest d).
Proof.
  intros d H. unfold hexdigest in H. apply in_flat_map in H as [b [_ H]].
  unfold hex_byte in H.
  destruct H as [H|[H|[]]]; now apply hex_digit_not_backslash in H.
Qed.

Lemma literal_no_backslash :
  forall s, forallb (fun c => negb (N.eqb c backslash)) s = true ->
            ~ In backslash s.
Proof.
  intros s H Hin. rewrite forallb_forall in H. apply H in Hin.
  now rewrite N.eqb_refl in Hin.
Qed.

Section Mapping.
Variable rt : Runtime.

Lemma sanitize_no_backslash :
  forall s, ~ In backslash (_secure_sanitize_filename rt s).
Proof.
  intro s. unfold _secure_sanitize_filename.
  assert (Hun : ~ In backslash (lit "unnamed"))
    by (apply literal_no_backslash; reflexivity).
  destruct (is_empty s); [exact Hun|].
  match goal with
  | |- context [strip is_dot_or_space ?x] => set (s0 := x)
  end.
  assert (H0 : ~ In backslash s0).
  { subst s0. change (lit "_") with [95%N].
    apply replace_char_gone. discriminate. }
  set (s1 := strip is_dot_or_space s0).
  assert (H1 : ~ In backslash s1).
  { intro H. apply H0. eapply strip_chars. exact H. }
  set (s2 := if mem (upper rt s1) windows_reserved then ch "_" :: s1 else s1).
  assert (H2 : ~ In backslash s2).
  { subst s2. destruct (mem (upper rt s1) windows_reserved); [|exact H1].
    intros [H|H]; [discriminate|contradiction]. }
  clearbody s2. clear H1 H0. clearbody s1. clear s1 s0.
  match goal with
  | |- context [if is_empty ?x || _ then _ else _] => set (s3 := x)
  end.
  assert (H3 : ~ In backslash s3).
  { subst s3. destruct (100 <? List.length s2)%nat; [|exact H2].
    destruct (rsplit1 (ch ".") s2) as [[name ext]|] eqn:Hs.
    - apply rsplit1_some in Hs as [Hs _]. intro H. apply H2. rewrite Hs.
      apply in_app_or in H as [H|H].
      + apply in_or_app. left. eapply slice_to_chars. exact H.
      + apply in_or_app. right. destruct H as [H|H]; [discriminate|].
        now right.
    - intro H. apply H2. eapply firstn_chars. exact H. }
  destruct (is_empty s3 || eqb s3 (lit ".")); assumption.
Qed.

Lemma sanitize_extension_no_backslash :
  forall e, ~ In backslash (_sanitize_extension rt e).
Proof.
  intros e H. unfold _sanitize_extension in H.
  assert (Hhtml : ~ In backslash (lit "html"))
    by (apply literal_no_backslash; reflexivity).
  destruct (is_empty e); [contradiction|].
  set (ext := filter is_ascii_alnum (lower rt e)) in *.
  assert (Hext : ~ In backslash ext).
  { subst ext. intro Hx. apply filter_In in Hx as [_ Hx]. discriminate. }
  destruct (10 <? List.length ext)%nat.
  - destruct (is_empty (firstn 10 ext)); [contradiction|].
    apply Hext. eapply firstn_chars. exact H.
  - destruct (is_empty ext); contradiction.
Qed.

Definition no_backslash (s : str) : Prop := ~ In backslash s.

Lemma initial_parts_no_backslash :
  forall parsed, Forall no_backslash (initial_parts rt parsed).
Proof.
  intro parsed. unfold initial_parts. cbv zeta.
  assert (Hd : no_backslash
                 (if is_empty (_secure_sanitize_filename rt (netloc parsed))
                  then lit "unknown_domain"
                  else _secure_sanitize_filename rt (netloc parsed))).
  { destruct (is_empty _);
      [apply literal_no_backslash; reflexivity|apply sanitize_no_backslash]. }
  destruct (negb (is_empty (path parsed)) && negb (eqb (path parsed) (lit "/")));
    [|now constructor].
  apply Forall_app. split; [now constructor|].
  apply Forall_forall. intros x Hx.
  apply filter_In in Hx as [Hx _]. apply in_map_iff in Hx as [y [Hy _]].
  subst x. apply sanitize_no_backslash.
Qed.

Lemma last_no_backslash :
  forall l, Forall no_backslash l -> no_backslash (last l []).
Proof.
  intros l H. induction H as [|x l Hx Hl IH]; [intros []|].
  destruct l; [exact Hx|exact IH].
Qed.

Lemma set_last_no_backslash :
  forall l v, Forall no_backslash l -> no_backslash v ->
              Forall no_backslash (set_last l v).
Proof.
  intros l v Hl Hv. unfold set_last. apply Forall_app. split.
  - now apply removelast_Forall.
  - now constructor.
Qed.

Lemma decorated_chars :
  forall a h b,
    In backslash (a ++ lit "_q" ++ h ++ b) ->
    In backslash a \/ In backslash h \/ In backslash b.
Proof.
  intros a h b Hin.
  apply in_app_or in Hin as [Hin|Hin]; [now left|].
  change (lit "_q") with [95%N; 113%N] in Hin. cbn [app] in Hin.
  destruct Hin as [Hin|[Hin|Hin]].
  - discriminate.
  - discriminate.
  - apply in_app_or in Hin as [Hin|Hin].
    + right. left. exact Hin.
    + right. right. exact Hin.
Qed.

Lemma with_query_no_backslash :
  forall parsed l l',
    Forall no_backslash l -> with_query rt parsed l = Ret l' ->
    Forall no_backslash l'.
Proof.
  intros parsed l l' H E. unfold with_query in E.
  destruct (negb (is_empty (query parsed))); [|inversion E; now subst].
  destruct l as [|x l0] eqn:El; [inversion E; now subst|]. rewrite <- El in *.
  destruct (md5 rt (query parsed)) as [d|]; [|discriminate].
  pose proof (last_no_backslash H) as Hlast.
  assert (Hhash : no_backslash (firstn 8 (hexdigest d))).
  { intro Hin. apply firstn_chars in Hin. now apply hexdigest_no_backslash in Hin. }
  cbv zeta in E.
  destruct (rsplit1 (ch ".") (last l [])) as [[name ext]|] eqn:Hs;
    inversion E; subst l'; apply set_last_no_backslash; try exact H.
  - apply rsplit1_some in Hs as [Hs _]. intro Hin.
    apply decorated_chars in Hin as [Hin|[Hin|Hin]].
    + apply Hlast. rewrite Hs. apply in_or_app. now left.
    + contradiction.
    + destruct Hin as [Hin|Hin]; [discriminate|].
      now apply sanitize_extension_no_backslash in Hin.
  - intro Hin. apply decorated_chars in Hin as [Hin|[Hin|Hin]].
    + contradiction.
    + contradiction.
    + revert Hin. apply literal_no_backslash. reflexivity.
Qed.

Lemma with_extension_no_backslash :
  forall l, Forall no_backslash l -> Forall no_backslash (with_extension rt l).
Proof.
  intros l H. unfold with_extension.
  destruct (is_empty (last l []) || negb (has_dot (last l []))).
  - apply Forall_app. split; [exact H|].
    constructor; [apply literal_no_backslash; reflexivity|constructor].
  - destruct (negb (_has_valid_extension rt (last l []))); [|exact H].
    cbv zeta. destruct (negb (_is_binary_extension rt (last l []))); [|exact H].
    apply set_last_no_backslash; [exact H|].
    intro Hin. apply in_app_or in Hin as [Hin|Hin].
    + now apply last_no_backslash in Hin.
    + cbn in Hin. repeat (destruct Hin as [Hin|Hin]; [discriminate|]).
      exact Hin.
Qed.

Lemma plain_of_safe :
  forall l, Forall safe l -> Forall no_backslash l ->
            forallb plain_name l = true.
Proof.
  intros l Hs Hb. apply forallb_forall. intros x Hx.
  rewrite Forall_forall in Hs, Hb. unfold plain_name.
  rewrite (Hs x Hx). cbn [andb].
  destruct (cmem 92%N x) eqn:E; [|reflexivity].
  apply cmem_In in E. now apply Hb in E.
Qed.

(** The components [url_to_local_path] puts below the output root on a
    file system without links. *)
Lemma local_path_parts :
  forall base_url cwd url R p,
    url_to_local_path rt base_url (lexical cwd) url R = Ret p ->
    exists l,
      l <> [] /\ forallb plain_name l = true
      /\ p = {| root := root R; parts := parts R ++ l |}.
Proof.
  intros base_url cwd url R p H. rewrite url_to_local_path_stages in H.
  destruct (urlparse rt url) as [parsed|]; [|discriminate].
  cbn [py_bind] in H.
  destruct (eqb url base_url).
  - inversion H; subst p. exists [lit "index.html"].
    split; [discriminate|]. split; [reflexivity|].
    unfold child. rewrite of_str_safe by reflexivity. reflexivity.
  - destruct (with_query rt parsed (initial_parts rt parsed)) as [l|] eqn:El;
      [|discriminate].
    cbn [py_bind] in H.
    pose proof (with_query_safe rt parsed (initial_parts_safe rt parsed)) as Hq.
    rewrite El in Hq.
    pose proof (with_query_no_backslash parsed
                  (initial_parts_no_backslash parsed) El) as Hb.
    pose proof (with_extension_safe rt Hq) as He.
    apply with_extension_no_backslash in Hb.
    unfold verified in H. cbv zeta in H.
    destruct (lexical_verified cwd R He) as (x & y & z & Hx & Hy & Hz).
    rewrite Hx, Hy, Hz in H. inversion H; subst p.
    exists (with_extension rt l). split.
    + apply with_extension_nonempty.
      apply (with_query_nonempty rt parsed (initial_parts_nonempty rt parsed) El).
    + split; [now apply plain_of_safe|].
      now rewrite of_parts_safe.
Qed.

Lemma last_app_nonempty :
  forall (a l : list str) d, l <> [] -> last (a ++ l) d = last l d.
Proof.
  induction a as [|x a IH]; intros l d H; [reflexivity|].
  cbn [app]. rewrite <- (IH l d H).
  destruct (a ++ l) eqn:E; [|reflexivity].
  apply app_eq_nil in E as [_ E]. now elim H.
Qed.

Lemma has_dot_suffix :
  forall a b, has_dot b = true -> has_dot (a ++ b) = true.
Proof.
  intros a b H. unfold has_dot in *. apply cmem_In in H. apply cmem_In.
  apply in_or_app. now right.
Qed.

Lemma fallback_safe :
  forall d, safe (lit "safe_file_" ++ firstn 12 (hexdigest d) ++ lit ".html").
Proof.
  intro d. apply safe_intro with (c := ch "s"); [|now left|discriminate].
  intro Hin. apply in_app_or in Hin as [Hin|Hin].
  - revert Hin. cbn. intuition discriminate.
  - apply in_app_or in Hin as [Hin|Hin].
    + apply firstn_chars, hexdigest_chars in Hin. apply Hin. reflexivity.
    + revert Hin. cbn. intuition discriminate.
Qed.

Lemma with_extension_has_dot :
  forall l, has_dot (last (with_extension rt l) []) = true.
Proof.
  intro l. unfold with_extension.
  destruct (is_empty (last l []) || negb (has_dot (last l []))) eqn:E.
  - now rewrite last_last.
  - apply orb_false_iff in E as [_ E]. apply negb_false_iff in E.
    destruct (negb (_has_valid_extension rt (last l []))); [|exact E].
    cbv zeta. destruct (negb (_is_binary_extension rt (last l []))); [|exact E].
    unfold set_last. rewrite last_last. now apply has_dot_suffix.
Qed.

(** Every file is saved under a name with an extension: whatever the URL
    and whatever the file system, the last component of the path
    [url_to_local_path] returns contains a dot ([index.html], a name
    whose extension was kept, a name completed with [.html], or the
    fallback name). *)
Theorem local_file_has_extension :
  forall base_url resolve url R,
    match url_to_local_path rt base_url resolve url R with
    | Ret p => has_dot (name p) = true
    | Raises => True
    end.
Proof.
  intros base_url resolve url R.
  destruct (url_to_local_path rt base_url resolve url R) as [p|] eqn:H;
    [|exact I].
  assert (Hchild : forall n, safe n -> has_dot n = true ->
                             has_dot (name (child R n)) = true).
  { intros n Hn Hd. unfold child, name.
    rewrite (of_str_safe Hn). unfold joinpath. cbn [root parts].
    now rewrite last_last. }
  assert (Hfall : forall q,
             (safe_filename <-! _create_safe_fallback_name rt url ;;
              Ret (child R safe_filename)) = Ret q ->
             has_dot (name q) = true).
  { intros q Hq. unfold _create_safe_fallback_name in Hq.
    destruct (md5 rt url) as [d|]; [|discriminate].
    cbn [py_bind] in Hq.
    match type of Hq with
    | Ret (child R ?n) = _ =>
        assert (Hs : safe n) by apply fallback_safe;
        assert (Hd : has_dot n = true)
          by (rewrite app_assoc; now apply has_dot_suffix);
        set (nn := n) in *
    end.
    inversion Hq; subst q. now apply Hchild. }
  rewrite url_to_local_path_stages in H.
  destruct (urlparse rt url) as [parsed|]; [|discriminate].
  cbn [py_bind] in H.
  destruct (eqb url base_url).
  - inversion H; subst p. apply Hchild; reflexivity.
  - destruct (with_query rt parsed (initial_parts rt parsed)) as [l|] eqn:El;
      [|discriminate].
    cbn [py_bind] in H.
    pose proof (with_query_safe rt parsed (initial_parts_safe rt parsed)) as Hq.
    rewrite El in Hq.
    pose proof (with_extension_safe rt Hq) as He.
    assert (Hne : with_extension rt l <> []).
    { apply with_extension_nonempty.
      apply (with_query_nonempty rt parsed (initial_parts_nonempty rt parsed) El). }
    unfold verified in H. cbv zeta in H.
    assert (Hlocal : has_dot (name (joinpath R (of_parts (with_extension rt l))))
                     = true).
    { rewrite (of_parts_safe He). unfold joinpath, name. cbn [root parts].
      rewrite (last_app_nonempty _ _ Hne). apply with_extension_has_dot. }
    destruct (resolve R) as [r|];
      [destruct (resolve (joinpath R (of_parts (with_extension rt l)))) as [q|];
       [destruct (relative_to q r)|]|];
      try (now apply Hfall).
    inversion H; subst p. exact Hlocal.
Qed.

Lemma dict_get_set_same :
  forall (V : Type) (d : list (str * V)) k v,
    dict_get (dict_set d k v) k = Some v.
Proof.
  intros V. induction d as [|[k1 v1] d IH]; intros k v; cbn [dict_set].
  - cbn [dict_get]. now rewrite eqb_refl.
  - destruct (eqb k k1) eqn:E; cbn [dict_get]; rewrite E; [reflexivity|apply IH].
Qed.

Variable cfg : SiteClonerConfig.

(** The local URL that [add_url_mapping] stores for a downloaded file is
    the path of the file below the output directory: on a file system
    without links, joining the stored value to [output_dir] gives back
    the path [url_to_local_path] chose, and the value is a relative path
    of safe components (no [..], no empty or absolute part). *)
Theorem mapping_leads_back_to_file :
  forall base_url cwd url m,
    match url_to_local_path rt base_url (lexical cwd) url (output_dir cfg) with
    | Ret p =>
        exists v,
          dict_get (add_url_mapping cfg m url p) url = Some v
          /\ joinpath (output_dir cfg) (of_str v) = p
          /\ root (of_str v) = false
          /\ forallb is_safe_component (parts (of_str v)) = true
    | Raises => True
    end.
Proof.
  intros base_url cwd url m.
  destruct (url_to_local_path rt base_url (lexical cwd) url (output_dir cfg))
    as [p|] eqn:E; [|exact I].
  apply local_path_parts in E as (l & Hne & Hplain & Ep). subst p.
  destruct (plain_names l Hplain) as (Hsafe & Hback & Hslash).
  unfold add_url_mapping, relative_to. cbn [root parts].
  rewrite Bool.eqb_reflx, strip_prefix_app.
  assert (Hto : to_str {| root := false; parts := l |} = join (lit "/") l).
  { unfold to_str. cbn [root parts]. destruct l; [now elim Hne|reflexivity]. }
  rewrite Hto, replace_absent.
  2:{ apply join_chars; [|exact Hback].
      intro H. cbn in H. destruct H as [H|[]]; discriminate. }
  exists (join (lit "/") l). split; [apply dict_get_set_same|].
  assert (Hof : of_str (join (lit "/") l) = {| root := false; parts := l |}).
  { pose proof (@relative_path_parts {| root := false; parts := [] |}
                  {| root := false; parts := l |} eq_refl Hne Hplain) as Hr.
    unfold URLRewriter._calculate_relative_path in Hr. cbv zeta in Hr.
    cbn [parts List.length repeat concat app] in Hr.
    rewrite Hto, replace_absent in Hr; [exact Hr|].
    apply join_chars; [|exact Hback].
    intro H. cbn in H. destruct H as [H|[]]; discriminate. }
  rewrite Hof. cbn [root parts]. repeat split.
  apply forallb_forall. rewrite Forall_forall in Hsafe. exact Hsafe.
Qed.

End Mapping.
End MappingFacts.

(* ------------------------------------------------------------------ *)
(** ** What downloads and rewriting write *)

Module WriteFacts.
Import Urllib URLResolver Sanitizer RelativeLinks MappingFacts Config
       DownloadManager DownloadFacts URLRewriter Bench.

Lemma combine_eqb :
  forall a b : list str,
    List.length a = List.length b ->
    forallb (fun xy => eqb (fst xy) (snd xy)) (combine a b) = true ->
    a = b.
Proof.
  induction a as [|x a IH]; intros [|y b] Hlen H; try discriminate;
    [reflexivity|].
  cbn [combine forallb fst snd] in H. apply andb_true_iff in H as [Hx Ha].
  apply eqb_eq in Hx. subst y. f_equal. apply IH; [|exact Ha].
  cbn in Hlen. lia.
Qed.

Lemma path_eqb_eq : forall p q, path_eqb p q = true -> p = q.
Proof.
  intros [rp lp] [rq lq] H. unfold path_eqb in H. cbn [root parts] in H.
  apply andb_true_iff in H as [H Hall]. apply andb_true_iff in H as [Hr Hlen].
  apply Bool.eqb_prop in Hr. apply Nat.eqb_eq in Hlen.
  subst rq. f_equal. now apply combine_eqb.
Qed.

Lemma lookup_write_other :
  forall fs p c q,
    path_eqb q p = false ->
    lookup_file (write_file fs p c) q = lookup_file fs q.
Proof.
  induction fs as [|[k v] fs IH]; intros p c q H; cbn [write_file lookup_file].
  - now rewrite H.
  - destruct (path_eqb p k) eqn:E; cbn [lookup_file].
    + apply path_eqb_eq in E. subst k. now rewrite H.
    + destruct (path_eqb q k); [reflexivity|now apply IH].
Qed.

(** The files of [w'] that differ from those of [w] all satisfy [P]. *)
Definition writes_only (P : Path -> Prop) (w w' : World) : Prop :=
  forall q, lookup_file (files w') q <> lookup_file (files w) q -> P q.

Lemma content_eq_dec :
  forall a b : option (list N), {a = b} + {a <> b}.
Proof.
  decide equality. apply (list_eq_dec N.eq_dec).
Qed.

Lemma writes_only_refl : forall P w, writes_only P w w.
Proof. intros P w q H. now elim H. Qed.

Lemma writes_only_trans :
  forall P w1 w2 w3,
    writes_only P w1 w2 -> writes_only P w2 w3 -> writes_only P w1 w3.
Proof.
  intros P w1 w2 w3 H12 H23 q H.
  destruct (content_eq_dec (lookup_file (files w3) q)
                           (lookup_file (files w2) q)) as [E|E].
  - apply H12. now rewrite <- E.
  - now apply H23.
Qed.

Lemma writes_only_file :
  forall (P : Path -> Prop) w p c, P p -> writes_only P w (with_file w p c).
Proof.
  intros P w p c Hp q H. cbn [with_file files] in H.
  destruct (path_eqb q p) eqn:E.
  - apply path_eqb_eq in E. now subst q.
  - elim H. now apply lookup_write_other.
Qed.

Lemma writes_only_request :
  forall P w u, writes_only P w (with_request w u).
Proof. intros P w u q H. now elim H. Qed.

Section Writes.
Variable rt : Runtime.
Variable env : Env.
Variable cfg : SiteClonerConfig.
Variable cwd : list str.
Hypothesis no_links : fs_resolve env = lexical cwd.

(** A path below the output directory: the directory followed by safe
    components. *)
Definition below_output (q : Path) : Prop :=
  exists l,
    l <> [] /\ forallb is_safe_component l = true
    /\ q = {| root := root (output_dir cfg);
              parts := parts (output_dir cfg) ++ l |}.

Lemma local_path_below :
  forall u path,
    url_to_local_path rt (target_url cfg) (fs_resolve env) u (output_dir cfg)
    = Ret path ->
    below_output path.
Proof.
  intros u path H. rewrite no_links in H.
  apply local_path_parts in H as (l & Hne & Hplain & E).
  exists l. split; [exact Hne|]. split; [|exact E].
  destruct (plain_names l Hplain) as (Hsafe & _ & _).
  apply forallb_forall. rewrite Forall_forall in Hsafe. exact Hsafe.
Qed.

Lemma handle_response_writes :
  forall w u a path r,
    below_output path ->
    writes_only below_output w
      (DownloadBounds.step_world (handle_response rt env cfg w u a path r)).
Proof.
  intros w u a path r Hpath. unfold handle_response.
  destruct (content_length r);
    try (rewrite DownloadBounds.exception_step_world; apply writes_only_refl);
    (match goal with
     | |- context [should_download_file ?a ?b ?c ?d] =>
         destruct (should_download_file a b c d) as [[|]|]
     end;
     try apply writes_only_refl;
     try (rewrite DownloadBounds.exception_step_world; apply writes_only_refl);
     repeat match goal with
            | |- context [if ?b then _ else _] => destruct b
            | |- context [match stream_error r with _ => _ end] =>
                destruct (stream_error r)
            end;
     try apply writes_only_refl;
     try (rewrite DownloadBounds.exception_step_world);
     try (rewrite DownloadBounds.retry_or_fail_world);
     try apply writes_only_refl;
     try (cbn [DownloadBounds.step_world]);
     now apply writes_only_file).
Qed.

Lemma attempt_step_writes :
  forall w u a,
    writes_only below_output w
      (DownloadBounds.step_world (attempt_step rt env cfg w u a)).
Proof.
  intros w u a. unfold attempt_step.
  destruct (url_to_local_path _ _ _ u _) as [path|] eqn:Ep;
    [|rewrite DownloadBounds.exception_step_world; apply writes_only_refl].
  apply local_path_below in Ep.
  assert (Hreq : forall n,
    writes_only below_output w
      (DownloadBounds.step_world
         (match server env u n with
          | Fails e => exception_step cfg (with_request w u) u a e
          | Responds r => handle_response rt env cfg (with_request w u) u a path r
          end))).
  { intro n. destruct (server env u n).
    - rewrite DownloadBounds.exception_step_world. apply writes_only_request.
    - eapply writes_only_trans; [apply writes_only_request|].
      now apply handle_response_writes. }
  destruct (if overwrite_existing cfg then None else lookup_file (files w) path)
    as [content|].
  - destruct (0 <? size_of content)%Z; [apply writes_only_refl|apply Hreq].
  - apply Hreq.
Qed.

Lemma attempts_write :
  forall self,
    (forall w u w' r, self w u = Some (w', r) -> writes_only below_output w w') ->
    forall k a w u w' r,
      attempts rt env cfg self k a w u = Some (w', r) ->
      writes_only below_output w w'.
Proof.
  intros self Hself. induction k as [|k IH]; intros a w u w' r H;
    cbn [attempts] in H.
  - inversion H; subst. apply writes_only_refl.
  - pose proof (attempt_step_writes w u a) as Hstep.
    destruct (attempt_step rt env cfg w u a) as [w1 r1|w1|w1 u1];
      cbn [DownloadBounds.step_world] in Hstep.
    + now inversion H; subst.
    + eapply writes_only_trans; [exact Hstep|]. eapply IH. exact H.
    + eapply writes_only_trans; [exact Hstep|]. eapply Hself. exact H.
Qed.

Lemma download_writes :
  forall fuel w u w' r,
    _download_single_url rt env cfg fuel w u = Some (w', r) ->
    writes_only below_output w w'.
Proof.
  induction fuel as [|fuel IH]; intros w u w' r H; [discriminate|].
  cbn [_download_single_url] in H.
  eapply attempts_write; [|exact H].
  intros w0 u0 w1 r1 H1. eapply IH. exact H1.
Qed.

Lemma download_each_writes :
  forall urls w w' rs,
    download_each rt env cfg w urls = Some (w', rs) ->
    writes_only below_output w w'.
Proof.
  induction urls as [|u urls IH]; intros w w' rs H; cbn [download_each] in H.
  - inversion H; subst. apply writes_only_refl.
  - destruct (_download_single_url rt env cfg download_fuel w u)
      as [[w1 r]|] eqn:E1; [|discriminate].
    destruct (download_each rt env cfg w1 urls) as [[w2 rs']|] eqn:E2;
      [|discriminate].
    inversion H; subst.
    eapply writes_only_trans; [eapply download_writes; exact E1|].
    eapply IH. exact E2.
Qed.

(** Downloads stay inside the output directory.  On a file system without
    links, every file that a call of [download_urls] creates or changes
    lies at the output directory followed by safe components (no [..], no
    separator inside a component), whatever the URLs and whatever the
    server answers, redirects to alternate URLs included. *)
Theorem downloads_stay_below_output :
  forall m w urls,
    match download_urls rt env cfg m w urls with
    | Some (_, w', _) =>
        forall q, lookup_file (files w') q <> lookup_file (files w) q ->
                  below_output q
    | None => True
    end.
Proof.
  intros m w urls. unfold download_urls.
  destruct (set_diff _ _) as [|u0 new]; [intros q H; now elim H|].
  destruct (negb _); [intros q H; now elim H|].
  destruct (download_each rt env cfg w (u0 :: new)) as [[w' rs]|] eqn:E;
    [|exact I].
  apply download_each_writes in E. exact E.
Qed.

End Writes.

Lemma downloads_stay_below_output_witness :
  match download_urls Ascii.rt
          (env_of (fun _ _ => ok (lit "text/css") Absent (lit "body{}")))
          cfg new_manager empty_world
          [lit "https://ex.test/a/%2e%2e/%2e%2e/etc/x.css"] with
  | Some (_, w', _) =>
      forall q, lookup_file (files w') q <> lookup_file (files empty_world) q ->
                below_output cfg q
  | None => True
  end.
Proof.
  apply (@downloads_stay_below_output Ascii.rt
           (env_of (fun _ _ => ok (lit "text/css") Absent (lit "body{}")))
           cfg Bench.cwd eq_refl new_manager empty_world
           [lit "https://ex.test/a/%2e%2e/%2e%2e/etc/x.css"]).
Defined.

Section Stylesheets.
Variable rt : Runtime.
Variable env : Env.
Variable base_url : str.
Variable url_mapping : list (str * str).


End Stylesheets.
End WriteFacts.

(* ------------------------------------------------------------------ *)
(** ** The cycle check is exact *)

Module CycleFacts.
Import DownloadManager SiteCloner CycleCheck.

Section Graph.
Variable g : list (str * list str).

(** [a] imports [b]. *)
Definition edge (a b : str) : Prop := In b (imports_of g a).

Inductive reaches : str -> str -> Prop :=
| reach_here : forall x, reaches x x
| reach_step : forall x y z, edge x y -> reaches y z -> reaches x z.

(** [y] lies on an import cycle. *)
Definition on_cycle (y : str) : Prop := exists z, edge y z /\ reaches z y.

Lemma reaches_trans :
  forall x y z, reaches x y -> reaches y z -> reaches x z.
Proof.
  intros x y z H. induction H as [x|x y0 y Hxy Hy IH]; intro Hz; [exact Hz|].
  eapply reach_step; [exact Hxy|now apply IH].
Qed.

Lemma reaches_edge :
  forall x y z, reaches x y -> edge y z -> reaches x z.
Proof.
  intros x y z H E. eapply reaches_trans; [exact H|].
  eapply reach_step; [exact E|apply reach_here].
Qed.

(** No cycle can be reached from [x]. *)
Definition cycle_free (x : str) : Prop :=
  forall y, reaches x y -> ~ on_cycle y.

Lemma cycle_free_from_imports :
  forall s, (forall c, edge s c -> cycle_free c) -> cycle_free s.
Proof.
  intros s H y Hy Hc. inversion Hy as [x|x c z Hsc Hcy]; subst.
  - destruct Hc as [z [Hsz Hzs]]. apply (H z Hsz y); [exact Hzs|].
    exists z. split; assumption.
  - apply (H c Hsc y Hcy Hc).
Qed.

Lemma set_remove_added :
  forall s p, mem s p = false -> set_remove s (set_add s p) = p.
Proof.
  intros s p H. unfold set_add. rewrite H. unfold set_remove.
  rewrite filter_app. cbn [filter]. rewrite eqb_refl. cbn [negb].
  rewrite app_nil_r.
  induction p as [|x p IH]; [reflexivity|].
  cbn [mem existsb] in H. apply orb_false_iff in H as [Hx Hp].
  cbn [filter]. rewrite Hx. cbn [negb]. f_equal. now apply IH.
Qed.

(** *** A call that answers [False] leaves the path as it found it *)

Definition restores (self : Dfs) : Prop :=
  forall v p u v' p', self v p u = Some (false, v', p') -> p' = p.

Lemma cycle_among_restores :
  forall self, restores self ->
    forall imports v p v' p',
      cycle_among self imports v p = Some (false, v', p') -> p' = p.
Proof.
  intros self Hself. induction imports as [|c imports IH];
    intros v p v' p' H; cbn [cycle_among] in H.
  - now inversion H.
  - destruct (self v p c) as [[[b v1] p1]|] eqn:E; [|discriminate].
    destruct b; [discriminate|].
    apply Hself in E. subst p1. now apply IH in H.
Qed.

Lemma has_cycle_restores :
  forall fuel, restores (_has_css_import_cycle fuel g).
Proof.
  induction fuel as [|fuel IH]; intros v p u v' p' H; [discriminate|].
  cbn [_has_css_import_cycle] in H.
  destruct (mem u p) eqn:Ep; [discriminate|].
  destruct (mem u v); [now inversion H|].
  destruct (cycle_among _ _ _ _) as [[[b v1] p1]|] eqn:E; [|discriminate].
  destruct b; [discriminate|].
  apply (cycle_among_restores IH) in E. subst p1.
  inversion H; subst. now apply set_remove_added.
Qed.

(** *** An answer [True] comes from a cycle *)

(** Every URL on the path imports its way to [s], and [s] can be reached
    from [start]. *)
Definition on_the_way (start : str) (p : list str) (s : str) : Prop :=
  reaches start s
  /\ forall x, mem x p = true -> exists z, edge x z /\ reaches z s.

Definition sound (start : str) (self : Dfs) : Prop :=
  forall v p u v' p',
    on_the_way start p u -> self v p u = Some (true, v', p') ->
    exists y, reaches start y /\ on_cycle y.

Lemma cycle_among_sound :
  forall start self, restores self -> sound start self ->
    forall imports v p v' p',
      (forall c, In c imports -> on_the_way start p c) ->
      cycle_among self imports v p = Some (true, v', p') ->
      exists y, reaches start y /\ on_cycle y.
Proof.
  intros start self Hres Hself. induction imports as [|c imports IH];
    intros v p v' p' Hway H; cbn [cycle_among] in H; [discriminate|].
  destruct (self v p c) as [[[b v1] p1]|] eqn:E; [|discriminate].
  destruct b.
  - eapply Hself; [|exact E]. apply Hway. now left.
  - apply Hres in E. subst p1. eapply IH; [|exact H].
    intros c' Hc'. apply Hway. now right.
Qed.

Lemma has_cycle_sound :
  forall start fuel, sound start (_has_css_import_cycle fuel g).
Proof.
  intros start. induction fuel as [|fuel IH];
    intros v p u v' p' [Hreach Hpath] H; [discriminate|].
  cbn [_has_css_import_cycle] in H.
  destruct (mem u p) eqn:Ep.
  - exists u. split; [exact Hreach|]. apply Hpath. exact Ep.
  - destruct (mem u v); [discriminate|].
    destruct (cycle_among _ _ _ _) as [[[b v1] p1]|] eqn:E; [|discriminate].
    destruct b; [|discriminate].
    eapply (cycle_among_sound (has_cycle_restores fuel) IH); [|exact E].
    intros c Hc. split.
    + eapply reaches_edge; [exact Hreach|exact Hc].
    + intros x Hx. rewrite mem_set_add in Hx.
      apply orb_true_iff in Hx as [Hx|Hx].
      * apply eqb_eq in Hx. subst x. exists c. split; [exact Hc|apply reach_here].
      * destruct (Hpath x Hx) as [z [Hxz Hzu]].
        exists z. split; [exact Hxz|]. eapply reaches_edge; eassumption.
Qed.

(** *** An answer [False] leaves only cycle-free URLs behind *)

(** Every URL visited and no longer on the path is cycle-free. *)
Definition settled (v p : list str) : Prop :=
  forall x, mem x v = true -> mem x p = false -> cycle_free x.

Definition complete (self : Dfs) : Prop :=
  forall v p u v' p',
    settled v p -> self v p u = Some (false, v', p') ->
    settled v' p /\ mem u v' = true /\ mem u p = false.

Lemma cycle_among_complete :
  forall self,
    restores self -> complete self ->
    (forall v p u b v' p', self v p u = Some (b, v', p') -> subset v v') ->
    forall imports v p v' p',
      settled v p ->
      cycle_among self imports v p = Some (false, v', p') ->
      settled v' p
      /\ forall c, In c imports -> mem c v' = true /\ mem c p = false.
Proof.
  intros self Hres Hself Hgrow. induction imports as [|c imports IH];
    intros v p v' p' Hset H; cbn [cycle_among] in H.
  - inversion H; subst. split; [exact Hset|intros c []].
  - destruct (self v p c) as [[[b v1] p1]|] eqn:E; [|discriminate].
    destruct b; [discriminate|].
    pose proof (Hres _ _ _ _ _ E) as Ep. subst p1.
    destruct (Hself _ _ _ _ _ Hset E) as (Hset1 & Hc1 & Hcp).
    pose proof (@cycle_among_grows self Hgrow _ _ _ _ _ _ H) as Hsub.
    destruct (IH _ _ _ _ Hset1 H) as [Hset' Hall].
    split; [exact Hset'|].
    intros c' [Hc'|Hc']; [subst c'; split; [now apply Hsub|exact Hcp]|].
    now apply Hall.
Qed.

Lemma has_cycle_complete :
  forall fuel, complete (_has_css_import_cycle fuel g).
Proof.
  induction fuel as [|fuel IH]; intros v p u v' p' Hset H; [discriminate|].
  cbn [_has_css_import_cycle] in H.
  destruct (mem u p) eqn:Ep; [discriminate|].
  destruct (mem u v) eqn:Ev.
  { inversion H; subst. repeat split; assumption. }
  destruct (cycle_among _ _ _ _) as [[[b v1] p1]|] eqn:E; [|discriminate].
  destruct b; [discriminate|].
  inversion H; subst v' p'. clear H.
  assert (Hset1 : settled (set_add u v) (set_add u p)).
  { intros x Hv Hp. rewrite mem_set_add in Hv, Hp.
    apply orb_false_iff in Hp as [Hxu Hp]. rewrite Hxu in Hv.
    now apply Hset. }
  assert (Hgrow : forall v p u b v' p',
             _has_css_import_cycle fuel g v p u = Some (b, v', p') ->
             subset v v')
    by (intros; eapply has_cycle_grows; eassumption).
  pose proof (@cycle_among_grows _ Hgrow _ _ _ _ _ _ E) as Hsub.
  destruct (@cycle_among_complete _ (has_cycle_restores fuel) IH Hgrow
              _ _ _ _ _ Hset1 E)
    as [Hset' Hall].
  assert (Hu : mem u v1 = true).
  { apply Hsub. rewrite mem_set_add, eqb_refl. reflexivity. }
  split; [|split; [exact Hu|reflexivity]].
  intros x Hv Hp. destruct (eqb x u) eqn:Exu.
  - apply eqb_eq in Exu. subst x. apply cycle_free_from_imports.
    intros c Hc. destruct (Hall c Hc) as [Hcv Hcp].
    now apply Hset'.
  - apply Hset'; [exact Hv|]. now rewrite mem_set_add, Exu, Hp.
Qed.

Lemma cycle_answer_exact :
  forall fuel start_url b v p,
    _has_css_import_cycle fuel g [] [] start_url = Some (b, v, p) ->
    b = true <-> exists y, reaches start_url y /\ on_cycle y.
Proof.
  intros fuel start b v p E. destruct b.
  - split; [intros _|reflexivity].
    eapply (has_cycle_sound (start := start)); [|exact E].
    split; [apply reach_here|]. intros x Hx. discriminate.
  - split; [discriminate|]. intros [y [Hy Hc]]. exfalso.
    assert (Hset : settled [] []) by (intros x Hx; discriminate).
    destruct (@has_cycle_complete fuel _ _ _ _ _ Hset E) as (Hset' & Hv & Hp).
    apply (Hset' start Hv Hp y Hy Hc).
Qed.

End Graph.

(** [_has_css_import_cycle], called as the closure loop calls it (on the
    stylesheet whose imports were just entered in the graph, nothing
    visited, empty path), returns, and answers [True] exactly when an
    import cycle can be reached from that stylesheet; URLs the graph has
    no entry for count as stylesheets without imports. *)
Theorem cycle_check_is_exact :
  forall (g : list (str * list str)) (css_url : str) (imports : list str),
    let graph := dict_set g css_url imports in
    match _has_css_import_cycle (cycle_fuel graph) graph [] [] css_url with
    | Some (answer, _, _) =>
        answer = true
        <-> exists y, reaches graph css_url y /\ on_cycle graph y
    | None => False
    end.
Proof.
  intros g u imports graph.
  pose proof (cycle_check_returns g u imports) as Hret. fold graph in Hret.
  destruct (_has_css_import_cycle (cycle_fuel graph) graph [] [] u)
    as [[[b v] p]|] eqn:E; [|now elim Hret].
  eapply cycle_answer_exact. exact E.
Qed.

End CycleFacts.

(* ------------------------------------------------------------------ *)
(** ** The verdict and the batches of the controller *)

Module ControllerFacts.
Import Urllib URLResolver Config DownloadManager SiteCloner Bench.





Section Verdict.
Variable rt : Runtime.


End Verdict.



(** *** The batches of phase 2 *)

Lemma batches_cover :
  forall size, 0 < size ->
    forall fuel l, List.length l <= fuel ->
      concat (batches fuel size l) = l
      /\ Forall (fun b => 0 < List.length b <= size) (batches fuel size l).
Proof.
  intros size Hsize. induction fuel as [|fuel IH]; intros l Hlen.
  - destruct l; [|cbn in Hlen; lia]. split; [reflexivity|constructor].
  - destruct l as [|x l]; [split; [reflexivity|constructor]|].
    cbn [batches].
    destruct (IH (skipn size (x :: l))) as [Hc Hf].
    { rewrite length_skipn. cbn [List.length] in *. lia. }
    split.
    + cbn [concat]. rewrite Hc. apply firstn_skipn.
    + constructor; [|exact Hf]. rewrite length_firstn.
      cbn [List.length]. lia.
Qed.

(** The slicing loop of phase 2 hands every discovered URL to
    [download_urls] exactly once and in order: the batches, put end to
    end, are the list of URLs, no batch is empty and none has more than
    [batch_size] URLs. *)
Theorem batches_partition :
  forall size l,
    0 < size ->
    concat (batches (List.length l) size l) = l
    /\ Forall (fun b => 0 < List.length b <= size)
              (batches (List.length l) size l).
Proof.
  intros size l Hsize. now apply batches_cover.
Qed.

Lemma batches_partition_witness :
  concat (batches 3 2 [lit "a"; lit "b"; lit "c"]) = [lit "a"; lit "b"; lit "c"]
  /\ Forall (fun b => 0 < List.length b <= 2)
            (batches 3 2 [lit "a"; lit "b"; lit "c"]).
Proof.
  apply (@batches_partition 2 [lit "a"; lit "b"; lit "c"]). lia.
Defined.

End ControllerFacts.

(* ------------------------------------------------------------------ *)
(** ** asset_discoverer.py: the categories *)

Module AssetDiscoverer.
Import Urllib URLResolver.

Definition image_exts : list str :=
  [ lit ".jpg"; lit ".jpeg"; lit ".png"; lit ".gif"; lit ".svg";
    lit ".webp"; lit ".bmp"; lit ".ico"; lit ".tiff" ].
Definition font_exts : list str :=
  [ lit ".woff"; lit ".woff2"; lit ".ttf"; lit ".otf"; lit ".eot" ].
Definition stylesheet_exts : list str :=
  [ lit ".css"; lit ".scss"; lit ".sass" ].
Definition script_exts : list str := [ lit ".js"; lit ".mjs"; lit ".ts" ].
Definition media_exts : list str :=
  [ lit ".mp4"; lit ".webm"; lit ".ogg"; lit ".mp3"; lit ".wav";
    lit ".m4a"; lit ".aac" ].
Definition doc_exts : list str :=
  [ lit ".pdf"; lit ".doc"; lit ".docx"; lit ".xls"; lit ".xlsx";
    lit ".ppt"; lit ".pptx" ].

(** The keys of the dictionary [discover_assets_in_html] fills, and of the
    one [discover_assets_in_css] fills. *)
Definition html_keys : list str :=
  [ lit "stylesheets"; lit "scripts"; lit "images"; lit "fonts";
    lit "media"; lit "documents"; lit "manifests"; lit "service_workers";
    lit "preload"; lit "other" ].
Definition css_keys : list str :=
  [ lit "stylesheets"; lit "fonts"; lit "images"; lit "other" ].

Section Categories.
Variable rt : Runtime.

(** [_categorize_asset]; an absent or empty [element_name] is falsy. *)
Definition _categorize_asset (url : str) (element_name attr_name : option str)
  : py str :=
  parsed <-! urlparse rt url ;;
  let ext := lower rt (suffix (of_str (path parsed))) in
  if mem ext image_exts then Ret (lit "images")
  else if mem ext font_exts then Ret (lit "fonts")
  else if mem ext stylesheet_exts then Ret (lit "stylesheets")
  else if mem ext script_exts then Ret (lit "scripts")
  else if mem ext media_exts then Ret (lit "media")
  else if mem ext doc_exts then Ret (lit "documents")
  else
    match element_name with
    | Some (c :: rest) =>
        let element_name := c :: rest in
        if mem element_name [lit "img"; lit "picture"] then Ret (lit "images")
        else if mem element_name [lit "script"] then Ret (lit "scripts")
        else if mem element_name [lit "link"]
                && match attr_name with
                   | Some a => eqb a (lit "href")
                   | None => false
                   end
        then Ret (lit "stylesheets")
        else if mem element_name [lit "audio"; lit "video"; lit "source"]
        then Ret (lit "media")
        else Ret (lit "other")
    | _ => Ret (lit "other")
    end.

(** [_categorize_css_asset] *)
Definition _categorize_css_asset (url css_property : str) : py str :=
  parsed <-! urlparse rt url ;;
  let ext := lower rt (suffix (of_str (path parsed))) in
  if mem ext font_exts then Ret (lit "fonts")
  else if mem ext stylesheet_exts then Ret (lit "stylesheets")
  else if mem css_property [lit "src"]
          && contains (lit "font-face") css_property
  then Ret (lit "fonts")
  else if mem css_property [lit "background"; lit "background-image";
                            lit "border-image"; lit "mask"; lit "mask-image"]
  then Ret (lit "images")
  else if eqb css_property (lit "cursor") then Ret (lit "images")
  else _categorize_asset url None None.

End Categories.
End AssetDiscoverer.

(* ------------------------------------------------------------------ *)
(** ** Categories and dictionary keys *)

Module CategoryFacts.
Import Urllib URLResolver AssetDiscoverer.

Section Categories.
Variable rt : Runtime.

Lemma categorize_asset_known :
  forall url e a k,
    _categorize_asset rt url e a = Ret k ->
    In k [ lit "images"; lit "fonts"; lit "stylesheets"; lit "scripts";
           lit "media"; lit "documents"; lit "other" ].
Proof.
  intros url e a k H. unfold _categorize_asset in H.
  destruct (urlparse rt url) as [parsed|]; [|discriminate].
  cbn [py_bind] in H. cbv zeta in H.
  repeat match type of H with
         | (if ?b then _ else _) = _ => destruct b
         | match ?x with Some _ => _ | None => _ end = _ => destruct x
         | match ?x with [] => _ | _ :: _ => _ end = _ => destruct x
         end;
    inversion H; subst k; cbn; tauto.
Qed.

(** The category of an asset is always a key the dictionary of
    [discover_assets_in_html] holds, so filing the asset there cannot
    fail.  The dictionary of [discover_assets_in_css] has four keys only:
    a category from [_categorize_css_asset] or [_categorize_asset] is one
    of them or one of [scripts], [media], [documents], and for those
    three filing the asset raises [KeyError]. *)
Theorem categories_are_known :
  forall url,
    (forall element_name attr_name k,
        _categorize_asset rt url element_name attr_name = Ret k ->
        mem k html_keys = true
        /\ (mem k css_keys = true
            \/ In k [lit "scripts"; lit "media"; lit "documents"]))
    /\ (forall css_property k,
           _categorize_css_asset rt url css_property = Ret k ->
           mem k html_keys = true
           /\ (mem k css_keys = true
               \/ In k [lit "scripts"; lit "media"; lit "documents"])).
Proof.
  intro url.
  assert (Hseven : forall k,
    In k [ lit "images"; lit "fonts"; lit "stylesheets"; lit "scripts";
           lit "media"; lit "documents"; lit "other" ] ->
    mem k html_keys = true
    /\ (mem k css_keys = true
        \/ In k [lit "scripts"; lit "media"; lit "documents"])).
  { intros k Hk. cbn [In] in Hk.
    repeat (destruct Hk as [Hk|Hk];
            [subst k; split; [reflexivity|];
             first [left; reflexivity | right; cbn; tauto]|]).
    contradiction. }
  split.
  - intros e a k H. apply Hseven. eapply categorize_asset_known. exact H.
  - intros prop k H. apply Hseven. unfold _categorize_css_asset in H.
    destruct (urlparse rt url) as [parsed|] eqn:Ep; [|discriminate].
    cbn [py_bind] in H. cbv zeta in H.
    repeat match type of H with
           | (if ?b then Ret _ else _) = _ =>
               destruct b; [inversion H; subst k; cbn; tauto|]
           end.
    eapply categorize_asset_known. exact H.
Qed.

(** The property test meant for [@font-face] sources never applies: a
    property that equals [src] does not contain [font-face], so for [src]
    the category is decided by the extension alone. *)
Lemma font_face_test_is_dead :
  forall css_property,
    mem css_property [lit "src"] && contains (lit "font-face") css_property
    = false.
Proof.
  intro p. destruct (mem p [lit "src"]) eqn:E; [|reflexivity].
  cbn [mem existsb] in E. rewrite orb_false_r in E.
  apply eqb_eq in E. subst p. reflexivity.
Qed.

End Categories.
End CategoryFacts.

(* ------------------------------------------------------------------ *)
(** ** sitecloner.py: saving and loading the state

    The state file is modelled by the document [json.dump] is given and
    [json.load] gives back (strings, integers, booleans, [None], lists
    and dictionaries of them survive the two unchanged); the time stamp,
    which nothing reads, is left out.  [processed_urls], which only these
    two methods touch, is kept beside the cloner. *)

Module Recovery.
Import Urllib URLResolver Config DownloadManager SiteCloner.

Record SavedResult : Type := {
  saved_success : bool;
  saved_local_path : option str;
  saved_error : option str;
  saved_file_size : Z
}.

Record SavedState : Type := {
  saved_target_url : str;
  saved_discovered_urls : list str;
  saved_processed_urls : list str;
  saved_download_results : list (str * SavedResult);
  saved_url_mapping : list (str * str)
}.

Section State.
Variable cfg : SiteClonerConfig.

(** [save_state]: the document written to [sitecloner_state.json]. *)
Definition save_state (c : Cloner) (processed_urls : list str) : SavedState :=
  {| saved_target_url := target_url cfg;
     saved_discovered_urls := discovered_urls c;
     saved_processed_urls := processed_urls;
     saved_download_results :=
       map (fun ur =>
              (fst ur,
               {| saved_success := success (snd ur);
                  saved_local_path :=
                    match local_path (snd ur) with
                    | Some p => Some (to_str p)
                    | None => None
                    end;
                  saved_error := error (snd ur);
                  saved_file_size := file_size (snd ur) |}))
           (download_results c);
     saved_url_mapping := url_mapping c |}.

(** The [DownloadResult] that [load_state] builds from a saved entry. *)
Definition restored_result (u : str) (d : SavedResult) : DownloadResult :=
  {| url := u;
     success := saved_success d;
     local_path :=
       match saved_local_path d with
       | Some (c :: s) => Some (of_str (c :: s))
       | _ => None
       end;
     error := saved_error d;
     file_size := saved_file_size d;
     result_content_type := None |}.

(** The last loop of [load_state]: every result is filed in the manager. *)
Definition file_result (m : Manager) (ur : str * DownloadResult) : Manager :=
  if success (snd ur) then
    {| downloaded_urls := set_add (fst ur) (downloaded_urls m);
       failed_urls := failed_urls m;
       stats := stats m |}
  else
    {| downloaded_urls := downloaded_urls m;
       failed_urls := set_add (fst ur) (failed_urls m);
       stats := stats m |}.

(** [load_state]: [state] is the document read from the state file,
    [None] when the file does not exist; the new cloner, the new
    [processed_urls] and the returned flag. *)
Definition load_state (state : option SavedState) (c : Cloner)
           (processed_urls : list str) : Cloner * list str * bool :=
  match state with
  | None => (c, processed_urls, false)
  | Some state =>
      if negb (eqb (saved_target_url state) (target_url cfg))
      then (c, processed_urls, false)
      else
        let discovered := set_update [] (saved_discovered_urls state) in
        let processed := set_update [] (saved_processed_urls state) in
        let results :=
          fold_left (fun d ur => dict_set d (fst ur)
                                   (restored_result (fst ur) (snd ur)))
                    (saved_download_results state) (download_results c) in
        let mapping :=
          fold_left (fun m kv => dict_set m (fst kv) (snd kv))
                    (saved_url_mapping state) (url_mapping c) in
        ({| discovered_urls := discovered;
            download_results := results;
            url_mapping := mapping;
            manager := fold_left file_result results (manager c);
            world := world c |},
         processed, true)
  end.

End State.
End Recovery.

(* ------------------------------------------------------------------ *)
(** ** Facts about saving and loading the state *)

Module RecoveryFacts.
Import Urllib URLResolver PathNormal Config DownloadManager SiteCloner
       CycleCheck RetryFacts Recovery Bench.

(** A path as [pathlib] holds it: no component is empty, is [.], or
    contains the separator. *)
Definition well_formed (p : Path) : bool :=
  forallb (fun s => is_component s && negb (cmem (ch "/") s)) (parts p).

Lemma well_formed_parts :
  forall l,
    forallb (fun s => is_component s && negb (cmem (ch "/") s)) l = true ->
    filter is_component l = l /\ Forall (fun x => ~ In (ch "/") x) l.
Proof.
  induction l as [|x l IH]; intro H; [split; [reflexivity|constructor]|].
  cbn [forallb] in H. apply andb_true_iff in H as [Hx Hl].
  apply andb_true_iff in Hx as [Hc Hs]. destruct (IH Hl) as [Hf Ha].
  split.
  - cbn [filter]. now rewrite Hc, Hf.
  - constructor; [|exact Ha]. intro Hin. apply cmem_In in Hin.
    now rewrite Hin in Hs.
Qed.

Lemma join_head_not_slash :
  forall x l,
    is_component x = true -> ~ In (ch "/") x ->
    startswith (lit "/") (join (lit "/") (x :: l)) = false.
Proof.
  intros x l Hc Hs. destruct x as [|c t]; [discriminate|].
  change (lit "/") with [ch "/"].
  assert (E : N.eqb (ch "/") c = false).
  { apply N.eqb_neq. intro E. apply Hs. now left. }
  destruct l; cbn [join app startswith]; now rewrite E.
Qed.

(** [Path(str(p))] is [p]. *)
Lemma path_text_round_trip :
  forall p, well_formed p = true ->
    of_str (to_str p) = p /\ to_str p <> [].
Proof.
  intros [r l] H. unfold well_formed in H. cbn [parts] in H.
  destruct (well_formed_parts l H) as [Hf Ha].
  unfold to_str. cbn [root parts].
  destruct r.
  - split; [|discriminate]. unfold of_str. f_equal.
    destruct l as [|x l]; [reflexivity|].
    cbn [split]. rewrite N.eqb_refl. cbn [filter].
    change (is_component []) with false. cbv iota.
    change (lit "/") with [ch "/"].
    rewrite split_join; [exact Hf|discriminate|exact Ha].
  - destruct l as [|x l]; [split; [reflexivity|discriminate]|].
    split.
    + unfold of_str. f_equal.
      * cbn [forallb] in H. apply andb_true_iff in H as [Hx _].
        apply andb_true_iff in Hx as [Hc Hs].
        apply join_head_not_slash; [exact Hc|].
        inversion Ha; assumption.
      * change (lit "/") with [ch "/"].
        rewrite split_join; [exact Hf|discriminate|exact Ha].
    + cbn [forallb] in H. apply andb_true_iff in H as [Hx _].
      apply andb_true_iff in Hx as [Hc _].
      destruct x as [|c t]; [discriminate|].
      destruct l; cbn [join app]; discriminate.
Qed.

Lemma dict_get_set_other :
  forall (V : Type) (d : list (str * V)) k v u,
    eqb u k = false -> dict_get (dict_set d k v) u = dict_get d u.
Proof.
  intros V. induction d as [|[k1 v1] d IH]; intros k v u E; cbn [dict_set].
  - cbn [dict_get]. now rewrite E.
  - destruct (eqb k k1) eqn:Ek; cbn [dict_get].
    + apply eqb_eq in Ek. subst k1. now rewrite E.
    + destruct (eqb u k1); [reflexivity|now apply IH].
Qed.

Lemma dict_get_absent :
  forall (V : Type) (d : list (str * V)) k,
    ~ In k (dict_keys d) -> dict_get d k = None.
Proof.
  intros V. induction d as [|[k1 v1] d IH]; intros k H; [reflexivity|].
  cbn [dict_get]. destruct (eqb k k1) eqn:E.
  - apply eqb_eq in E. subst. elim H. now left.
  - apply IH. intro Hin. apply H. now right.
Qed.

Lemma dict_get_In :
  forall (V : Type) (d : list (str * V)) k v,
    dict_get d k = Some v -> In (k, v) d.
Proof.
  intros V. induction d as [|[k1 v1] d IH]; intros k v H; [discriminate|].
  cbn [dict_get] in H. destruct (eqb k k1) eqn:E.
  - apply eqb_eq in E. inversion H. subst. now left.
  - right. now apply IH.
Qed.

Lemma dict_get_map :
  forall (V W : Type) (g : V -> W) (d : list (str * V)) k,
    dict_get (map (fun kv => (fst kv, g (snd kv))) d) k
    = match dict_get d k with Some v => Some (g v) | None => None end.
Proof.
  intros V W g. induction d as [|[k1 v1] d IH]; intro k; [reflexivity|].
  cbn [map fst snd dict_get]. destruct (eqb k k1); [reflexivity|apply IH].
Qed.

(** Entering the entries of one dictionary into another: the entered
    ones win, the others stay. *)
Lemma refill :
  forall (V W : Type) (f : str -> V -> W) (l : list (str * V))
         (acc : list (str * W)) u,
    NoDup (dict_keys l) ->
    dict_get
      (fold_left (fun d kv => dict_set d (fst kv) (f (fst kv) (snd kv))) l acc)
      u
    = match dict_get l u with
      | Some v => Some (f u v)
      | None => dict_get acc u
      end.
Proof.
  intros V W f. induction l as [|[k v] l IH]; intros acc u H;
    cbn [fold_left]; [reflexivity|].
  cbn [fst snd]. unfold dict_keys in H. cbn [map fst] in H.
  inversion H as [|? ? Hk Hl]; subst.
  rewrite (IH _ u Hl). cbn [dict_get]. destruct (eqb u k) eqn:E.
  - apply eqb_eq in E. subst k.
    rewrite (dict_get_absent l u Hk). apply MappingFacts.dict_get_set_same.
  - destruct (dict_get l u); [reflexivity|].
    now apply dict_get_set_other.
Qed.

Lemma mem_set_update :
  forall t s u, mem u (set_update s t) = mem u s || mem u t.
Proof.
  unfold set_update. induction t as [|x t IH]; intros s u; cbn [fold_left].
  - cbn. now rewrite orb_false_r.
  - rewrite IH, mem_set_add. cbn [mem existsb].
    change (existsb (eqb u) t) with (mem u t).
    destruct (eqb u x), (mem u s), (mem u t); reflexivity.
Qed.

Lemma file_result_grows :
  forall rs m,
    subset (failed_urls m) (failed_urls (fold_left file_result rs m))
    /\ subset (downloaded_urls m) (downloaded_urls (fold_left file_result rs m)).
Proof.
  induction rs as [|ur rs IH]; intro m; cbn [fold_left].
  - split; apply subset_refl.
  - destruct (IH (file_result m ur)) as [Hf Hd].
    split; (eapply subset_trans; [|eassumption]);
      unfold file_result; destruct (success (snd ur));
      cbn [failed_urls downloaded_urls];
      try apply subset_refl; apply subset_set_add.
Qed.

Lemma file_result_files :
  forall rs m u r,
    In (u, r) rs ->
    mem u (if success r then downloaded_urls (fold_left file_result rs m)
           else failed_urls (fold_left file_result rs m)) = true.
Proof.
  induction rs as [|ur rs IH]; intros m u r Hin; [contradiction|].
  cbn [fold_left]. destruct Hin as [E|Hin]; [|now apply IH].
  subst ur. destruct (file_result_grows rs (file_result m (u, r))) as [Hf Hd].
  unfold file_result in *. cbn [fst snd] in *.
  destruct (success r); [apply Hd|apply Hf];
    cbn [downloaded_urls failed_urls]; now rewrite mem_set_add, eqb_refl.
Qed.

Section RoundTrip.
Variable cfg : SiteClonerConfig.

(** What survives of a result: the URL becomes the key it was stored
    under and the content type is dropped. *)
Definition reloaded (u : str) (r : DownloadResult) : DownloadResult :=
  {| url := u; success := success r; local_path := local_path r;
     error := error r; file_size := file_size r;
     result_content_type := None |}.

Definition paths_well_formed (c : Cloner) : bool :=
  forallb (fun ur => match local_path (snd ur) with
                     | Some p => well_formed p
                     | None => true
                     end) (download_results c).

Lemma restored_is_reloaded :
  forall u r,
    match local_path r with Some p => well_formed p | None => true end = true ->
    restored_result u
      {| saved_success := success r;
         saved_local_path := match local_path r with
                             | Some p => Some (to_str p)
                             | None => None
                             end;
         saved_error := error r;
         saved_file_size := file_size r |}
    = reloaded u r.
Proof.
  intros u r H. unfold restored_result, reloaded. cbn.
  destruct (local_path r) as [p|]; [|reflexivity].
  destruct (path_text_round_trip p H) as [E Hne].
  destruct (to_str p) as [|c s] eqn:Et; [now elim Hne|].
  now rewrite E.
Qed.

(** Loading what was saved.  [load_state], given the document
    [save_state] wrote for a cloner [c], answers [True] whatever the
    cloner it is applied to held before, and afterwards: the discovered
    and the processed URLs are the saved ones; every saved mapping and
    every saved result is there, a result with its success flag, local
    path, error and size, its URL being the key and its content type
    dropped; keys that were not saved keep what they had; and every URL
    with a result is filed in the manager, the successful ones in
    [downloaded_urls] and the failed ones in [failed_urls]. *)
Theorem load_state_restores_saved_state :
  forall c processed before before_processed,
    paths_well_formed c = true ->
    NoDup (dict_keys (download_results c)) ->
    NoDup (dict_keys (url_mapping c)) ->
    let '(c', processed', loaded) :=
      load_state cfg (Some (save_state cfg c processed)) before before_processed
    in
    loaded = true
    /\ (forall u, mem u (discovered_urls c') = mem u (discovered_urls c))
    /\ (forall u, mem u processed' = mem u processed)
    /\ (forall u, dict_get (url_mapping c') u
                  = match dict_get (url_mapping c) u with
                    | Some v => Some v
                    | None => dict_get (url_mapping before) u
                    end)
    /\ (forall u, dict_get (download_results c') u
                  = match dict_get (download_results c) u with
                    | Some r => Some (reloaded u r)
                    | None => dict_get (download_results before) u
                    end)
    /\ (forall u r, In (u, r) (download_results c') ->
                    mem u (if success r then downloaded_urls (manager c')
                           else failed_urls (manager c')) = true).
Proof.
  intros c processed before before_processed Hwf Hres Hmap.
  unfold load_state, save_state.
  cbn [saved_target_url saved_discovered_urls saved_processed_urls
       saved_download_results saved_url_mapping].
  rewrite eqb_refl. cbn [negb]. cbv zeta.
  split; [reflexivity|].
  cbn [discovered_urls url_mapping download_results manager].
  split; [intro u; now rewrite mem_set_update|].
  split; [intro u; now rewrite mem_set_update|].
  split; [|split].
  - intro u.
    exact (@refill str str (fun _ v => v) (url_mapping c)
                   (url_mapping before) u Hmap).
  - intro u.
    rewrite (@refill SavedResult DownloadResult restored_result).
    + rewrite (@dict_get_map DownloadResult SavedResult
                 (fun r => {| saved_success := success r;
                              saved_local_path :=
                                match local_path r with
                                | Some p => Some (to_str p)
                                | None => None
                                end;
                              saved_error := error r;
                              saved_file_size := file_size r |})
                 (download_results c) u).
      destruct (dict_get (download_results c) u) as [r|] eqn:E;
        [|reflexivity].
      f_equal. apply restored_is_reloaded.
      unfold paths_well_formed in Hwf. rewrite forallb_forall in Hwf.
      apply (Hwf (u, r)). now apply dict_get_In.
    + unfold dict_keys in *. rewrite map_map. cbn [fst]. exact Hres.
  - intros u r Hin. now apply file_result_files.
Qed.

End RoundTrip.

(** A run interrupted after one stylesheet was saved and one failed. *)
Definition interrupted : Cloner :=
  {| discovered_urls := [lit "https://ex.test/a.css"; lit "https://ex.test/b.css"];
     download_results :=
       [(lit "https://ex.test/a.css",
         {| url := lit "https://ex.test/a.css"; success := true;
            local_path := Some (of_str (lit "cloned_site/ex.test/a.css"));
            error := None; file_size := 6;
            result_content_type := Some (lit "text/css") |});
        (lit "https://ex.test/b.css",
         failed (lit "https://ex.test/b.css") (lit "HTTP 500: Internal Server Error"))];
     url_mapping := [(lit "https://ex.test/a.css", lit "ex.test/a.css")];
     manager := new_manager;
     world := empty_world |}.

Lemma load_state_restores_saved_state_witness :
  let '(c', processed', loaded) :=
    load_state cfg (Some (save_state cfg interrupted [])) interrupted []
  in
  loaded = true
  /\ (forall u, mem u (discovered_urls c') = mem u (discovered_urls interrupted))
  /\ (forall u, mem u processed' = mem u [])
  /\ (forall u, dict_get (url_mapping c') u
                = match dict_get (url_mapping interrupted) u with
                  | Some v => Some v
                  | None => dict_get (url_mapping interrupted) u
                  end)
  /\ (forall u, dict_get (download_results c') u
                = match dict_get (download_results interrupted) u with
                  | Some r => Some (reloaded u r)
                  | None => dict_get (download_results interrupted) u
                  end)
  /\ (forall u r, In (u, r) (download_results c') ->
                  mem u (if success r then downloaded_urls (manager c')
                         else failed_urls (manager c')) = true).
Proof.
  apply (@load_state_restores_saved_state cfg interrupted [] interrupted []).
  - vm_compute. reflexivity.
  - cbn. repeat constructor; cbn; intuition discriminate.
  - cbn. repeat constructor; cbn; intuition discriminate.
Defined.

End RecoveryFacts.
